(** * Guess Unicode punctuation: the rule pipeline of
      [dist/guessUnicodePunctuation.user.js]

    A shallow embedding of the punctuation guessing userscript: the
    substitution rules ([punctuationRules]), their per-language resolution
    ([punctuationRulesForLanguage]), the markup preserving rule list
    ([transformationRulesToPreserveMarkup]) and the engine
    ([transform], i.e. [String.prototype.replace] with a regular
    expression).

    JavaScript strings are sequences of UTF-16 code units, here [list Z].
    Regular expressions are kept as syntax trees and run by a backtracking
    matcher in continuation-passing style, as ECMAScript specifies them
    (ECMA-262, RegExp pattern semantics).  Rule objects live in a store,
    since the script shares and mutates them.  Of the page, the model has
    what the script reads and writes: the input fields it transforms and
    the select elements it reads the language from. *)

From Stdlib Require Import ZArith Lia Bool.
From stdpp Require Import base list strings gmap.

Local Open Scope Z_scope.

(** ** Strings as lists of UTF-16 code units *)

Abbreviation JSString := (list Z).

(** The code units of an ASCII literal. *)
Fixpoint u16 (s : string) : JSString :=
  match s with
  | EmptyString => []
  | String a s' => Z.of_N (Ascii.N_of_ascii a) :: u16 s'
  end.

Module Chars.
Definition QUOTATION_MARK : Z := 34.              (* U+0022 *)
Definition DOLLAR_SIGN : Z := 36.                 (* U+0024 *)
Definition AMPERSAND : Z := 38.                   (* U+0026 *)
Definition APOSTROPHE : Z := 39.                  (* U+0027 *)
Definition HYPHEN_MINUS : Z := 45.                (* U+002D *)
Definition FULL_STOP : Z := 46.                   (* U+002E *)
Definition LESS_THAN : Z := 60.                   (* U+003C *)
Definition GRAVE_ACCENT : Z := 96.                (* U+0060 *)
Definition LEFT_GUILLEMET : Z := 171.             (* U+00AB *)
Definition RIGHT_GUILLEMET : Z := 187.            (* U+00BB *)
Definition HEBREW_MAQAF : Z := 1470.              (* U+05BE *)
Definition HEBREW_GERESH : Z := 1523.             (* U+05F3 *)
Definition HEBREW_GERSHAYIM : Z := 1524.          (* U+05F4 *)
Definition HYPHEN : Z := 8208.                    (* U+2010 *)
Definition FIGURE_DASH : Z := 8210.               (* U+2012 *)
Definition EN_DASH : Z := 8211.                   (* U+2013 *)
Definition LEFT_SINGLE_QUOTE : Z := 8216.         (* U+2018 *)
Definition RIGHT_SINGLE_QUOTE : Z := 8217.        (* U+2019 *)
Definition LOW_SINGLE_QUOTE : Z := 8218.          (* U+201A *)
Definition LEFT_DOUBLE_QUOTE : Z := 8220.         (* U+201C *)
Definition RIGHT_DOUBLE_QUOTE : Z := 8221.        (* U+201D *)
Definition LOW_DOUBLE_QUOTE : Z := 8222.          (* U+201E *)
Definition HORIZONTAL_ELLIPSIS : Z := 8230.       (* U+2026 *)
Definition PRIME : Z := 8242.                     (* U+2032 *)
Definition DOUBLE_PRIME : Z := 8243.              (* U+2033 *)
Definition LEFT_SINGLE_GUILLEMET : Z := 8249.     (* U+2039 *)
Definition RIGHT_SINGLE_GUILLEMET : Z := 8250.    (* U+203A *)
End Chars.
Import Chars.

(** [S.substring(from, to)] for [from <= to]. *)
Definition substring (s : JSString) (from to : nat) : JSString :=
  take (to - from) (drop from s).

(** ** Completions: a call returns normally or throws *)

Inductive Error := TypeError | InvalidCharacterError.

Inductive Completion (A : Type) :=
| Normal (a : A)
| Throw (e : Error).
Arguments Normal {A} a.
Arguments Throw {A} e.

Definition cbind {A B} (x : Completion A) (f : A -> Completion B) : Completion B :=
  match x with
  | Normal a => f a
  | Throw e => Throw e
  end.

(** ** [btoa] and [atob] (HTML: forgiving Base64) *)

Module Base64.

Definition digit (n : Z) : Z :=
  if n <? 26 then 65 + n
  else if n <? 52 then 97 + (n - 26)
  else if n <? 62 then 48 + (n - 52)
  else if n =? 62 then 43 else 47.

Definition value (c : Z) : option Z :=
  if (65 <=? c) && (c <=? 90) then Some (c - 65)
  else if (97 <=? c) && (c <=? 122) then Some (c - 97 + 26)
  else if (48 <=? c) && (c <=? 57) then Some (c - 48 + 52)
  else if c =? 43 then Some 62
  else if c =? 47 then Some 63
  else None.

Fixpoint encode (bytes : list Z) : JSString :=
  match bytes with
  | [] => []
  | [a] =>
      [digit (Z.shiftr a 2); digit (Z.shiftl (Z.land a 3) 4); 61; 61]
  | [a; b] =>
      [digit (Z.shiftr a 2);
       digit (Z.lor (Z.shiftl (Z.land a 3) 4) (Z.shiftr b 4));
       digit (Z.shiftl (Z.land b 15) 2); 61]
  | a :: b :: c :: rest =>
      digit (Z.shiftr a 2)
      :: digit (Z.lor (Z.shiftl (Z.land a 3) 4) (Z.shiftr b 4))
      :: digit (Z.lor (Z.shiftl (Z.land b 15) 2) (Z.shiftr c 6))
      :: digit (Z.land c 63)
      :: encode rest
  end.

(** [btoa] throws on a code unit above U+00FF. *)
Definition btoa (s : JSString) : Completion JSString :=
  if forallb (fun c => c <=? 255) s then Normal (encode s)
  else Throw InvalidCharacterError.

Definition ascii_whitespace (c : Z) : bool :=
  (c =? 9) || (c =? 10) || (c =? 12) || (c =? 13) || (c =? 32).

(** Sextets to bytes; a final group of two or three sextets gives one or
    two bytes, the spare bits are dropped. *)
Fixpoint decode (sextets : list Z) : list Z :=
  match sextets with
  | a :: b :: c :: d :: rest =>
      Z.lor (Z.shiftl a 2) (Z.shiftr b 4)
      :: Z.lor (Z.shiftl (Z.land b 15) 4) (Z.shiftr c 2)
      :: Z.lor (Z.shiftl (Z.land c 3) 6) d
      :: decode rest
  | [a; b; c] =>
      [Z.lor (Z.shiftl a 2) (Z.shiftr b 4);
       Z.lor (Z.shiftl (Z.land b 15) 4) (Z.shiftr c 2)]
  | [a; b] => [Z.lor (Z.shiftl a 2) (Z.shiftr b 4)]
  | _ => []
  end.

Definition strip_padding (s : JSString) : JSString :=
  if (length s mod 4 =? 0)%nat then
    match reverse s with
    | 61 :: 61 :: r => reverse r
    | 61 :: r => reverse r
    | _ => s
    end
  else s.

Definition atob (s : JSString) : Completion JSString :=
  let data := strip_padding (filter (fun c => ascii_whitespace c = false) s) in
  if (length data mod 4 =? 1)%nat then Throw InvalidCharacterError
  else
    match mapM value data with
    | Some sextets => Normal (decode sextets)
    | None => Throw InvalidCharacterError
    end.

End Base64.

(** ** Regular expressions (ECMA-262, 22.2) *)

Module RegExp.

(** Members of a character class. *)
Inductive ClassAtom :=
| CChar (c : Z)              (* a pattern character *)
| CRange (lo hi : Z)         (* lo-hi *)
| CDigit                     (* \d *)
| CWord                      (* \w *)
| CSpace                     (* \s *)
| CLineTerminator            (* what the dot excludes *)
| CLetter.                   (* \p{L}, flag u only *)

Inductive Regex :=
| Empty
| Chr (invert : bool) (atoms : list ClassAtom)
| Seq (r1 r2 : Regex)
| Alt (r1 r2 : Regex)
| Quant (min : nat) (max : option nat) (greedy : bool) (r : Regex)
| Group (n : nat) (r : Regex)        (* the n-th left parenthesis, from 1 *)
| Look (ahead negative : bool) (r : Regex)
| AssertStart                        (* ^ *)
| AssertEnd.                         (* $ *)

Record RegExp := {
  pattern : Regex;
  global : bool;
  ignoreCase : bool;
  unicode : bool
}.

(** The capturing groups inside a pattern (group numbers). *)
Fixpoint groups (r : Regex) : list nat :=
  match r with
  | Seq r1 r2 | Alt r1 r2 => groups r1 ++ groups r2
  | Quant _ _ _ r' | Look _ _ r' => groups r'
  | Group n r' => n :: groups r'
  | _ => []
  end.

Definition nCaptures (r : Regex) : nat := foldr Nat.max 0%nat (groups r).

Definition is_digit (c : Z) : bool := (48 <=? c) && (c <=? 57).

Definition is_word (c : Z) : bool :=
  ((97 <=? c) && (c <=? 122)) || ((65 <=? c) && (c <=? 90))
  || is_digit c || (c =? 95).

Definition is_line_terminator (c : Z) : bool :=
  (c =? 10) || (c =? 13) || (c =? 8232) || (c =? 8233).

(** WhiteSpace and LineTerminator of ECMA-262. *)
Definition is_space (c : Z) : bool :=
  (c =? 9) || (c =? 11) || (c =? 12) || (c =? 32) || (c =? 160)
  || (c =? 5760) || ((8192 <=? c) && (c <=? 8202)) || (c =? 8239)
  || (c =? 8287) || (c =? 12288) || (c =? 65279) || is_line_terminator c.

Definition is_lead (c : Z) : bool := (55296 <=? c) && (c <=? 56319).
Definition is_trail (c : Z) : bool := (56320 <=? c) && (c <=? 57343).
Definition code_point (lead trail : Z) : Z :=
  (lead - 55296) * 1024 + (trail - 56320) + 65536.

Definition Captures := list (option (nat * nat)).

Record MatchState := { endIndex : nat; captures : Captures }.

Inductive Direction := Forward | Backward.

Section Matcher.
(** The host's table of the general category L (Letter), by code point. *)
Variable unicode_letter : Z -> bool.
Variable rer : RegExp.
Variable Input : JSString.

(** Canonicalize without flag u: upper case, and a code unit above 127
    never maps to one below 128.  Exact whenever one side is an ASCII
    pattern character, the only use the rules make of flag i. *)
Definition canonicalize (ch : Z) : Z :=
  if ignoreCase rer && (97 <=? ch) && (ch <=? 122) then ch - 32 else ch.

Definition atom_matches (ch : Z) (a : ClassAtom) : bool :=
  match a with
  | CChar c => canonicalize ch =? canonicalize c
  | CRange lo hi => (lo <=? ch) && (ch <=? hi)
  | CDigit => is_digit ch
  | CWord => is_word ch
  | CSpace => is_space ch
  | CLineTerminator => is_line_terminator ch
  | CLetter => unicode_letter ch
  end.

Definition class_matches (invert : bool) (atoms : list ClassAtom) (ch : Z) : bool :=
  xorb invert (existsb (atom_matches ch) atoms).

(** The character at [e] and the index after it: a code unit, or with
    flag u a code point (a surrogate pair counts as one character). *)
Definition read_forward (e : nat) : option (Z * nat) :=
  match Input !! e with
  | None => None
  | Some c =>
      match Input !! S e with
      | Some d =>
          if unicode rer && is_lead c && is_trail d
          then Some (code_point c d, S (S e))
          else Some (c, S e)
      | None => Some (c, S e)
      end
  end.

(** The character before [e] and the index where it starts. *)
Definition read_backward (e : nat) : option (Z * nat) :=
  match e with
  | O => None
  | S e1 =>
      match Input !! e1 with
      | None => None
      | Some d =>
          match e1 with
          | O => Some (d, e1)
          | S e2 =>
              match Input !! e2 with
              | Some c =>
                  if unicode rer && is_lead c && is_trail d
                  then Some (code_point c d, e2)
                  else Some (d, e1)
              | None => Some (d, e1)
              end
          end
      end
  end.

Definition read (dir : Direction) (e : nat) : option (Z * nat) :=
  match dir with
  | Forward => read_forward e
  | Backward => read_backward e
  end.

Definition AdvanceStringIndex (index : nat) : nat :=
  match read_forward index with
  | Some (_, e) => e
  | None => S index
  end.

(** The range a group captured: from where it was entered to where it
    was left, the other way round when matching backward. *)
Definition set_capture (dir : Direction) (n xe ye : nat) (caps : Captures) : Captures :=
  <[pred n := Some (match dir with Forward => (xe, ye) | Backward => (ye, xe) end)]> caps.

Definition clear_captures (ns : list nat) (caps : Captures) : Captures :=
  foldr (fun n cs => <[pred n := None]> cs) caps ns.

Definition Continuation := MatchState -> option MatchState.

(** RepeatMatcher: [m] matches the quantified atom once. The recursion is
    on [fuel]; an iteration either lowers [min] or moves the end index,
    so the [min + length Input + 1] iterations that [matcher] allows are
    never used up (theorem [fuel_adequate] below). *)
Fixpoint RepeatMatcher (m : MatchState -> Continuation -> option MatchState)
    (inner : list nat) (greedy : bool)
    (fuel min : nat) (max : option nat) (x : MatchState) (c : Continuation)
    : option MatchState :=
  match fuel with
  | O => None
  | S fuel' =>
      match max with
      | Some O => c x
      | _ =>
          let d : Continuation := fun y =>
            if Nat.eqb min 0 && Nat.eqb (endIndex y) (endIndex x) then None
            else RepeatMatcher m inner greedy fuel' (pred min) (pred <$> max) y c in
          let xr := {| endIndex := endIndex x;
                       captures := clear_captures inner (captures x) |} in
          if negb (Nat.eqb min 0) then m xr d
          else if greedy then
            match m xr d with
            | Some z => Some z
            | None => c x
            end
          else
            match c x with
            | Some z => Some z
            | None => m xr d
            end
      end
  end.

(** CompileSubpattern: the matcher of a pattern in a direction. *)
Fixpoint matcher (r : Regex) (dir : Direction) (x : MatchState) (c : Continuation)
    {struct r} : option MatchState :=
  match r with
  | Empty => c x
  | Chr invert atoms =>
      match read dir (endIndex x) with
      | Some (ch, e) =>
          if class_matches invert atoms ch
          then c {| endIndex := e; captures := captures x |}
          else None
      | None => None
      end
  | Seq r1 r2 =>
      match dir with
      | Forward => matcher r1 dir x (fun y => matcher r2 dir y c)
      | Backward => matcher r2 dir x (fun y => matcher r1 dir y c)
      end
  | Alt r1 r2 =>
      match matcher r1 dir x c with
      | Some z => Some z
      | None => matcher r2 dir x c
      end
  | Quant min max greedy r' =>
      RepeatMatcher (matcher r' dir) (groups r') greedy
        (min + length Input + 1) min max x c
  | Group n r' =>
      matcher r' dir x (fun y =>
        c {| endIndex := endIndex y;
             captures := set_capture dir n (endIndex x) (endIndex y) (captures y) |})
  | Look ahead negative r' =>
      let dir' := if ahead then Forward else Backward in
      match matcher r' dir' x Some with
      | Some y =>
          if negative then None
          else c {| endIndex := endIndex x; captures := captures y |}
      | None => if negative then c x else None
      end
  | AssertStart => if Nat.eqb (endIndex x) 0 then c x else None
  | AssertEnd => if Nat.eqb (endIndex x) (length Input) then c x else None
  end.

(** One attempt at index [i] (the pattern's matcher of CompilePattern). *)
Definition match_at (i : nat) : option MatchState :=
  matcher (pattern rer) Forward
    {| endIndex := i; captures := replicate (nCaptures (pattern rer)) None |} Some.

End Matcher.

Section Exec.
Variable rer : RegExp.
Variable Input : JSString.
(** The matcher the RegExp object holds (its [[RegExpMatcher]] slot):
    [match_at] of the pattern on this input. *)
Variable m : nat -> option MatchState.

(** RegExpBuiltinExec from [lastIndex]: the first index at or after it
    where the pattern matches. [n] bounds the indices still to try; the
    length of the input covers them all (lemma [exec_fuel] below). *)
Fixpoint exec (n : nat) (lastIndex : nat) : option (nat * MatchState) :=
  if (length Input <? lastIndex)%nat then None
  else
    match m lastIndex with
    | Some y => Some (lastIndex, y)
    | None =>
        match n with
        | O => None
        | S n' => exec n' (AdvanceStringIndex rer Input lastIndex)
        end
    end.

(** The loop of RegExp.prototype[Symbol.replace] that collects the
    results: every match with flag g, the first one without.  [n] bounds
    the number of results; one more than the length of the input is never
    reached (theorem [results_bound_adequate] below). *)
Fixpoint results (n : nat) (lastIndex : nat) : list (nat * MatchState) :=
  match exec (length Input) lastIndex with
  | None => []
  | Some (i, y) =>
      if global rer then
        match n with
        | O => [(i, y)]
        | S n' =>
            let e := endIndex y in
            (i, y) :: results n' (if (i <? e)%nat then e
                                  else AdvanceStringIndex rer Input e)
        end
      else [(i, y)]
  end.

End Exec.

End RegExp.

(** ** [String.prototype.replace] with a regular expression *)

(** A replace value: a template string, or a function of the matched text
    and the captured groups ([None] for a group that took no part). *)
Inductive Replacer :=
| Template (template : JSString)
| Computed (f : JSString -> list (option JSString) -> Completion JSString).

Definition decimal (c : Z) : nat := Z.to_nat (c - 48).

(** The text of the [n]-th group, from 1; [None] is [undefined]. *)
Definition group (caps : list (option JSString)) (n : nat) : option JSString :=
  default None (caps !! pred n).

(** GetSubstitution (ECMA-262, 22.1.3.19.1) without named groups. *)
Fixpoint GetSubstitution (matched str : JSString) (position : nat)
    (caps : list (option JSString)) (template : JSString) : JSString :=
  match template with
  | [] => []
  | c :: t1 =>
      if negb (c =? DOLLAR_SIGN) then c :: GetSubstitution matched str position caps t1
      else
        match t1 with
        | [] => [c]
        | d1 :: t2 =>
            if d1 =? DOLLAR_SIGN then
              DOLLAR_SIGN :: GetSubstitution matched str position caps t2
            else if d1 =? AMPERSAND then
              matched ++ GetSubstitution matched str position caps t2
            else if d1 =? GRAVE_ACCENT then
              take position str ++ GetSubstitution matched str position caps t2
            else if d1 =? APOSTROPHE then
              drop (position + length matched) str
              ++ GetSubstitution matched str position caps t2
            else if RegExp.is_digit d1 then
              let one := decimal d1 in
              let single :=
                if (1 <=? one)%nat && (one <=? length caps)%nat
                then default [] (group caps one)
                     ++ GetSubstitution matched str position caps t2
                else c :: d1 :: GetSubstitution matched str position caps t2 in
              match t2 with
              | d2 :: t3 =>
                  let two := (10 * one + decimal d2)%nat in
                  if RegExp.is_digit d2 && (1 <=? two)%nat && (two <=? length caps)%nat
                  then default [] (group caps two)
                       ++ GetSubstitution matched str position caps t3
                  else single
              | [] => single
              end
            else c :: GetSubstitution matched str position caps t1
        end
  end.

Section Replace.
Variable unicode_letter : Z -> bool.

Definition capture_strings (str : JSString) (y : RegExp.MatchState)
    : list (option JSString) :=
  map (option_map (fun range => substring str (fst range) (snd range)))
    (RegExp.captures y).

(** The second loop of RegExp.prototype[Symbol.replace]: the replacement
    of every result, and the text between the results. *)
Fixpoint assemble (str : JSString) (replaceValue : Replacer)
    (results : list (nat * RegExp.MatchState))
    (nextSourcePosition : nat) (accumulatedResult : JSString)
    : Completion JSString :=
  match results with
  | [] => Normal (accumulatedResult ++ drop nextSourcePosition str)
  | (position, y) :: results' =>
      let matched := substring str position (RegExp.endIndex y) in
      let caps := capture_strings str y in
      cbind
        match replaceValue with
        | Template t => Normal (GetSubstitution matched str position caps t)
        | Computed f => f matched caps
        end
        (fun replacement =>
           if (nextSourcePosition <=? position)%nat then
             assemble str replaceValue results' (position + length matched)%nat
               (accumulatedResult ++ substring str nextSourcePosition position
                ++ replacement)
           else assemble str replaceValue results' nextSourcePosition accumulatedResult)
  end.

Definition replace (str : JSString) (searchValue : RegExp.RegExp)
    (replaceValue : Replacer) : Completion JSString :=
  assemble str replaceValue
    (RegExp.results searchValue str (RegExp.match_at unicode_letter searchValue str)
       (length str + 1) 0)
    0 [].

End Replace.

(** [String.prototype.replaceAll] with one-character strings. *)
Definition replaceAll (str : JSString) (search replacement : Z) : JSString :=
  (fun c => if c =? search then replacement else c) <$> str.

(** ** The host's [Date.parse], on what the date rule hands it

    The date rule calls [Date.parse] on four digits, a hyphen, two digits
    and at most one more hyphen with two digits.  ECMA-262 (21.4.1.32,
    21.4.3.2) reads such a string as YYYY-MM or YYYY-MM-DD when MM is from
    01 to 12 and DD from 01 to 31, and leaves every other string to the
    host.  The model follows V8, the engine of Chromium and of Node.  Its
    parser collects the numbers of the string.  While each is in the range
    of its field the string is an ISO date, read as year, month and day.
    From the first number out of range on, the legacy rules of the parser
    take over: three numbers whose first can be a day (1 to 31) are read as
    month, day and year, any other three as year, month and day, and a
    missing third number counts as 1.  The answer is NaN when the month
    that comes out is not from 1 to 12 or the day not from 1 to 31; a day
    past the end of a short month is carried into the next month and is no
    error. *)
Definition is_month (n : Z) : bool := (1 <=? n) && (n <=? 12).
Definition is_day (n : Z) : bool := (1 <=? n) && (n <=? 31).

(** The year, the month and the day that the parser makes of three
    numbers (DayComposer::Write of V8); [None] when there is no such
    date. *)
Definition day_of (is_iso_date : bool) (c0 c1 c2 : Z) : option (Z * Z * Z) :=
  let '(year, month, day) :=
    if is_iso_date || negb (is_day c0) then (c0, c1, c2) else (c2, c0, c1) in
  let year :=
    if is_iso_date then year
    else if (0 <=? year) && (year <=? 49) then year + 2000
    else if (50 <=? year) && (year <=? 99) then year + 1900
    else year in
  if is_month month && is_day day then Some (year, month, day) else None.

Definition Date_parse_isNaN (s : JSString) : bool :=
  let two (a b : Z) := 10 * (a - 48) + (b - 48) in
  let four (a b c d : Z) := 100 * two a b + two c d in
  match s with
  | [y1; y2; y3; y4; _; m1; m2] =>
      let year := four y1 y2 y3 y4 in
      let month := two m1 m2 in
      match day_of (is_month month) year month 1 with
      | Some _ => false
      | None => true
      end
  | [y1; y2; y3; y4; _; m1; m2; _; d1; d2] =>
      let year := four y1 y2 y3 y4 in
      let month := two m1 m2 in
      let day := two d1 d2 in
      match day_of (is_month month && is_day day) year month day with
      | Some _ => false
      | None => true
      end
  | _ => true
  end.

(** ** The substitution rules *)

Module Syntax.
Import RegExp.
Declare Scope regex_scope.
Delimit Scope regex_scope with re.
Notation "r1 <+> r2" := (Seq r1 r2) (at level 60, right associativity) : regex_scope.

Definition lit (c : Z) : Regex := Chr false [CChar c].
Definition dot : Regex := Chr true [CLineTerminator].
Definition digit : Regex := Chr false [CDigit].                 (* \d *)
Definition word : Regex := Chr false [CWord].                   (* \w *)
Definition non_word : Regex := Chr true [CWord].                (* \W *)
Definition space : Regex := Chr false [CSpace].                 (* \s *)
Definition non_space : Regex := Chr true [CSpace].              (* \S *)
Definition non_alnum : Regex := Chr true [CLetter; CDigit].     (* [^\p{L}\d] *)
(** [[A-Za-z0-9+/=]] *)
Definition base64_char : Regex :=
  Chr false [CRange 65 90; CRange 97 122; CRange 48 57; CChar 43; CChar 47; CChar 61].
Definition plus (r : Regex) : Regex := Quant 1 None true r.         (* r+ *)
Definition lazy_plus (r : Regex) : Regex := Quant 1 None false r.   (* r+? *)
Definition opt (r : Regex) : Regex := Quant 0 (Some 1%nat) true r.  (* r? *)
Definition exactly (n : nat) (r : Regex) : Regex := Quant n (Some n) true r.
Definition at_least (n : nat) (r : Regex) : Regex := Quant n None true r.
Definition lookahead (r : Regex) : Regex := Look true false r.          (* (?=r) *)
Definition neg_lookahead (r : Regex) : Regex := Look true true r.       (* (?!r) *)
Definition lookbehind (r : Regex) : Regex := Look false false r.        (* (?<=r) *)
Definition neg_lookbehind (r : Regex) : Regex := Look false true r.     (* (?<!r) *)

(** Flags g, ig and ug. *)
Definition g (r : Regex) : RegExp :=
  {| pattern := r; global := true; ignoreCase := false; unicode := false |}.
Definition ig (r : Regex) : RegExp :=
  {| pattern := r; global := true; ignoreCase := true; unicode := false |}.
Definition ug (r : Regex) : RegExp :=
  {| pattern := r; global := true; ignoreCase := false; unicode := true |}.
End Syntax.
Import Syntax.

Abbreviation SubstitutionRule := (RegExp.RegExp * Replacer)%type.

Module Rules.
Import RegExp.
Local Open Scope regex_scope.

Definition LEFT_BRACKET : Z := 91.
Definition RIGHT_BRACKET : Z := 93.
Definition VERTICAL_LINE : Z := 124.
Definition SOLIDUS : Z := 47.
Definition SPACE : Z := 32.

(** [/(?<=[^\p{L}\d]|^)\x22(.+?)\x22(?=[^\p{L}\d]|$)/ug] (writing \x22
    for the double quote), and the same pattern around another delimiter. *)
Definition enclosed (delimiter : Z) : RegExp :=
  ug (lookbehind (Alt non_alnum AssertStart) <+> lit delimiter <+>
      Group 1 (lazy_plus dot) <+> lit delimiter <+>
      lookahead (Alt non_alnum AssertEnd)).

Definition double_quoted : SubstitutionRule :=
  (enclosed QUOTATION_MARK,
   Template ([LEFT_DOUBLE_QUOTE] ++ u16 "$1" ++ [RIGHT_DOUBLE_QUOTE])).

(** [/(?<=\W|^)'(n)'(?=\W|$)/ig] *)
Definition n_idiom : SubstitutionRule :=
  (ig (lookbehind (Alt non_word AssertStart) <+> lit APOSTROPHE <+>
       Group 1 (lit 110) <+> lit APOSTROPHE <+>
       lookahead (Alt non_word AssertEnd)),
   Template ([RIGHT_SINGLE_QUOTE] ++ u16 "$1" ++ [RIGHT_SINGLE_QUOTE])).

Definition single_quoted : SubstitutionRule :=
  (enclosed APOSTROPHE,
   Template ([LEFT_SINGLE_QUOTE] ++ u16 "$1" ++ [RIGHT_SINGLE_QUOTE])).

(** [/(\d+)\x22/g] *)
Definition double_primes : SubstitutionRule :=
  (g (Group 1 (plus digit) <+> lit QUOTATION_MARK),
   Template (u16 "$1" ++ [DOUBLE_PRIME])).

(** [/(\d+)'(\d+)/g] *)
Definition single_primes : SubstitutionRule :=
  (g (Group 1 (plus digit) <+> lit APOSTROPHE <+> Group 2 (plus digit)),
   Template (u16 "$1" ++ [PRIME] ++ u16 "$2")).

(** [/'/g] *)
Definition apostrophes : SubstitutionRule :=
  (g (lit APOSTROPHE), Template [RIGHT_SINGLE_QUOTE]).

(** [/(?<!\.)\.{3}(?!\.)/g] *)
Definition ellipses : SubstitutionRule :=
  (g (neg_lookbehind (lit FULL_STOP) <+> exactly 3 (lit FULL_STOP) <+>
      neg_lookahead (lit FULL_STOP)),
   Template [HORIZONTAL_ELLIPSIS]).

(** [/ - /g] *)
Definition dash_separator : SubstitutionRule :=
  (g (lit SPACE <+> lit HYPHEN_MINUS <+> lit SPACE),
   Template [SPACE; EN_DASH; SPACE]).

(** [/\d{4}-\d{2}(?:-\d{2})?(?=\W|$)/g] with the date check as replacer. *)
Definition date_hyphens : SubstitutionRule :=
  (g (exactly 4 digit <+> lit HYPHEN_MINUS <+> exactly 2 digit <+>
      opt (lit HYPHEN_MINUS <+> exactly 2 digit) <+>
      lookahead (Alt non_word AssertEnd)),
   Computed (fun potentialDate _ =>
     if Date_parse_isNaN potentialDate then Normal potentialDate
     else Normal (replaceAll potentialDate HYPHEN_MINUS HYPHEN))).

(** [/\d+(-\d+){2,}/g] *)
Definition figure_dashes : SubstitutionRule :=
  (g (plus digit <+> at_least 2 (Group 1 (lit HYPHEN_MINUS <+> plus digit))),
   Computed (fun groupedDigits _ =>
     Normal (replaceAll groupedDigits HYPHEN_MINUS FIGURE_DASH))).

(** [/(\d+)-(\d+)/g] *)
Definition range_dash : SubstitutionRule :=
  (g (Group 1 (plus digit) <+> lit HYPHEN_MINUS <+> Group 2 (plus digit)),
   Template (u16 "$1" ++ [EN_DASH] ++ u16 "$2")).

(** [/(?<=\S)-(?=\S)/g] *)
Definition hyphens : SubstitutionRule :=
  (g (lookbehind non_space <+> lit HYPHEN_MINUS <+> lookahead non_space),
   Template [HYPHEN]).

(** German: [/(\w+)-(\s)|(\s)-(\w+)/g] *)
Definition de_compound : SubstitutionRule :=
  (g (Alt (Group 1 (plus word) <+> lit HYPHEN_MINUS <+> Group 2 space)
          (Group 3 space <+> lit HYPHEN_MINUS <+> Group 4 (plus word))),
   Template (u16 "$1$3" ++ [HYPHEN] ++ u16 "$2$4")).

(** Japanese: [/(?<=[^\p{L}\d]|^)-(.+?)-(?=[^\p{L}\d]|$)/ug] *)
Definition ja_brackets : SubstitutionRule :=
  (enclosed HYPHEN_MINUS, Template ([EN_DASH] ++ u16 "$1" ++ [EN_DASH])).

(** Hebrew: [/(?<=\S)\x22(?=\S)/g] *)
Definition he_acronym : SubstitutionRule :=
  (g (lookbehind non_space <+> lit QUOTATION_MARK <+> lookahead non_space),
   Template [HEBREW_GERSHAYIM]).

(** The optional label of a link, [(\|.+?)?], as group 2. *)
Definition label_group : Regex :=
  opt (Group 2 (lit VERTICAL_LINE <+> lazy_plus dot)).

(** The [label = ''] default parameter of the link replacers. *)
Definition link (coded : JSString) (label : option JSString) : JSString :=
  [LEFT_BRACKET] ++ coded ++ default [] label ++ [RIGHT_BRACKET].

(** [/\[(.+?)(\|.+?)?\]/g] *)
Definition encode_link : SubstitutionRule :=
  (g (lit LEFT_BRACKET <+> Group 1 (lazy_plus dot) <+> label_group <+> lit RIGHT_BRACKET),
   Computed (fun _match caps =>
     cbind (Base64.btoa (default [] (group caps 1)))
           (fun coded => Normal (link coded (group caps 2))))).

(** [/(?<=\/\/)(\S+)/g] *)
Definition encode_url : SubstitutionRule :=
  (g (lookbehind (lit SOLIDUS <+> lit SOLIDUS) <+> Group 1 (plus non_space)),
   Computed (fun _match caps => Base64.btoa (default [] (group caps 1)))).

Definition bold_in : SubstitutionRule :=
  (g (lit APOSTROPHE <+> lit APOSTROPHE <+> lit APOSTROPHE), Template (u16 "<b>")).
Definition italic_in : SubstitutionRule :=
  (g (lit APOSTROPHE <+> lit APOSTROPHE), Template (u16 "<i>")).
Definition bold_out : SubstitutionRule :=
  (g (lit 60 <+> lit 98 <+> lit 62), Template [APOSTROPHE; APOSTROPHE; APOSTROPHE]).
Definition italic_out : SubstitutionRule :=
  (g (lit 60 <+> lit 105 <+> lit 62), Template [APOSTROPHE; APOSTROPHE]).

(** [/(?<=\/\/)([A-Za-z0-9+/=]+)/g] *)
Definition decode_url : SubstitutionRule :=
  (g (lookbehind (lit SOLIDUS <+> lit SOLIDUS) <+> Group 1 (plus base64_char)),
   Computed (fun _match caps => Base64.atob (default [] (group caps 1)))).

(** [/\[([A-Za-z0-9+/=]+)(\|.+?)?\]/g] *)
Definition decode_link : SubstitutionRule :=
  (g (lit LEFT_BRACKET <+> Group 1 (plus base64_char) <+> label_group <+> lit RIGHT_BRACKET),
   Computed (fun _match caps =>
     cbind (Base64.atob (default [] (group caps 1)))
           (fun url => Normal (link url (group caps 2))))).
End Rules.

(** ** The store: rule objects and rule arrays

    A rule is a two-element array [[searchValue, replaceValue]] and a rule
    list is an array of references to rules.  Both are objects with an
    identity: the script copies some, shares others and assigns to their
    slots, so they live in a store and are named by their address. *)

Abbreviation loc := nat.

Inductive Object :=
| RuleObject (searchValue : RegExp.RegExp) (replaceValue : Replacer)
| ArrayObject (elements : list loc).

Abbreviation Store := (list Object).

(** A computation on the store that returns or throws. *)
Definition M (A : Type) : Type := Store -> Completion (A * Store).

Definition ret {A} (a : A) : M A := fun h => Normal (a, h).
Definition throw {A} (e : Error) : M A := fun _ => Throw e.
Definition bind {A B} (m : M A) (f : A -> M B) : M B :=
  fun h => match m h with
           | Normal (a, h') => f a h'
           | Throw e => Throw e
           end.

Notation "'do' x <- m 'in' k" := (bind m (fun x => k))
  (at level 10, x name, m at level 100, k at level 200).

Definition alloc (o : Object) : M loc := fun h => Normal (length h, h ++ [o]).

(** [a[1] = value] on a rule: a TypeError when [a] is no object. *)
Definition set_replaceValue (a : loc) (value : Replacer) : M unit :=
  fun h => match h !! a with
           | Some (RuleObject searchValue _) =>
               Normal (tt, <[a := RuleObject searchValue value]> h)
           | _ => Throw TypeError
           end.

(** [a[0] = value] on a rule. *)
Definition set_searchValue (a : loc) (value : RegExp.RegExp) : M unit :=
  fun h => match h !! a with
           | Some (RuleObject _ replaceValue) =>
               Normal (tt, <[a := RuleObject value replaceValue]> h)
           | _ => Throw TypeError
           end.

(** [[...rule]]: a new array with the same two elements. *)
Definition spread_rule (rule : loc) : M loc :=
  fun h => match h !! rule with
           | Some (RuleObject searchValue replaceValue) =>
               alloc (RuleObject searchValue replaceValue) h
           | _ => Throw TypeError
           end.

Definition elements_of (array : loc) : M (list loc) :=
  fun h => match h !! array with
           | Some (ArrayObject elements) => Normal (elements, h)
           | _ => Throw TypeError
           end.

(** [array.push(element)] *)
Definition push (array element : loc) : M unit :=
  fun h => match h !! array with
           | Some (ArrayObject elements) =>
               Normal (tt, <[array := ArrayObject (elements ++ [element])]> h)
           | _ => Throw TypeError
           end.

(** ** Property lookup on the script's tables

    The tables are object literals, so a key that is no property of the
    table itself is looked up in [Object.prototype]. *)

Inductive Property (A : Type) :=
| Undefined
| Own (value : A)
| Inherited.
Arguments Undefined {A}.
Arguments Own {A} value.
Arguments Inherited {A}.

(** The properties of [Object.prototype] (ECMA-262, 20.1.3 and B.2.2). *)
Definition Object_prototype : list string :=
  ["constructor"; "hasOwnProperty"; "isPrototypeOf"; "propertyIsEnumerable";
   "toLocaleString"; "toString"; "valueOf"; "__proto__"; "__defineGetter__";
   "__defineSetter__"; "__lookupGetter__"; "__lookupSetter__"]%string.

Definition Get {A} (table : gmap string A) (key : string) : Property A :=
  match table !! key with
  | Some value => Own value
  | None => if bool_decide (key ∈ Object_prototype) then Inherited else Undefined
  end.

(** The property key of an optional argument: a missing argument is
    [undefined], whose key is the string "undefined". *)
Definition property_key (language : option string) : string :=
  default "undefined"%string language.

(** ** The script's constants *)

Import Rules.

(** The rules of [punctuationRules], in the order of the array literal. *)
Definition defaultRules : list SubstitutionRule :=
  [double_quoted; n_idiom; single_quoted;
   double_primes; single_primes;
   apostrophes;
   ellipses;
   dash_separator;
   date_hyphens;
   figure_dashes;
   range_dash;
   hyphens].

Definition rule_object (rule : SubstitutionRule) : Object :=
  RuleObject (fst rule) (snd rule).

(** The store once the script is loaded.  Addresses 0 to 11 hold the default
    rules and 12 the array [punctuationRules]; 13 to 15 hold the rules of
    [languageSpecificRules]; 16 to 23 the rules written out in
    [transformationRulesToPreserveMarkup] and 24 that array, into which
    [...punctuationRules] spreads the references to the default rules. *)
Definition initial_store : Store :=
  (rule_object <$> defaultRules)
  ++ [ArrayObject (seq 0 12)]
  ++ (rule_object <$> [de_compound; ja_brackets; he_acronym])
  ++ (rule_object <$> [encode_link; encode_url; bold_in; italic_in;
                       bold_out; italic_out; decode_url; decode_link])
  ++ [ArrayObject ([16; 17; 18; 19] ++ seq 0 12 ++ [20; 21; 22; 23])%nat].

Definition punctuationRules : loc := 12%nat.
Definition transformationRulesToPreserveMarkup : loc := 24%nat.

Definition languageSpecificOverrides : gmap string (list JSString) :=
  list_to_map
    [("en"%string, [[LEFT_DOUBLE_QUOTE] ++ u16 "$1" ++ [RIGHT_DOUBLE_QUOTE];
             [LEFT_SINGLE_QUOTE] ++ u16 "$1" ++ [RIGHT_SINGLE_QUOTE]]);
     ("fr"%string, [[LEFT_GUILLEMET] ++ u16 " $1 " ++ [RIGHT_GUILLEMET];
             [LEFT_SINGLE_GUILLEMET] ++ u16 " $1 " ++ [RIGHT_SINGLE_GUILLEMET]]);
     ("de"%string, [[LOW_DOUBLE_QUOTE] ++ u16 "$1" ++ [LEFT_DOUBLE_QUOTE];
             [LOW_SINGLE_QUOTE] ++ u16 "$1" ++ [LEFT_SINGLE_QUOTE]]);
     ("he"%string, [[RIGHT_DOUBLE_QUOTE] ++ u16 "$1" ++ [RIGHT_DOUBLE_QUOTE];
             [RIGHT_SINGLE_QUOTE] ++ u16 "$1" ++ [RIGHT_SINGLE_QUOTE];
             [HEBREW_GERESH];
             [HEBREW_MAQAF]])].

Definition overrideRuleIndices : list nat := [0; 2; 5; 11]%nat.

Definition languageSpecificRules : gmap string (list loc) :=
  list_to_map [("de"%string, [13]); ("ja"%string, [14]); ("he"%string, [15])]%nat.

(** ** [punctuationRulesForLanguage] *)

(** [punctuationRules.map((rule, index) =>
      overrideRuleIndices.includes(index) ? [...rule] : rule)], the elements
    from [index] on. *)
Fixpoint map_rules (elements : list loc) (index : nat) : M (list loc) :=
  match elements with
  | [] => ret []
  | rule :: rest =>
      do rule' <- (if bool_decide (index ∈ overrideRuleIndices)
                   then spread_rule rule else ret rule) in
      do rest' <- map_rules rest (S index) in
      ret (rule' :: rest')
  end.

(** The callback of the first [forEach], for the values from [index] on:
    [rules[overrideRuleIndices[index]][replaceValueIndex] = value]. *)
Fixpoint overwrite (rules : loc) (values : list JSString) (index : nat) : M unit :=
  match values with
  | [] => ret tt
  | value :: rest =>
      do elements <- elements_of rules in
      match overrideRuleIndices !! index ≫= (elements !!.) with
      | Some rule =>
          do _ <- set_replaceValue rule (Template value) in
          overwrite rules rest (S index)
      | None => throw TypeError
      end
  end.

(** The callback of the second [forEach]: [rules.push(rule)]. *)
Fixpoint append (rules : loc) (extra : list loc) : M unit :=
  match extra with
  | [] => ret tt
  | rule :: rest => do _ <- push rules rule in append rules rest
  end.

(** [table[language]?.forEach(callback)]: nothing for [undefined], the loop
    for the table's own array, and a TypeError for a value inherited from
    [Object.prototype], none of which has a [forEach]. *)
Definition optional_forEach {A} (table : gmap string A) (language : option string)
    (loop : A -> M unit) : M unit :=
  match Get table (property_key language) with
  | Undefined => ret tt
  | Own value => loop value
  | Inherited => throw TypeError
  end.

Definition punctuationRulesForLanguage (language : option string) : M loc :=
  do elements <- elements_of punctuationRules in
  do copies <- map_rules elements 0 in
  do rules <- alloc (ArrayObject copies) in
  do _ <- optional_forEach languageSpecificOverrides language
            (fun values => overwrite rules values 0) in
  do _ <- optional_forEach languageSpecificRules language (append rules) in
  ret rules.

(** ** [transform] *)

Section Transform.
Variable unicode_letter : Z -> bool.

(** One turn of the [forEach] of [transform]. *)
Definition substitute (value : JSString) (rule : SubstitutionRule)
    : Completion JSString :=
  replace unicode_letter value (fst rule) (snd rule).

(** [transform] on rules given by value. *)
Fixpoint transform_with (substitutionRules : list SubstitutionRule)
    (value : JSString) : Completion JSString :=
  match substitutionRules with
  | [] => Normal value
  | rule :: rest => cbind (substitute value rule) (transform_with rest)
  end.

(** The rules an array holds, read off the store. *)
Definition rule_at (h : Store) (a : loc) : option SubstitutionRule :=
  match h !! a with
  | Some (RuleObject searchValue replaceValue) => Some (searchValue, replaceValue)
  | _ => None
  end.

Definition rules_at (h : Store) (array : loc) : option (list SubstitutionRule) :=
  match h !! array with
  | Some (ArrayObject elements) => mapM (rule_at h) elements
  | _ => None
  end.

(** [transform(value, substitutionRules)] in store [h]. *)
Definition transform (h : Store) (value : JSString) (substitutionRules : loc)
    : Completion JSString :=
  match rules_at h substitutionRules with
  | Some rules => transform_with rules value
  | None => Throw TypeError
  end.

(** What [guessUnicodePunctuation] computes for the text of one input
    field: the rules of the language, made in the script's store, applied
    to the text. *)
Definition guessUnicodePunctuation (language : option string) (value : JSString)
    : Completion JSString :=
  match punctuationRulesForLanguage language initial_store with
  | Normal (rules, h) => transform h value rules
  | Throw e => Throw e
  end.

(** What the buttons for annotations and edit notes compute:
    [transform(value, transformationRulesToPreserveMarkup)]. *)
Definition guessPreservingMarkup (value : JSString) : Completion JSString :=
  transform initial_store value transformationRulesToPreserveMarkup.

End Transform.

(** ** What a successful match says about the input

    [Matches r dir x y]: the pattern [r], run in direction [dir] from state
    [x], can hand state [y] to its continuation.  The relation follows the
    syntax; it says nothing of the order in which the matcher tries the
    alternatives, and where the matcher asks that a pattern fails (a
    negative lookaround) it asks nothing. *)

Section Denotation.
Variable unicode_letter : Z -> bool.
Variable rer : RegExp.RegExp.
Variable Input : JSString.
Import RegExp.

Fixpoint iterate (R : MatchState -> MatchState -> Prop) (n : nat)
    (x y : MatchState) : Prop :=
  match n with
  | O => y = x
  | S n' => exists z, R x z /\ iterate R n' z y
  end.

(** The least number of iterations of a quantifier. *)
Definition least (min : nat) (max : option nat) : nat :=
  match max with
  | Some k => Nat.min min k
  | None => min
  end.

Definition cleared (inner : list nat) (x : MatchState) : MatchState :=
  {| endIndex := endIndex x; captures := clear_captures inner (captures x) |}.

Fixpoint Matches (r : Regex) (dir : Direction) (x y : MatchState) : Prop :=
  match r with
  | Empty => y = x
  | Chr invert atoms =>
      exists ch,
        read rer Input dir (endIndex x) = Some (ch, endIndex y)
        /\ class_matches unicode_letter rer invert atoms ch = true
        /\ captures y = captures x
  | Seq r1 r2 =>
      match dir with
      | Forward => exists z, Matches r1 dir x z /\ Matches r2 dir z y
      | Backward => exists z, Matches r2 dir x z /\ Matches r1 dir z y
      end
  | Alt r1 r2 => Matches r1 dir x y \/ Matches r2 dir x y
  | Quant min max _ r' =>
      exists n, (least min max <= n)%nat
        /\ iterate (fun a b => Matches r' dir (cleared (groups r') a) b) n x y
  | Group n r' =>
      exists z, Matches r' dir x z
        /\ y = {| endIndex := endIndex z;
                  captures := set_capture dir n (endIndex x) (endIndex z) (captures z) |}
  | Look ahead negative r' =>
      if negative then y = x
      else exists z, Matches r' (if ahead then Forward else Backward) x z
             /\ y = {| endIndex := endIndex x; captures := captures z |}
  | AssertStart => endIndex x = 0%nat /\ y = x
  | AssertEnd => endIndex x = length Input /\ y = x
  end.

(** A pattern that cannot match without reading the character [ch]. *)
Fixpoint requires (ch : Z) (r : Regex) : bool :=
  match r with
  | Chr false [CChar c] => c =? ch
  | Seq r1 r2 => requires ch r1 || requires ch r2
  | Alt r1 r2 => requires ch r1 && requires ch r2
  | Quant min max _ r' => (1 <=? least min max)%nat && requires ch r'
  | Group _ r' => requires ch r'
  | _ => false
  end.

End Denotation.

(** A character that only matches itself under flag i, and that is no half
    of a surrogate pair: read as a code unit or as a code point, it is
    the code unit itself. *)
Definition plain (ch : Z) : bool :=
  (0 <=? ch) && (ch <? 55296)
  && negb (((97 <=? ch) && (ch <=? 122)) || ((65 <=? ch) && (ch <=? 90))).

(** Three full stops in a row somewhere in the string. *)
Fixpoint three_full_stops (s : JSString) : bool :=
  match s with
  | a :: t =>
      match t with
      | b :: c :: _ =>
          ((a =? FULL_STOP) && (b =? FULL_STOP) && (c =? FULL_STOP))
          || three_full_stops t
      | _ => false
      end
  | [] => false
  end.

(** * Notions the statements are written with *)

(** ** Replace values *)

(** Captures made of characters that satisfy [P]. *)
Definition captures_in (P : Z -> Prop) (caps : list (option JSString)) : Prop :=
  Forall (fun o => from_option (Forall P) True o) caps.

(** A replace value whose results are made of the characters it is given. *)
Definition preserving (P : Z -> Prop) (replaceValue : Replacer) : Prop :=
  match replaceValue with
  | Template t => Forall P t
  | Computed f =>
      forall matched caps out,
        Forall P matched -> captures_in P caps ->
        f matched caps = Normal out -> Forall P out
  end.

(** A replace value that never throws. *)
Definition never_throws (replaceValue : Replacer) : Prop :=
  match replaceValue with
  | Template _ => True
  | Computed f => forall matched caps, exists out, f matched caps = Normal out
  end.

(** What replacing the character [ch] by [template] makes of one character. *)
Definition expand (ch : Z) (template : JSString) (c : Z) : JSString :=
  if c =? ch then template else [c].

Definition not_apostrophe (c : Z) : Prop := c <> APOSTROPHE.

(** ** The rule list of a language, without the store *)

(** Where [index] stands in [l], as [Array.prototype.indexOf] counts. *)
Fixpoint position (index : nat) (l : list nat) : option nat :=
  match l with
  | [] => None
  | i :: l' => if decide (i = index) then Some 0%nat else S <$> position index l'
  end.

(** The default rule at [index] with the replace value the language gives
    to that slot, if it gives one. *)
Definition override (values : list JSString) (index : nat) (rule : SubstitutionRule)
    : SubstitutionRule :=
  match position index overrideRuleIndices ≫= (values !!.) with
  | Some value => (fst rule, Template value)
  | None => rule
  end.

(** The rules [punctuationRulesForLanguage] is to return for a key: the
    default rules, overridden slot by slot, and then the additional rules
    of the language.  Lemma [resolution_resolved] below shows that this is
    what the array made in the store holds. *)
Definition resolved (key : string) : list SubstitutionRule :=
  imap (override (default [] (languageSpecificOverrides !! key))) defaultRules
  ++ omap (rule_at initial_store) (default [] (languageSpecificRules !! key)).

(** The default rules with four given templates in the overridable slots. *)
Definition overridden (dq sq ap hy : JSString) : list SubstitutionRule :=
  [(fst double_quoted, Template dq); n_idiom; (fst single_quoted, Template sq);
   double_primes; single_primes;
   (fst apostrophes, Template ap);
   ellipses; dash_separator; date_hyphens; figure_dashes; range_dash;
   (fst hyphens, Template hy)].

(** The template of a quotation rule: the first group between two marks. *)
Definition quoted (left : JSString) (right : JSString) : JSString :=
  left ++ u16 "$1" ++ right.

(** One turn of the loop of [transform], on a value that may already be an
    exception. *)
Definition then_rule (unicode_letter : Z -> bool) (value : Completion JSString)
    (rule : SubstitutionRule) : Completion JSString :=
  cbind value (fun v => substitute unicode_letter v rule).

(** The rules of [transformationRulesToPreserveMarkup] before and after
    [...punctuationRules]. *)
Definition protectRules : list SubstitutionRule :=
  [encode_link; encode_url; bold_in; italic_in].

Definition restoreRules : list SubstitutionRule :=
  [bold_out; italic_out; decode_url; decode_link].

(** ** Matches *)

(** Results from left to right, none starting before the one before it
    ends (or before [from]). *)
Fixpoint disjoint_from (from : nat) (results : list (nat * RegExp.MatchState)) : Prop :=
  match results with
  | [] => True
  | (position, y) :: rest =>
      (from <= position)%nat /\ disjoint_from (RegExp.endIndex y) rest
  end.

(** An end index that lies in the direction [dir] of another. *)
Definition ordered (dir : RegExp.Direction) (from to : nat) : Prop :=
  match dir with
  | RegExp.Forward => (from <= to)%nat
  | RegExp.Backward => (to <= from)%nat
  end.

(** How far a matcher can still move from a state. *)
Definition remaining (Input : JSString) (dir : RegExp.Direction) (x : RegExp.MatchState)
    : nat :=
  match dir with
  | RegExp.Forward => length Input - RegExp.endIndex x
  | RegExp.Backward => RegExp.endIndex x
  end.

(** A pattern that consumes nothing. *)
Definition zero_width (r : RegExp.Regex) : bool :=
  match r with
  | RegExp.Look _ _ _ | RegExp.AssertStart | RegExp.AssertEnd | RegExp.Empty => true
  | _ => false
  end.

(** A pattern whose every match starts by reading the character [ch]. *)
Fixpoint begins (ch : Z) (r : RegExp.Regex) : bool :=
  match r with
  | RegExp.Chr false [RegExp.CChar c] => c =? ch
  | RegExp.Seq r1 r2 => begins ch r1 || (zero_width r1 && begins ch r2)
  | RegExp.Alt r1 r2 => begins ch r1 && begins ch r2
  | RegExp.Quant min max _ r' => (1 <=? least min max)%nat && begins ch r'
  | RegExp.Group _ r' => begins ch r'
  | _ => false
  end.

(** A matcher that is only asked where the input holds [ch]. *)
Definition guarded (ch : Z) (Input : JSString)
    (m : nat -> option RegExp.MatchState) (i : nat) : option RegExp.MatchState :=
  match Input !! i with
  | Some c => if c =? ch then m i else None
  | None => None
  end.

(** The text does not hold the character. *)
Definition absent (ch : Z) (value : JSString) : bool :=
  forallb (fun c => negb (c =? ch)) value.

(** A rule that cannot match in a text: its pattern needs one of these
    characters, and the text does not hold it. *)
Definition inert (value : JSString) (rule : SubstitutionRule) : bool :=
  existsb (fun ch => plain ch && requires ch (RegExp.pattern (fst rule)) && absent ch value)
    [QUOTATION_MARK; APOSTROPHE; HYPHEN_MINUS; FULL_STOP; SPACE].

(** ** Global find and replace *)

(** With flag u, an index between the two halves of a surrogate pair. *)
Definition inside_pair (rer : RegExp.RegExp) (Input : JSString) (j : nat) : bool :=
  RegExp.unicode rer
  && match j with
     | O => false
     | S j' =>
         match Input !! j', Input !! j with
         | Some c, Some d => RegExp.is_lead c && RegExp.is_trail d
         | _, _ => false
         end
     end.

(** The indices where a search that starts at [from] looks for a match:
    [from], and every later index up to the end of the input that is not
    inside a pair. *)
Definition searched (rer : RegExp.RegExp) (Input : JSString) (from j : nat) : Prop :=
  (from <= j <= length Input)%nat /\ (j = from \/ inside_pair rer Input j = false).

(** Where the search goes on after a match from [i] to [e]: at its end,
    and one character further when the match is empty. *)
Definition search_after (rer : RegExp.RegExp) (Input : JSString) (i e : nat) : nat :=
  if (i <? e)%nat then e else RegExp.AdvanceStringIndex rer Input e.

(** [found] are all the matches of a search from [from], from left to
    right: each one is the match at the first searched index that has one,
    and the search for the next one starts where this one ends, so that no
    two overlap; after the last one no searched index has a match.  [m]
    gives the match of the pattern at an index. *)
Fixpoint all_matches (m : nat -> option RegExp.MatchState) (rer : RegExp.RegExp)
    (Input : JSString) (from : nat) (found : list (nat * RegExp.MatchState)) : Prop :=
  match found with
  | [] => forall j, searched rer Input from j -> m j = None
  | (i, y) :: rest =>
      searched rer Input from i
      /\ m i = Some y
      /\ (forall j, searched rer Input from j -> (j < i)%nat -> m j = None)
      /\ all_matches m rer Input (search_after rer Input i (RegExp.endIndex y)) rest
  end.

(** What a replace value makes of the match [y] at [i]: the template with
    its references filled in, or what the function returns for the matched
    text and the groups. *)
Definition replacement_of (str : JSString) (replaceValue : Replacer) (i : nat)
    (y : RegExp.MatchState) : Completion JSString :=
  match replaceValue with
  | Template t =>
      Normal (GetSubstitution (substring str i (RegExp.endIndex y)) str i
                (capture_strings str y) t)
  | Computed f => f (substring str i (RegExp.endIndex y)) (capture_strings str y)
  end.

(** [out] is the text from [from] on with every match of [found] replaced:
    the text up to the first match as it is, the replacement of the match,
    and the text after the match treated the same way. *)
Fixpoint replaced_from (str : JSString) (replaceValue : Replacer) (from : nat)
    (found : list (nat * RegExp.MatchState)) (out : JSString) : Prop :=
  match found with
  | [] => out = drop from str
  | (i, y) :: rest =>
      exists replacement tail,
        replacement_of str replaceValue i y = Normal replacement
        /\ replaced_from str replaceValue (RegExp.endIndex y) rest tail
        /\ out = substring str from i ++ replacement ++ tail
  end.

(** A global find and replace: the rule has flag g, and [out] is [value]
    with all the non-overlapping matches of its pattern replaced. *)
Definition replaces_all (unicode_letter : Z -> bool) (rule : SubstitutionRule)
    (value out : JSString) : Prop :=
  RegExp.global (fst rule) = true
  /\ exists found,
       all_matches (RegExp.match_at unicode_letter (fst rule) value) (fst rule) value
         0 found
       /\ replaced_from value (snd rule) 0 found out.

(** The rules as a pipeline: each is a global find and replace on what
    the rules before it made of the text. *)
Fixpoint applied_in_order (unicode_letter : Z -> bool) (rules : list SubstitutionRule)
    (value out : JSString) : Prop :=
  match rules with
  | [] => out = value
  | rule :: rest =>
      exists mid,
        replaces_all unicode_letter rule value mid
        /\ applied_in_order unicode_letter rest mid out
  end.

(** ** Digit groups *)

(** A digit group: one or more ASCII digits. *)
Definition digit_group (group : JSString) : Prop :=
  group <> [] /\ Forall (fun c => RegExp.is_digit c = true) group.

(** Groups joined by a separator. *)
Definition joined (separator : Z) (groups : list JSString) : JSString :=
  match groups with
  | [] => []
  | group :: rest => group ++ flat_map (fun g => separator :: g) rest
  end.

(** The part of the figure dash pattern that is repeated: the separator
    and a digit group. *)
Definition more_groups : RegExp.Regex :=
  RegExp.Group 1 (lit HYPHEN_MINUS <+> plus digit)%re.

(** Digit groups of the shape that the date rule matches as a whole: four
    digits, two digits, and at most one more group, of two digits. *)
Definition date_shaped (groups : list JSString) : Prop :=
  Forall digit_group groups
  /\ (length <$> groups = [4; 2]%nat \/ length <$> groups = [4; 2; 2]%nat).

(** ** The texts of the examples *)

(** Bonjour between two ASCII double quotes. *)
Definition bonjour : JSString := [QUOTATION_MARK] ++ u16 "Bonjour" ++ [QUOTATION_MARK].

Definition iso_date : JSString := u16 "1987-07-30".

Definition year_range : JSString := u16 "1989-90".

Definition example_target : JSString := u16 "http://example.com/a-b".

Definition example_link : JSString := u16 "[http://example.com/a-b|label]".

Definition hyphenated_label_link : JSString := u16 "[http://example.com/a-b|la-bel]".

(** A link and a plain URL whose last character is U+65E5, a character
    above U+00FF. *)
Definition non_latin_link : JSString :=
  u16 "[http://example.com/" ++ [26085] ++ u16 "|label]".

Definition non_latin_url : JSString := u16 "see http://example.com/" ++ [26085].

(** * The page: input fields, language menus, links *)

(** ** The input fields of the page

    What the script does to the page goes through a few members of the
    selected elements: it reads and writes [value], removes a token from
    and adds one to [classList], and dispatches events.  An element is
    modelled by these members.  Its value is a plain string property: what
    the host does to the values of some kinds of input (stripping line
    breaks, for one) is not modelled.  The listeners of the page are not
    part of the script, so a dispatched event is only recorded. *)

Module DOM.

(** What a call on the page throws: an error as the calls of the rules
    throw them, or the SyntaxError of a token list. *)
Inductive Exception := Raised (e : Error) | SyntaxError.

Inductive Result (A : Type) :=
| Returned (a : A)
| Threw (x : Exception).
Arguments Returned {A} a.
Arguments Threw {A} x.

Record Event := { type : string; bubbles : bool }.

Record HTMLInputElement := {
  value : JSString;
  classList : list string;          (* a DOMTokenList: an ordered set *)
  dispatched : list Event           (* the events dispatched so far, oldest first *)
}.

(** ASCII whitespace: tab, line feed, form feed, carriage return, space. *)
Definition is_ascii_whitespace (c : Ascii.ascii) : bool :=
  let n := Ascii.nat_of_ascii c in
  ((n =? 9) || (n =? 10) || (n =? 12) || (n =? 13) || (n =? 32))%nat.

Fixpoint has_whitespace (s : string) : bool :=
  match s with
  | EmptyString => false
  | String c s' => is_ascii_whitespace c || has_whitespace s'
  end.

(** What [add] and [remove] of a DOMTokenList throw on a token: a
    SyntaxError on the empty string, an InvalidCharacterError on a token
    with ASCII whitespace. *)
Definition token_exception (token : string) : option Exception :=
  match token with
  | EmptyString => Some SyntaxError
  | _ => if has_whitespace token then Some (Raised InvalidCharacterError) else None
  end.

(** The list without the token, and with it: a token the list holds is
    not added. *)
Definition without_token (token : string) (input : HTMLInputElement)
    : HTMLInputElement :=
  {| value := value input;
     classList := filter (fun t => t <> token) (classList input);
     dispatched := dispatched input |}.

Definition with_token (token : string) (input : HTMLInputElement)
    : HTMLInputElement :=
  {| value := value input;
     classList := if bool_decide (token ∈ classList input) then classList input
                  else classList input ++ [token];
     dispatched := dispatched input |}.

(** [input.classList.remove(token)] *)
Definition classList_remove (token : string) (input : HTMLInputElement)
    : Result HTMLInputElement :=
  match token_exception token with
  | Some x => Threw x
  | None => Returned (without_token token input)
  end.

(** [input.classList.add(token)] *)
Definition classList_add (token : string) (input : HTMLInputElement)
    : Result HTMLInputElement :=
  match token_exception token with
  | Some x => Threw x
  | None => Returned (with_token token input)
  end.

(** [input.value = v], and the call of the native setter of [value]. *)
Definition set_value (v : JSString) (input : HTMLInputElement) : HTMLInputElement :=
  {| value := v; classList := classList input; dispatched := dispatched input |}.

(** [input.dispatchEvent(event)] *)
Definition dispatchEvent (event : Event) (input : HTMLInputElement) : HTMLInputElement :=
  {| value := value input; classList := classList input;
     dispatched := dispatched input ++ [event] |}.

(** [setReactInputValue(input, value)] *)
Definition setReactInputValue (input : HTMLInputElement) (v : JSString)
    : HTMLInputElement :=
  dispatchEvent {| type := "input"; bubbles := true |} (set_value v input).

(** The options object of [transformInputValues] and
    [guessUnicodePunctuation]; [None] is a property that is not given. *)
Record Options := {
  language : option string;
  isReactInput : option bool;
  event : option Event;
  highlightClass : option string
}.

(** [{}] *)
Definition no_options : Options :=
  {| language := None; isReactInput := None; event := None; highlightClass := None |}.

Definition defaultHighlightClass : string := "content-changed".

Section Inputs.
Variable unicode_letter : Z -> bool.

(** The callback of the [forEach] of [transformInputValues]: the element
    as the callback leaves it, and how the callback ends. *)
Definition transformInputValue (h : Store) (substitutionRules : loc)
    (isReactInput : bool) (event : Event) (highlightClass : string)
    (input : HTMLInputElement) : HTMLInputElement * Result unit :=
  match classList_remove highlightClass input with
  | Threw x => (input, Threw x)
  | Returned input =>
      match value input with
      | [] => (input, Returned tt)
      | _ =>
          match transform unicode_letter h (value input) substitutionRules with
          | Throw e => (input, Threw (Raised e))
          | Normal v =>
              if bool_decide (v <> value input) then
                let input :=
                  if isReactInput then setReactInputValue input v
                  else dispatchEvent event (set_value v input) in
                match classList_add highlightClass input with
                | Threw x => (input, Threw x)
                | Returned input => (input, Returned tt)
                end
              else (input, Returned tt)
          end
      end
  end.

(** [elements.forEach(callback)]: an exception ends the loop, and the
    elements after the one it came from stay as they are. *)
Fixpoint forEach (callback : HTMLInputElement -> HTMLInputElement * Result unit)
    (elements : list HTMLInputElement) : list HTMLInputElement * Result unit :=
  match elements with
  | [] => ([], Returned tt)
  | input :: rest =>
      match callback input with
      | (input', Returned _) =>
          let (rest', result) := forEach callback rest in
          (input' :: rest', result)
      | (input', Threw x) => (input' :: rest, Threw x)
      end
  end.

(** [transformInputValues(inputSelector, substitutionRules, options)];
    [inputs] are the elements [qsa(inputSelector)] selects, in document
    order. *)
Definition transformInputValues (h : Store) (inputs : list HTMLInputElement)
    (substitutionRules : loc) (options : option Options)
    : list HTMLInputElement * Result unit :=
  let options := default no_options options in
  forEach
    (transformInputValue h substitutionRules
       (default false (isReactInput options))
       (default {| type := "change"; bubbles := false |} (event options))
       (default defaultHighlightClass (highlightClass options)))
    inputs.

(** [guessUnicodePunctuation(inputSelectors, options)]; [inputs] are the
    elements [qsa(inputSelectors.join())] selects.  The rules are made
    before [transformInputValues] is called. *)
Definition guessUnicodePunctuation (h : Store) (inputs : list HTMLInputElement)
    (options : option Options)
    : Store * list HTMLInputElement * Result unit :=
  let options := default no_options options in
  match punctuationRulesForLanguage (language options) h with
  | Normal (rules, h') =>
      let (inputs', result) := transformInputValues h' inputs rules (Some options) in
      (h', inputs', result)
  | Throw e => (h, inputs, Threw (Raised e))
  end.

End Inputs.
End DOM.

(** What [transformInputValues] has done to an element it is through with:
    the value is what the rules make of it, the element is highlighted if
    and only if its value changed, one event was dispatched at it in that
    case and none otherwise, and its other class tokens are as before. *)
Definition processed (unicode_letter : Z -> bool) (h : Store) (substitutionRules : loc)
    (isReactInput : bool) (event : DOM.Event) (highlightClass : string)
    (input output : DOM.HTMLInputElement) : Prop :=
  (match DOM.value input with
   | [] => DOM.value output = []
   | _ => transform unicode_letter h (DOM.value input) substitutionRules
          = Normal (DOM.value output)
   end)
  /\ (highlightClass ∈ DOM.classList output <-> DOM.value output <> DOM.value input)
  /\ (forall token, token <> highlightClass ->
        token ∈ DOM.classList output <-> token ∈ DOM.classList input)
  /\ DOM.dispatched output
     = DOM.dispatched input
       ++ (if bool_decide (DOM.value output <> DOM.value input)
           then [if isReactInput then {| DOM.type := "input"; DOM.bubbles := true |}
                 else event]
           else []).

(** ** The language of the page

    The script reads the language off three select elements of the page,
    found by their ids; a select element is modelled by the values of its
    selected options, in document order. *)

Record HTMLSelectElement := { selectedOptions : list string }.

(** The select elements [dom('language')], [dom('script')] and
    [dom('id-edit-alias.locale')]; [None] where the page has no such
    element. *)
Record Page := {
  language_select : option HTMLSelectElement;
  script_select : option HTMLSelectElement;
  locale_select : option HTMLSelectElement
}.

(** [element?.selectedOptions[0].value]: [undefined] without an element, a
    TypeError when no option is selected. *)
Definition selected_value (element : option HTMLSelectElement)
    : Completion (option string) :=
  match element with
  | None => Normal None
  | Some select =>
      match selectedOptions select with
      | [] => Throw TypeError
      | option :: _ => Normal (Some option)
      end
  end.

Definition frequentLanguageIDs : gmap string string :=
  list_to_map
    [("284", "[Multiple languages]"); ("18", "Arabic"); ("76", "Chinese");
     ("113", "Dutch"); ("120", "English"); ("131", "Finnish"); ("134", "French");
     ("145", "German"); ("159", "Greek"); ("167", "Hebrew"); ("171", "Hindi");
     ("195", "Italian"); ("198", "Japanese"); ("224", "Korean");
     ("309", "Norwegian"); ("338", "Polish"); ("340", "Portuguese");
     ("353", "Russian"); ("393", "Spanish"); ("403", "Swedish");
     ("433", "Turkish")]%string.

Definition languageCodes : gmap string string :=
  list_to_map
    [("Afrikaans", "af"); ("Azerbaijani", "az"); ("Albanian", "sq"); ("Arabic", "ar");
     ("Armenian", "hy"); ("Bengali/Bangla", "bn"); ("Basque", "eu");
     ("Belorussian", "be"); ("Bosnian", "bs"); ("Bulgarian", "bg");
     ("Cantonese", "zh_yue"); ("Catalan", "ca"); ("Chinese", "zh"); ("Croatian", "hr");
     ("Czech", "cs"); ("Danish", "da"); ("Dutch", "nl"); ("English", "en");
     ("Esperanto", "eo"); ("Estonian", "et"); ("Finnish", "fi"); ("French", "fr");
     ("German", "de"); ("Greek", "el"); ("Hebrew", "he"); ("Hindi", "hi");
     ("Hungarian", "hu"); ("Icelandic", "is"); ("Indonesian", "id"); ("Irish", "ga");
     ("Italian", "it"); ("Japanese", "ja"); ("Javanese", "jv"); ("Kazakh", "kk");
     ("Khmer (Central)", "km"); ("Korean", "ko"); ("Latvian", "lv");
     ("Lithuanian", "lt"); ("Macedonian", "mk"); ("Malay", "ms"); ("Malayam", "ml");
     ("Nepali", "ne"); ("Norwegian Bokmål", "nb"); ("Norwegian Nynorsk", "nn");
     ("Persian (Farsi)", "fa"); ("Polish", "pl"); ("Portuguese", "pt");
     ("Punjabi", "pa"); ("Romanian", "ro"); ("Russian", "ru"); ("Serbian", "sr");
     ("Serbo-Croatian", "sh"); ("Slovakian", "sk"); ("Slovenian", "sl");
     ("Spanish", "es"); ("Swahili", "sw"); ("Swedish", "sv"); ("Thai", "th");
     ("Turkish", "tr"); ("Urdu", "ur"); ("Ukrainian", "uk"); ("Uzbek", "uz");
     ("Vietnamese", "vi"); ("Welsh (Cymric)", "cy")]%string.

(** The string of the value [Object.prototype] holds under [key], as V8
    prints it: the key such a value makes when it is used as one. *)
Definition inherited_to_string (key : string) : string :=
  if String.eqb key "__proto__" then "[object Object]"
  else "function " +:+ (if String.eqb key "constructor" then "Object" else key)
       +:+ "() { [native code] }".

(** The property key a looked up value makes. *)
Definition value_key (key : string) (value : Property string) : string :=
  match value with
  | Own s => s
  | Undefined => "undefined"
  | Inherited => inherited_to_string key
  end.

(** [detectReleaseLanguage()] *)
Definition detectReleaseLanguage (page : Page) : Completion (Property string) :=
  cbind (selected_value (language_select page)) (fun languageID =>
    match languageID with
    | Some (String _ _ as id) =>
        Normal (Get languageCodes (value_key id (Get frequentLanguageIDs id)))
    | _ => Normal Undefined
    end).

Module StringPrototype.
(** [String.prototype.split] with a separator of one character. *)
Fixpoint split (separator : Ascii.ascii) (s : string) : list string :=
  match s with
  | EmptyString => [EmptyString]
  | String c s' =>
      if Ascii.eqb c separator then EmptyString :: split separator s'
      else match split separator s' with
           | piece :: pieces => String c piece :: pieces
           | [] => [String c EmptyString]
           end
  end.
End StringPrototype.

(** The underscore, U+005F. *)
Definition LOW_LINE : Ascii.ascii := Ascii.ascii_of_nat 95.

(** [detectAliasLanguage()]; [None] is [undefined]. *)
Definition detectAliasLanguage (page : Page) : Completion (option string) :=
  cbind (selected_value (locale_select page)) (fun locale =>
    match locale with
    | Some (String _ _ as locale) => Normal (head (StringPrototype.split LOW_LINE locale))
    | _ => Normal None
    end).

(** [detectSupportedReleaseLanguage()] *)
Definition detectSupportedReleaseLanguage (page : Page) : Completion (Property string) :=
  cbind (detectReleaseLanguage page) (fun languageCode =>
    match languageCode with
    | Own code =>
        if String.eqb code "he" then
          cbind (selected_value (script_select page)) (fun scriptID =>
            match scriptID with
            | Some id => if String.eqb id "11" then Normal languageCode
                         else Normal Undefined
            | None => Normal Undefined
            end)
        else Normal languageCode
    | _ => Normal languageCode
    end).

(** The codes of the frequent languages: [languageCodes] after
    [frequentLanguageIDs], where both have an entry. *)
Definition releaseLanguageCodes : gmap string string :=
  list_to_map
    [("18", "ar"); ("76", "zh"); ("113", "nl"); ("120", "en"); ("131", "fi");
     ("134", "fr"); ("145", "de"); ("159", "el"); ("167", "he"); ("171", "hi");
     ("195", "it"); ("198", "ja"); ("224", "ko"); ("338", "pl"); ("340", "pt");
     ("353", "ru"); ("393", "es"); ("403", "sv"); ("433", "tr")]%string.

(** The value of the first selected option of a select element, if there
    is one. *)
Definition selected (element : option HTMLSelectElement) : option string :=
  element ≫= (fun select => head (selectedOptions select)).

(** The rules of the release editor by what is selected: those of French,
    German and Japanese, those of Hebrew in Hebrew script, and the default
    rules. *)
Definition releaseRules (page : Page) : list SubstitutionRule :=
  match selected (language_select page) with
  | Some id =>
      if String.eqb id "134" then resolved "fr"
      else if String.eqb id "145" then resolved "de"
      else if String.eqb id "198" then resolved "ja"
      else if String.eqb id "167" then
        match selected (script_select page) with
        | Some script => if String.eqb script "11" then resolved "he" else defaultRules
        | None => defaultRules
        end
      else defaultRules
  | None => defaultRules
  end.

(** A string without the character. *)
Fixpoint lacks (c : Ascii.ascii) (s : string) : bool :=
  match s with
  | EmptyString => true
  | String c' s' => negb (Ascii.eqb c' c) && lacks c s'
  end.

(** The replacement of one result, as [assemble] makes it. *)
Definition replacement (replaceValue : Replacer) (matched str : JSString)
    (position : nat) (caps : list (option JSString)) : Completion JSString :=
  match replaceValue with
  | Template t => Normal (GetSubstitution matched str position caps t)
  | Computed f => f matched caps
  end.

(** A code unit that [btoa] takes: a character up to U+00FF. *)
Definition latin1 (c : Z) : Prop := 0 <= c <= 255.

(** A character that a class of a pattern accepts. *)
Definition accepts (r : RegExp.Regex) (c : Z) : bool :=
  match r with
  | RegExp.Chr invert atoms =>
      RegExp.class_matches (fun _ => false) (g r) invert atoms c
  | _ => false
  end.

(** The six-bit groups of a sequence of bytes; the last group of a
    sequence that does not end on a group boundary is filled with zero
    bits. *)
Fixpoint sextets (bytes : list Z) : list Z :=
  match bytes with
  | [] => []
  | [a] => [Z.shiftr a 2; Z.shiftl (Z.land a 3) 4]
  | [a; b] =>
      [Z.shiftr a 2;
       Z.lor (Z.shiftl (Z.land a 3) 4) (Z.shiftr b 4);
       Z.shiftl (Z.land b 15) 2]
  | a :: b :: c :: rest =>
      Z.shiftr a 2
      :: Z.lor (Z.shiftl (Z.land a 3) 4) (Z.shiftr b 4)
      :: Z.lor (Z.shiftl (Z.land b 15) 2) (Z.shiftr c 6)
      :: Z.land c 63
      :: sextets rest
  end.

(** The padding of the Base64 form of a sequence of bytes. *)
Definition padding (bytes : list Z) : JSString :=
  match (length bytes mod 3)%nat with
  | 1%nat => [61; 61]
  | 2%nat => [61]
  | _ => []
  end.

(** A six-bit group. *)
Definition sextet (n : Z) : Prop := 0 <= n < 64.

(** Exhaustive checks over the bytes. *)
Definition all_below (n : nat) (p : Z -> bool) : bool :=
  forallb (fun k => p (Z.of_nat k)) (seq 0 n).

(** A pattern that cannot match without the character [ch] being read,
    by the pattern or by a lookaround that has to match. *)
Fixpoint demands (ch : Z) (r : RegExp.Regex) : bool :=
  match r with
  | RegExp.Chr false [RegExp.CChar c] => c =? ch
  | RegExp.Seq r1 r2 => demands ch r1 || demands ch r2
  | RegExp.Alt r1 r2 => demands ch r1 && demands ch r2
  | RegExp.Quant min max _ r' => (1 <=? least min max)%nat && demands ch r'
  | RegExp.Group _ r' => demands ch r'
  | RegExp.Look _ false r' => demands ch r'
  | _ => false
  end.

(** A character that is none of the two that links and URLs are found by. *)
Definition not_link (c : Z) : Prop := c <> LEFT_BRACKET /\ c <> SOLIDUS.

(** A character that is none of the three the restoring rules look for. *)
Definition not_markup (c : Z) : Prop :=
  c <> LEFT_BRACKET /\ c <> SOLIDUS /\ c <> LESS_THAN.

(** A character of an ordinary word or phrase: none of the four ASCII
    marks the rules look for, no line terminator, and no first half of a
    surrogate pair. *)
Definition ordinary (c : Z) : bool :=
  negb (c =? QUOTATION_MARK) && negb (c =? APOSTROPHE) && negb (c =? HYPHEN_MINUS)
  && negb (c =? FULL_STOP) && negb (RegExp.is_line_terminator c)
  && negb (RegExp.is_lead c).

(** The marks a language puts around double-quoted text. *)
Definition quotation_marks (key : string) : JSString * JSString :=
  if String.eqb key "fr" then ([LEFT_GUILLEMET; SPACE], [SPACE; RIGHT_GUILLEMET])
  else if String.eqb key "de" then ([LOW_DOUBLE_QUOTE], [LEFT_DOUBLE_QUOTE])
  else if String.eqb key "he" then ([RIGHT_DOUBLE_QUOTE], [RIGHT_DOUBLE_QUOTE])
  else ([LEFT_DOUBLE_QUOTE], [RIGHT_DOUBLE_QUOTE]).

(** A character that is none of the four ASCII marks the rules look for:
    double quote, apostrophe, hyphen-minus and full stop. *)
Definition unmarked (c : Z) : bool :=
  negb (c =? QUOTATION_MARK) && negb (c =? APOSTROPHE)
  && negb (c =? HYPHEN_MINUS) && negb (c =? FULL_STOP).

(** A full stop at index [i] of the text. *)
Definition stop_at (s : JSString) (i : nat) : bool :=
  match s !! i with
  | Some c => c =? FULL_STOP
  | None => false
  end.

(** * Lemmas *)

(** ** The matcher and what a match says *)

Section Soundness.
Variable unicode_letter : Z -> bool.
Variable rer : RegExp.RegExp.
Variable Input : JSString.
Import RegExp.

Lemma RepeatMatcher_sound
    (m : MatchState -> Continuation -> option MatchState)
    (R : MatchState -> MatchState -> Prop) inner greedy :
  (forall x d z, m x d = Some z -> exists y, R x y /\ d y = Some z) ->
  forall fuel min max x c z,
    RepeatMatcher m inner greedy fuel min max x c = Some z ->
    exists n y, (least min max <= n)%nat
      /\ iterate (fun a b => R (cleared inner a) b) n x y
      /\ c y = Some z.
Proof.
  intros Hm. induction fuel as [|fuel IH]; intros min max x c z H; [discriminate|].
  simpl in H.
  assert (Hstop : c x = Some z -> (least min max <= 0)%nat ->
            exists n y, (least min max <= n)%nat
              /\ iterate (fun a b => R (cleared inner a) b) n x y /\ c y = Some z).
  { intros Hc Hl. exists 0%nat, x. simpl. auto. }
  assert (Hstep : forall max',
            least (pred min) (pred <$> max') = pred (least min max') ->
            max = max' ->
            (let d := fun y =>
               if Nat.eqb min 0 && Nat.eqb (endIndex y) (endIndex x) then None
               else RepeatMatcher m inner greedy fuel (pred min) (pred <$> max') y c in
             m {| endIndex := endIndex x; captures := clear_captures inner (captures x) |} d
             = Some z) ->
            exists n y, (least min max <= n)%nat
              /\ iterate (fun a b => R (cleared inner a) b) n x y /\ c y = Some z).
  { intros max' Hl -> Hd. apply Hm in Hd as (y1 & HR & Hd).
    destruct (Nat.eqb min 0 && Nat.eqb (endIndex y1) (endIndex x)); [discriminate|].
    apply IH in Hd as (n & y & Hn & Hit & Hc).
    exists (S n), y. split; [rewrite Hl in Hn; lia|]. split; [|done].
    simpl. exists y1. split; [exact HR | exact Hit]. }
  destruct max as [[|k]|].
  - apply Hstop; [done | unfold least; lia].
  - assert (Hl : least (pred min) (pred <$> Some (S k)) = pred (least min (Some (S k)))).
    { simpl. lia. }
    destruct (Nat.eqb min 0) eqn:Hmin; simpl in H.
    + apply Nat.eqb_eq in Hmin. subst min.
      destruct greedy.
      * destruct (m _ _) eqn:Hd in H.
        -- inversion H; subst. eapply Hstep; eauto.
        -- apply Hstop; [done | simpl; lia].
      * destruct (c x) eqn:Hc in H.
        -- inversion H; subst. apply Hstop; [done | simpl; lia].
        -- eapply Hstep; eauto.
    + eapply Hstep; eauto.
  - assert (Hl : least (pred min) (pred <$> None) = pred (least min None)) by done.
    destruct (Nat.eqb min 0) eqn:Hmin; simpl in H.
    + apply Nat.eqb_eq in Hmin. subst min.
      destruct greedy.
      * destruct (m _ _) eqn:Hd in H.
        -- inversion H; subst. eapply Hstep; eauto.
        -- apply Hstop; [done | simpl; lia].
      * destruct (c x) eqn:Hc in H.
        -- inversion H; subst. apply Hstop; [done | simpl; lia].
        -- eapply Hstep; eauto.
    + eapply Hstep; eauto.
Qed.

Lemma matcher_sound r :
  forall dir x c z,
    matcher unicode_letter rer Input r dir x c = Some z ->
    exists y, Matches unicode_letter rer Input r dir x y /\ c y = Some z.
Proof.
  induction r as [|invert atoms|r1 IH1 r2 IH2|r1 IH1 r2 IH2|min max greedy r IH
                  |n r IH|ahead negative r IH| |]; intros dir x c z H; simpl in H.
  - exists x. done.
  - destruct (read rer Input dir (endIndex x)) as [[ch e]|] eqn:Hr; [|discriminate].
    destruct (class_matches _ _ _ _ _) eqn:Hc; [|discriminate].
    eexists. split; [|exact H]. simpl. exists ch. done.
  - destruct dir.
    + apply IH1 in H as (y1 & H1 & H). apply IH2 in H as (y & H2 & H).
      exists y. split; [|done]. simpl. eauto.
    + apply IH2 in H as (y1 & H1 & H). apply IH1 in H as (y & H2 & H).
      exists y. split; [|done]. simpl. eauto.
  - destruct (matcher _ _ _ r1 dir x c) eqn:H1.
    + inversion H; subst. apply IH1 in H1 as (y & ? & ?). exists y. simpl. auto.
    + apply IH2 in H as (y & ? & ?). exists y. simpl. auto.
  - eapply RepeatMatcher_sound in H as (n & y & Hn & Hit & Hc); [|intros; eapply IH; eauto].
    exists y. split; [|done]. simpl. eauto.
  - apply IH in H as (y & Hy & H). eexists. split; [|exact H]. simpl. eauto.
  - destruct (matcher _ _ _ r _ x Some) eqn:H1.
    + destruct negative; [discriminate|].
      apply IH in H1 as (y & Hy & Heq). inversion Heq; subst.
      eexists. split; [|exact H]. simpl. eauto.
    + destruct negative; [|discriminate]. exists x. done.
  - destruct (Nat.eqb (endIndex x) 0) eqn:He; [|discriminate].
    apply Nat.eqb_eq in He. exists x. done.
  - destruct (Nat.eqb (endIndex x) (length Input)) eqn:He; [|discriminate].
    apply Nat.eqb_eq in He. exists x. done.
Qed.
End Soundness.

(** ** Patterns that need a character the text does not hold *)

Section Requires.
Variable unicode_letter : Z -> bool.
Variable rer : RegExp.RegExp.
Variable Input : JSString.
Import RegExp.

Lemma iterate_first (R : MatchState -> MatchState -> Prop) n x y :
  (1 <= n)%nat -> iterate R n x y -> exists z, R x z.
Proof. destruct n; [lia|]. intros _ (z & ? & _). eauto. Qed.

Lemma Matches_requires ch r :
  requires ch r = true ->
  forall dir x y,
    Matches unicode_letter rer Input r dir x y ->
    exists e ch' e',
      read rer Input dir e = Some (ch', e')
      /\ canonicalize rer ch' = canonicalize rer ch.
Proof.
  induction r as [|invert atoms|r1 IH1 r2 IH2|r1 IH1 r2 IH2|min max greedy r IH
                  |n r IH|ahead negative r IH| |]; simpl; intros Hreq dir x y H;
    try discriminate.
  - destruct invert; [discriminate|].
    destruct atoms as [|[c| | | | | |] [|]]; try discriminate.
    apply Z.eqb_eq in Hreq. subst c.
    destruct H as (ch' & Hr & Hc & _).
    exists (endIndex x), ch', (endIndex y). split; [done|].
    unfold class_matches in Hc. simpl in Hc.
    rewrite orb_false_r in Hc. by apply Z.eqb_eq in Hc.
  - apply orb_true_iff in Hreq.
    destruct dir; destruct H as (z & H1 & H2); destruct Hreq; eauto.
  - apply andb_true_iff in Hreq as [? ?]. destruct H; eauto.
  - apply andb_true_iff in Hreq as [Hl ?].
    destruct H as (k & Hk & Hit).
    assert (1 <= least min max)%nat by (destruct (least min max); [discriminate | lia]).
    apply iterate_first in Hit as (z & Hz); [|lia]. eauto.
  - destruct H as (z & ? & _). eauto.
Qed.

Lemma code_point_astral c d :
  is_lead c = true -> is_trail d = true -> 65536 <= code_point c d.
Proof. unfold is_lead, is_trail, code_point. lia. Qed.

Lemma read_forward_cases e ch e' :
  read_forward rer Input e = Some (ch, e') ->
  ch ∈ Input \/ 65536 <= ch.
Proof.
  unfold read_forward. intros H.
  destruct (Input !! e) as [c|] eqn:Hc; [|discriminate].
  assert (c ∈ Input) by (eapply list_elem_of_lookup_2; eauto).
  destruct (Input !! S e) as [d|]; [|inversion H; subst; auto].
  destruct (unicode rer && is_lead c && is_trail d) eqn:Hp;
    inversion H; subst; auto.
  apply andb_true_iff in Hp as [Hp ?]. apply andb_true_iff in Hp as [_ ?].
  right. by apply code_point_astral.
Qed.

Lemma read_backward_cases e ch e' :
  read_backward rer Input e = Some (ch, e') ->
  ch ∈ Input \/ 65536 <= ch.
Proof.
  unfold read_backward. intros H.
  destruct e as [|e1]; [discriminate|].
  destruct (Input !! e1) as [d|] eqn:Hd; [|discriminate].
  assert (d ∈ Input) by (eapply list_elem_of_lookup_2; eauto).
  destruct e1 as [|e2]; [inversion H; subst; auto|].
  destruct (Input !! e2) as [c|]; [|inversion H; subst; auto].
  destruct (unicode rer && is_lead c && is_trail d) eqn:Hp;
    inversion H; subst; auto.
  apply andb_true_iff in Hp as [Hp ?]. apply andb_true_iff in Hp as [_ ?].
  right. by apply code_point_astral.
Qed.

Lemma read_cases dir e ch e' :
  read rer Input dir e = Some (ch, e') -> ch ∈ Input \/ 65536 <= ch.
Proof. destruct dir; [apply read_forward_cases | apply read_backward_cases]. Qed.

Lemma canonicalize_plain ch ch' :
  plain ch = true -> canonicalize rer ch' = canonicalize rer ch -> ch' = ch.
Proof.
  unfold plain, canonicalize. intros Hp.
  destruct (ignoreCase rer); simpl;
    repeat match goal with
           | |- context [if ?b then _ else _] => destruct b eqn:?
           end; lia.
Qed.

(** A pattern that requires a character the input does not hold matches
    nowhere. *)
Lemma requires_no_match ch :
  requires ch (pattern rer) = true -> plain ch = true -> ch ∉ Input ->
  forall i, match_at unicode_letter rer Input i = None.
Proof.
  intros Hreq Hp Hnot i. unfold match_at.
  destruct (matcher _ _ _ _ _ _ _) as [z|] eqn:Hm; [|done].
  apply matcher_sound in Hm as (y & Hy & _).
  eapply Matches_requires in Hy as (e & ch' & e' & Hr & Hc); [|done].
  apply canonicalize_plain in Hc; [|done]. subst ch'.
  apply read_cases in Hr as [?|?]; [done|].
  unfold plain in Hp. lia.
Qed.

Lemma exec_no_match (m : nat -> option MatchState) :
  (forall i, m i = None) ->
  forall n i, exec rer Input m n i = None.
Proof.
  intros Hno. induction n as [|n IH]; intros i; simpl;
    destruct (length Input <? i)%nat; try done; rewrite Hno; auto.
Qed.

Lemma results_no_match (m : nat -> option MatchState) :
  (forall i, m i = None) ->
  forall n i, results rer Input m n i = [].
Proof. intros Hno n i. destruct n; simpl; by rewrite exec_no_match. Qed.

End Requires.

Section ReplaceFacts.
Variable unicode_letter : Z -> bool.

Lemma replace_no_match str searchValue replaceValue :
  (forall i, RegExp.match_at unicode_letter searchValue str i = None) ->
  replace unicode_letter str searchValue replaceValue = Normal str.
Proof.
  intros Hno. unfold replace. rewrite results_no_match; [|done].
  simpl. by rewrite drop_0.
Qed.

Lemma substitute_requires ch str rule :
  requires ch (RegExp.pattern (fst rule)) = true -> plain ch = true ->
  ch ∉ str ->
  substitute unicode_letter str rule = Normal str.
Proof.
  intros. apply replace_no_match. by eapply requires_no_match.
Qed.
End ReplaceFacts.

(** The ellipsis rule needs three full stops in a row. *)
Section Ellipsis.
Variable unicode_letter : Z -> bool.
Variable Input : JSString.
Import RegExp.

Lemma read_forward_unit rer e ch e' :
  unicode rer = false ->
  read_forward rer Input e = Some (ch, e') -> Input !! e = Some ch /\ e' = S e.
Proof.
  unfold read_forward. intros -> H.
  destruct (Input !! e) as [c|]; [|discriminate].
  destruct (Input !! S e); simpl in H; by inversion H.
Qed.

Lemma Matches_lit rer c x y :
  unicode rer = false -> ignoreCase rer = false ->
  Matches unicode_letter rer Input (lit c) Forward x y ->
  Input !! endIndex x = Some c /\ endIndex y = S (endIndex x)
  /\ captures y = captures x.
Proof.
  intros Hu Hi (ch & Hr & Hc & Hcap). simpl in Hr.
  apply read_forward_unit in Hr as [Hr ->]; [|done].
  unfold class_matches in Hc. simpl in Hc. unfold canonicalize in Hc.
  rewrite Hi in Hc. simpl in Hc. rewrite orb_false_r in Hc. apply Z.eqb_eq in Hc. by subst.
Qed.

Lemma three_full_stops_lookup (s : JSString) i :
  s !! i = Some FULL_STOP -> s !! S i = Some FULL_STOP ->
  s !! S (S i) = Some FULL_STOP -> three_full_stops s = true.
Proof.
  revert i. induction s as [|a s IH]; intros i H0 H1 H2; [done|].
  destruct i as [|i].
  - destruct s as [|b [|c s]]; try done.
    simpl in *. inversion H0; inversion H1; inversion H2; subst. done.
  - simpl in H0, H1, H2. specialize (IH i H0 H1 H2).
    destruct s as [|b [|c s]]; try done.
    change (three_full_stops (a :: b :: c :: s))
      with ((a =? FULL_STOP) && (b =? FULL_STOP) && (c =? FULL_STOP)
            || three_full_stops (b :: c :: s)).
    rewrite IH. apply orb_true_r.
Qed.

Lemma ellipses_no_match :
  three_full_stops Input = false ->
  forall i, match_at unicode_letter (fst ellipses) Input i = None.
Proof.
  intros Hno i. unfold match_at.
  destruct (matcher _ _ _ _ _ _ _) as [z|] eqn:Hm; [|done].
  apply matcher_sound in Hm as (y & Hy & _).
  simpl in Hy. destruct Hy as (z1 & -> & z2 & (n & Hn & Hit) & _).
  simpl in Hn.
  destruct n as [|[|[|n]]]; try lia.
  destruct Hit as (a & Ha & b & Hb & c & Hc & _).
  apply Matches_lit in Ha as (Ha & Hea & _); [|done..].
  apply Matches_lit in Hb as (Hb & Heb & _); [|done..].
  apply Matches_lit in Hc as (Hc & _ & _); [|done..].
  simpl in *. rewrite Heb, Hea in Hc. rewrite Hea in Hb.
  assert (three_full_stops Input = true)
    by (apply (three_full_stops_lookup _ i); assumption).
  congruence.
Qed.
End Ellipsis.

Lemma rules_at_punctuationRules :
  rules_at initial_store punctuationRules = Some defaultRules.
Proof. reflexivity. Qed.

(** ** The search for the next match *)

Section ExecFacts.
Variable rer : RegExp.RegExp.
Variable Input : JSString.
Variable m : nat -> option RegExp.MatchState.
Import RegExp.

Lemma AdvanceStringIndex_gt i : (i < AdvanceStringIndex rer Input i)%nat.
Proof.
  unfold AdvanceStringIndex, read_forward.
  destruct (Input !! i); [|lia]. destruct (Input !! S i); [|lia].
  destruct (_ && _); lia.
Qed.

Lemma exec_beyond n i :
  (length Input < i)%nat -> exec rer Input m n i = None.
Proof.
  intros H. apply Nat.ltb_lt in H. destruct n; simpl; by rewrite H.
Qed.

(** The bound on the indices to try does not matter once it covers the
    rest of the input. *)
Lemma exec_fuel n :
  forall n' i, (length Input - i <= n)%nat -> (length Input - i <= n')%nat ->
    exec rer Input m n i = exec rer Input m n' i.
Proof.
  induction n as [|n IH]; intros [|n'] i Hn Hn'; simpl;
    destruct (length Input <? i)%nat eqn:Hlt; try done;
    destruct (m i); try done;
    apply Nat.ltb_ge in Hlt;
    pose proof (AdvanceStringIndex_gt i).
  - symmetry. apply exec_beyond. lia.
  - apply exec_beyond. lia.
  - apply IH; lia.
Qed.

Lemma exec_unfold i :
  exec rer Input m (length Input) i =
  if (length Input <? i)%nat then None
  else match m i with
       | Some y => Some (i, y)
       | None => exec rer Input m (length Input)
                   (AdvanceStringIndex rer Input i)
       end.
Proof.
  transitivity (exec rer Input m (S (length Input)) i).
  - destruct (length Input <? i)%nat eqn:Hlt.
    + apply Nat.ltb_lt in Hlt. by rewrite !exec_beyond.
    + apply exec_fuel; lia.
  - reflexivity.
Qed.

(** Where a match is found: at or after [lastIndex], within the input. *)
Lemma exec_position n i j y :
  exec rer Input m n i = Some (j, y) ->
  (i <= j <= length Input)%nat /\ m j = Some y.
Proof.
  revert i. induction n as [|n IH]; intros i; simpl;
    destruct (length Input <? i)%nat eqn:Hlt; try discriminate;
    apply Nat.ltb_ge in Hlt;
    destruct (m i) eqn:Hm; try discriminate;
    intros H.
  - inversion H; subst. auto with lia.
  - inversion H; subst. auto with lia.
  - apply IH in H as [? ?]. pose proof (AdvanceStringIndex_gt i). auto with lia.
Qed.

Lemma results_unfold n i :
  results rer Input m (S n) i =
  match exec rer Input m (length Input) i with
  | None => []
  | Some (j, y) =>
      if global rer then
        (j, y) :: results rer Input m n
                    (if (j <? endIndex y)%nat then endIndex y
                     else AdvanceStringIndex rer Input (endIndex y))
      else [(j, y)]
  end.
Proof. reflexivity. Qed.

Lemma results_nil n i :
  exec rer Input m (length Input) i = None ->
  results rer Input m n i = [].
Proof. intros H. destruct n; simpl; by rewrite H. Qed.

End ExecFacts.

(** ** A match moves in its direction *)

Section Monotone.
Variable unicode_letter : Z -> bool.
Variable rer : RegExp.RegExp.
Variable Input : JSString.
Import RegExp.

Lemma read_ordered dir e ch e' :
  read rer Input dir e = Some (ch, e') -> ordered dir (S e) (S e') /\ e <> e'.
Proof.
  destruct dir; simpl.
  - unfold read_forward. destruct (Input !! e); [|done].
    destruct (Input !! S e); [destruct (_ && _)|]; intros H; inversion H; lia.
  - unfold read_backward. destruct e as [|e1]; [done|].
    destruct (Input !! e1); [|done].
    destruct e1 as [|e2]; [intros H; inversion H; lia|].
    destruct (Input !! e2); [destruct (_ && _)|]; intros H; inversion H; lia.
Qed.

Lemma iterate_ordered (R : MatchState -> MatchState -> Prop) dir :
  (forall x y, R x y -> ordered dir (endIndex x) (endIndex y)) ->
  forall n x y, iterate R n x y -> ordered dir (endIndex x) (endIndex y).
Proof.
  intros HR. induction n as [|n IH]; intros x y; simpl.
  - intros ->. destruct dir; simpl; lia.
  - intros (z & Hz & Hit). apply HR in Hz. apply IH in Hit.
    destruct dir; simpl in *; lia.
Qed.

(** A match never moves against its direction. *)
Lemma Matches_ordered r :
  forall dir x y,
    Matches unicode_letter rer Input r dir x y ->
    ordered dir (endIndex x) (endIndex y).
Proof.
  induction r as [|invert atoms|r1 IH1 r2 IH2|r1 IH1 r2 IH2|min max greedy r IH
                  |n r IH|ahead negative r IH| |]; intros dir x y H; simpl in H.
  - subst. destruct dir; simpl; lia.
  - destruct H as (ch & Hr & _). apply read_ordered in Hr as [Hr _].
    destruct dir; simpl in *; lia.
  - destruct dir; destruct H as (z & H1 & H2).
    + apply IH1 in H1. apply IH2 in H2. simpl in *. lia.
    + apply IH2 in H1. apply IH1 in H2. simpl in *. lia.
  - destruct H; eauto.
  - destruct H as (k & _ & Hit).
    eapply iterate_ordered in Hit; [exact Hit|].
    intros a b Hab. apply IH in Hab. exact Hab.
  - destruct H as (z & Hz & ->). apply IH in Hz. exact Hz.
  - destruct negative.
    + subst. destruct dir; simpl; lia.
    + destruct H as (z & _ & ->). destruct dir; simpl; lia.
  - destruct H as [_ ->]. destruct dir; simpl; lia.
  - destruct H as [_ ->]. destruct dir; simpl; lia.
Qed.

End Monotone.

(** ** The bounds of the embedding are never reached *)

Section FuelBound.
Variable unicode_letter : Z -> bool.
Variable rer : RegExp.RegExp.
Variable Input : JSString.
Import RegExp.

Lemma read_bounded dir e ch e' :
  read rer Input dir e = Some (ch, e') ->
  (e <= length Input)%nat -> (e' <= length Input)%nat.
Proof.
  destruct dir; simpl.
  - unfold read_forward. destruct (Input !! e) eqn:He; [|done].
    apply lookup_lt_Some in He.
    destruct (Input !! S e) eqn:He'; [apply lookup_lt_Some in He'; destruct (_ && _)|];
      intros H; inversion H; lia.
  - unfold read_backward. destruct e as [|e1]; [done|].
    destruct (Input !! e1); [|done].
    destruct e1 as [|e2]; [intros H; inversion H; lia|].
    destruct (Input !! e2); [destruct (_ && _)|]; intros H; inversion H; lia.
Qed.

Lemma iterate_bounded (R : MatchState -> MatchState -> Prop) :
  (forall x y, R x y -> (endIndex x <= length Input)%nat ->
               (endIndex y <= length Input)%nat) ->
  forall n x y, iterate R n x y -> (endIndex x <= length Input)%nat ->
                (endIndex y <= length Input)%nat.
Proof.
  intros HR. induction n as [|n IH]; intros x y; simpl.
  - by intros ->.
  - intros (z & Hz & Hit) Hx. exact (IH _ _ Hit (HR _ _ Hz Hx)).
Qed.

(** A match that starts inside the input ends inside it. *)
Lemma Matches_bounded r :
  forall dir x y,
    Matches unicode_letter rer Input r dir x y ->
    (endIndex x <= length Input)%nat -> (endIndex y <= length Input)%nat.
Proof.
  induction r as [|invert atoms|r1 IH1 r2 IH2|r1 IH1 r2 IH2|min max greedy r IH
                  |n r IH|ahead negative r IH| |]; intros dir x y H Hx; simpl in H.
  - by subst.
  - destruct H as (ch & Hr & _). exact (read_bounded _ _ _ _ Hr Hx).
  - destruct dir; destruct H as (z & H1 & H2).
    + exact (IH2 _ _ _ H2 (IH1 _ _ _ H1 Hx)).
    + exact (IH1 _ _ _ H2 (IH2 _ _ _ H1 Hx)).
  - destruct H as [H|H]; [exact (IH1 _ _ _ H Hx) | exact (IH2 _ _ _ H Hx)].
  - destruct H as (k & _ & Hit).
    eapply iterate_bounded; [|exact Hit|exact Hx].
    intros a b Hab Ha. exact (IH _ _ _ Hab Ha).
  - destruct H as (z & Hz & ->). simpl. exact (IH _ _ _ Hz Hx).
  - destruct negative; [by subst|]. by destruct H as (z & _ & ->).
  - by destruct H as [_ ->].
  - by destruct H as [_ ->].
Qed.

(** A repetition only asks its continuation about states its iterations
    reach. *)
Lemma RepeatMatcher_local
    (m : MatchState -> Continuation -> option MatchState)
    (R : MatchState -> MatchState -> Prop) inner greedy :
  (forall x d d', (forall y, R x y -> d y = d' y) -> m x d = m x d') ->
  forall fuel min max x c c',
    (forall n y, (least min max <= n)%nat ->
                 iterate (fun a b => R (cleared inner a) b) n x y -> c y = c' y) ->
    RepeatMatcher m inner greedy fuel min max x c
    = RepeatMatcher m inner greedy fuel min max x c'.
Proof.
  intros Hm. induction fuel as [|fuel IH]; intros min max x c c' Hc; [done|].
  cbn [RepeatMatcher].
  destruct (decide (max = Some 0%nat)) as [->|Hmax].
  { apply (Hc 0%nat); [simpl; lia | done]. }
  assert (Hl : least (pred min) (pred <$> max) = pred (least min max)).
  { destruct max as [[|k]|]; [done| |done]. simpl. lia. }
  assert (Hd : m (cleared inner x)
                 (fun y => if Nat.eqb min 0 && Nat.eqb (endIndex y) (endIndex x) then None
                           else RepeatMatcher m inner greedy fuel (pred min) (pred <$> max) y c)
               = m (cleared inner x)
                 (fun y => if Nat.eqb min 0 && Nat.eqb (endIndex y) (endIndex x) then None
                           else RepeatMatcher m inner greedy fuel (pred min) (pred <$> max) y c')).
  { apply Hm. intros y Hy. destruct (_ && _); [done|].
    apply IH. intros n z Hn Hit. apply (Hc (S n)); [lia|].
    simpl. exists y. done. }
  assert (Hx : min = 0%nat -> c x = c' x).
  { intros ->. apply (Hc 0%nat); [|done]. destruct max; simpl; lia. }
  unfold cleared in Hd.
  destruct max as [[|k]|]; [done| |].
  - rewrite Hd. destruct (Nat.eqb min 0) eqn:E; [|done].
    apply Nat.eqb_eq in E. rewrite (Hx E). done.
  - rewrite Hd. destruct (Nat.eqb min 0) eqn:E; [|done].
    apply Nat.eqb_eq in E. rewrite (Hx E). done.
Qed.

(** A matcher only asks its continuation about states the pattern
    reaches. *)
Lemma matcher_local r :
  forall dir x c c',
    (forall y, Matches unicode_letter rer Input r dir x y -> c y = c' y) ->
    matcher unicode_letter rer Input r dir x c
    = matcher unicode_letter rer Input r dir x c'.
Proof.
  induction r as [|invert atoms|r1 IH1 r2 IH2|r1 IH1 r2 IH2|min max greedy r IH
                  |n r IH|ahead negative r IH| |]; intros dir x c c' Hc;
    cbn [matcher].
  - by apply Hc.
  - destruct (read rer Input dir (endIndex x)) as [[ch e]|] eqn:Hr; [|done].
    destruct (class_matches _ _ _ _ _) eqn:Hcl; [|done].
    apply Hc. simpl. exists ch. done.
  - destruct dir.
    + apply IH1. intros y Hy. apply IH2. intros z Hz. apply Hc. simpl. eauto.
    + apply IH2. intros y Hy. apply IH1. intros z Hz. apply Hc. simpl. eauto.
  - rewrite (IH1 dir x c c') by (intros y Hy; apply Hc; simpl; auto).
    rewrite (IH2 dir x c c') by (intros y Hy; apply Hc; simpl; auto).
    done.
  - apply (RepeatMatcher_local _ (Matches unicode_letter rer Input r dir)).
    + intros x0 d d' Hd. by apply IH.
    + intros n y Hn Hit. apply Hc. simpl. eauto.
  - apply IH. intros y Hy. apply Hc. simpl. eauto.
  - destruct (matcher _ _ _ r _ x Some) as [y|] eqn:Hy.
    + destruct negative; [done|].
      apply matcher_sound in Hy as (y' & Hy' & Heq). inversion Heq; subst.
      apply Hc. simpl. eauto.
    + destruct negative; [|done]. by apply Hc.
  - destruct (Nat.eqb _ _) eqn:E; [|done]. apply Nat.eqb_eq in E. by apply Hc.
  - destruct (Nat.eqb _ _) eqn:E; [|done]. apply Nat.eqb_eq in E. by apply Hc.
Qed.

(** Past [min + remaining] iterations, more fuel changes nothing. *)
Lemma RepeatMatcher_fuel
    (m : MatchState -> Continuation -> option MatchState)
    (R : MatchState -> MatchState -> Prop) inner greedy dir :
  (forall x d d', (forall y, R x y -> d y = d' y) -> m x d = m x d') ->
  (forall x y, R x y -> ordered dir (endIndex x) (endIndex y)) ->
  (forall x y, R x y -> (endIndex x <= length Input)%nat ->
               (endIndex y <= length Input)%nat) ->
  forall fuel fuel' min max x c,
    (endIndex x <= length Input)%nat ->
    (min + remaining Input dir x < fuel)%nat ->
    (min + remaining Input dir x < fuel')%nat ->
    RepeatMatcher m inner greedy fuel min max x c
    = RepeatMatcher m inner greedy fuel' min max x c.
Proof.
  intros Hm Hord Hbound.
  induction fuel as [|fuel IH]; intros fuel' min max x c Hx Hf Hf'; [lia|].
  destruct fuel' as [|fuel']; [lia|].
  cbn [RepeatMatcher].
  assert (Hd : m (cleared inner x)
                 (fun y => if Nat.eqb min 0 && Nat.eqb (endIndex y) (endIndex x) then None
                           else RepeatMatcher m inner greedy fuel (pred min) (pred <$> max) y c)
               = m (cleared inner x)
                 (fun y => if Nat.eqb min 0 && Nat.eqb (endIndex y) (endIndex x) then None
                           else RepeatMatcher m inner greedy fuel' (pred min) (pred <$> max) y c)).
  { apply Hm. intros y Hy.
    destruct (Nat.eqb min 0 && Nat.eqb (endIndex y) (endIndex x)) eqn:E; [done|].
    pose proof (Hord _ _ Hy) as Ho. pose proof (Hbound _ _ Hy Hx) as Hb.
    simpl in Ho, Hb.
    assert (pred min + remaining Input dir y < min + remaining Input dir x)%nat.
    { apply andb_false_iff in E as [E|E]; apply Nat.eqb_neq in E;
        destruct dir; unfold remaining; simpl in *; lia. }
    apply IH; [done | lia | lia]. }
  unfold cleared in Hd.
  destruct max as [[|k]|]; [done| |]; by rewrite Hd.
Qed.

(** The fuel [matcher] gives a quantifier is enough: any larger amount
    gives the same result. *)
Theorem fuel_adequate r dir min max greedy x c fuel :
  (endIndex x <= length Input)%nat ->
  (min + length Input < fuel)%nat ->
  RepeatMatcher (matcher unicode_letter rer Input r dir) (groups r) greedy fuel min max x c
  = matcher unicode_letter rer Input (Quant min max greedy r) dir x c.
Proof.
  intros Hx Hf. cbn [matcher].
  apply (RepeatMatcher_fuel _ (Matches unicode_letter rer Input r dir) _ _ dir).
  - intros x0 d d' Hd. by apply matcher_local.
  - intros x0 y. apply Matches_ordered.
  - intros x0 y. apply Matches_bounded.
  - done.
  - destruct dir; unfold remaining; simpl; lia.
  - destruct dir; unfold remaining; simpl; lia.
Qed.

End FuelBound.

Section ResultsBound.
Variable unicode_letter : Z -> bool.
Variable rer : RegExp.RegExp.
Variable Input : JSString.
Import RegExp.

(** A match ends at or after the index it was tried at. *)
Lemma match_at_ordered i y :
  match_at unicode_letter rer Input i = Some y -> (i <= endIndex y)%nat.
Proof.
  intros H. apply matcher_sound in H as (y' & Hy & Heq). inversion Heq; subst.
  apply Matches_ordered in Hy. exact Hy.
Qed.

Lemma results_fuel (m : nat -> option MatchState) :
  (forall i y, m i = Some y -> (i <= endIndex y)%nat) ->
  forall n n' i,
    (length Input + 1 - i <= n)%nat -> (length Input + 1 - i <= n')%nat ->
    results rer Input m n i = results rer Input m n' i.
Proof.
  intros Hm.
  assert (Hend : forall n i, (length Input < i)%nat -> results rer Input m n i = []).
  { intros n i Hi. apply results_nil, exec_beyond, Hi. }
  induction n as [|n IH]; intros n' i Hn Hn'.
  { rewrite !Hend by lia. done. }
  destruct n' as [|n']; [rewrite !Hend by lia; done|].
  rewrite !results_unfold.
  destruct (exec rer Input m (length Input) i) as [[j y]|] eqn:He; [|done].
  destruct (global rer); [|done]. f_equal.
  apply exec_position in He as [[Hij Hj] Hy]. apply Hm in Hy.
  pose proof (AdvanceStringIndex_gt rer Input (endIndex y)).
  destruct (j <? endIndex y)%nat eqn:E.
  - apply Nat.ltb_lt in E. apply IH; lia.
  - apply IH; lia.
Qed.

(** The bound [replace] puts on the number of results is enough: any
    larger bound gives the same results. *)
Theorem results_bound_adequate n :
  (length Input < n)%nat ->
  results rer Input (match_at unicode_letter rer Input) n 0
  = results rer Input (match_at unicode_letter rer Input) (length Input + 1) 0.
Proof.
  intros Hn. apply results_fuel; [apply match_at_ordered | lia | lia].
Qed.

End ResultsBound.

(** ** What the result of a replacement is made of *)

Section Preservation.
Variable unicode_letter : Z -> bool.
Variable P : Z -> Prop.

Lemma captures_in_lookup caps i :
  captures_in P caps -> Forall P (default [] (group caps i)).
Proof.
  intros H. unfold group.
  destruct (caps !! pred i) as [o|] eqn:Hi; simpl; [|by constructor].
  eapply Forall_lookup_1 in H; eauto. destruct o; simpl in *; [done|constructor].
Qed.

Lemma GetSubstitution_Forall matched str position caps template :
  Forall P matched -> Forall P str -> captures_in P caps -> Forall P template ->
  Forall P (GetSubstitution matched str position caps template).
Proof.
  intros Hm Hs Hc.
  remember (length template) as n eqn:Hn.
  revert template Hn. induction n as [n IH] using lt_wf_ind.
  intros template -> Ht.
  destruct template as [|c t1]; simpl; [constructor|].
  assert (IH1 : forall t, (length t <= length t1)%nat -> Forall P t ->
            Forall P (GetSubstitution matched str position caps t)).
  { intros t Hl ?. eapply IH; [|reflexivity|done]. simpl. lia. }
  clear IH.
  apply Forall_cons in Ht as [Hc0 Ht1].
  destruct (negb (c =? DOLLAR_SIGN)) eqn:Hdollar; [constructor; auto|].
  apply negb_false_iff, Z.eqb_eq in Hdollar. subst c.
  destruct t1 as [|d1 t2]; [by repeat constructor|].
  pose proof Ht1 as Ht1'.
  apply Forall_cons in Ht1 as [Hd1 Ht2].
  assert (IH2 : Forall P (GetSubstitution matched str position caps t2))
    by (apply IH1; simpl; [lia|done]).
  assert (IH3 : forall d2 t3, t2 = d2 :: t3 ->
            Forall P (GetSubstitution matched str position caps t3)).
  { intros d2 t3 ->. apply Forall_cons in Ht2 as [_ ?]. apply IH1; simpl; [lia|done]. }
  repeat first
    [ assumption
    | apply Forall_nil_2
    | apply Forall_cons_2
    | apply Forall_app_2
    | apply Forall_take
    | apply Forall_drop
    | apply captures_in_lookup
    | by eapply IH3
    | by apply IH1
    | match goal with
      | |- Forall P (if ?b then _ else _) => destruct b
      | |- Forall P (match ?l with [] => _ | _ :: _ => _ end) => destruct l eqn:?
      end ].
Qed.

Lemma capture_strings_in str y :
  Forall P str -> captures_in P (capture_strings str y).
Proof.
  intros Hs. unfold captures_in, capture_strings.
  apply Forall_forall. intros o Ho. apply list_elem_of_In, in_map_iff in Ho as (r & <- & _).
  destruct r as [[from to]|]; simpl; [|done].
  unfold substring. by apply Forall_take, Forall_drop.
Qed.

Lemma assemble_Forall str replaceValue :
  Forall P str -> preserving P replaceValue ->
  forall results nextSourcePosition acc out,
    Forall P acc ->
    assemble str replaceValue results nextSourcePosition acc = Normal out ->
    Forall P out.
Proof.
  intros Hs Hp. induction results as [|[position y] results IH];
    intros next acc out Hacc H; simpl in H.
  - inversion H; subst. apply Forall_app_2; [done|]. by apply Forall_drop.
  - assert (Hmatched : Forall P (substring str position (RegExp.endIndex y)))
      by (unfold substring; by apply Forall_take, Forall_drop).
    pose proof (capture_strings_in str y Hs) as Hcaps.
    match type of H with
    | cbind ?r _ = _ => destruct r as [replacement|] eqn:Hr; [|discriminate]
    end.
    assert (Forall P replacement).
    { destruct replaceValue as [t|f]; simpl in Hp.
      - inversion Hr; subst. by apply GetSubstitution_Forall.
      - eapply Hp; eauto. }
    simpl in H. destruct (next <=? position)%nat.
    + eapply IH; [|exact H]. repeat apply Forall_app_2; try done.
      unfold substring. by apply Forall_take, Forall_drop.
    + eapply IH; [|exact H]. done.
Qed.

Lemma substitute_Forall str rule out :
  Forall P str -> preserving P (snd rule) ->
  substitute unicode_letter str rule = Normal out -> Forall P out.
Proof.
  intros Hs Hp H. unfold substitute, replace in H.
  eapply assemble_Forall in H; eauto.
Qed.

Lemma transform_with_Forall rules :
  Forall (fun rule => preserving P (snd rule)) rules ->
  forall str out,
    Forall P str -> transform_with unicode_letter rules str = Normal out ->
    Forall P out.
Proof.
  induction 1 as [|rule rules Hr _ IH]; intros str out Hs H; simpl in H.
  - by inversion H; subst.
  - destruct (substitute unicode_letter str rule) as [v|] eqn:Hv; [|discriminate].
    simpl in H. eapply IH; [|exact H]. eapply substitute_Forall; eauto.
Qed.
End Preservation.

(** ** Replacements that return *)

Section Totality.
Variable unicode_letter : Z -> bool.

Lemma assemble_never_throws str replaceValue :
  never_throws replaceValue ->
  forall results nextSourcePosition acc,
    exists out, assemble str replaceValue results nextSourcePosition acc = Normal out.
Proof.
  intros Ht. induction results as [|[position y] results IH]; intros next acc; simpl.
  - eauto.
  - match goal with
    | |- exists _, cbind ?r _ = _ =>
        assert (exists replacement, r = Normal replacement) as [replacement ->]
    end.
    { destruct replaceValue as [t|f]; simpl in Ht; eauto. }
    simpl. destruct (next <=? position)%nat; apply IH.
Qed.

Lemma substitute_never_throws str rule :
  never_throws (snd rule) -> exists out, substitute unicode_letter str rule = Normal out.
Proof. intros. by apply assemble_never_throws. Qed.

Lemma transform_with_never_throws rules :
  Forall (fun rule => never_throws (snd rule)) rules ->
  forall str, exists out, transform_with unicode_letter rules str = Normal out.
Proof.
  induction 1 as [|rule rules Hr _ IH]; intros str; simpl; [eauto|].
  destruct (substitute_never_throws str rule Hr) as [v ->]. simpl. apply IH.
Qed.
End Totality.

Lemma GetSubstitution_no_dollar matched str position caps template :
  DOLLAR_SIGN ∉ template ->
  GetSubstitution matched str position caps template = template.
Proof.
  induction template as [|c t IH]; intros Hd; [done|].
  apply not_elem_of_cons in Hd as [Hc Ht]. simpl.
  destruct (c =? DOLLAR_SIGN) eqn:E; [apply Z.eqb_eq in E; done|].
  simpl. by rewrite IH.
Qed.

(** ** Replacing one character everywhere *)

Section ReplaceCharacter.
Variable unicode_letter : Z -> bool.
Variable ch : Z.
Variable template : JSString.
Hypothesis template_plain : DOLLAR_SIGN ∉ template.
Import RegExp.

Lemma match_at_lit str i :
  match_at unicode_letter (g (lit ch)) str i =
  match str !! i with
  | Some c => if c =? ch then Some {| endIndex := S i; captures := [] |} else None
  | None => None
  end.
Proof.
  unfold match_at. simpl. unfold read_forward. simpl.
  destruct (str !! i) as [c|]; [|done].
  destruct (str !! S i); simpl; unfold class_matches; simpl;
    unfold canonicalize; simpl; rewrite orb_false_r; done.
Qed.

Lemma advance_unit str i : AdvanceStringIndex (g (lit ch)) str i = S i.
Proof.
  unfold AdvanceStringIndex, read_forward. simpl.
  destruct (str !! i); [|done]. destruct (str !! S i); done.
Qed.

Lemma assemble_lit l2 :
  forall str l0 l1 n acc,
    str = l0 ++ l1 ++ l2 -> ch ∉ l1 -> (length l2 <= n)%nat ->
    assemble str (Template template)
      (results (g (lit ch)) str (match_at unicode_letter (g (lit ch)) str) n (length (l0 ++ l1)))
      (length l0) acc
    = Normal (acc ++ l1 ++ flat_map (expand ch template) l2).
Proof.
  induction l2 as [|c l2 IH]; intros str l0 l1 n acc Hstr Hl1 Hn.
  - rewrite app_nil_r in Hstr. subst str.
    rewrite results_nil.
    + simpl. by rewrite drop_app_length, app_nil_r.
    + rewrite exec_unfold, Nat.ltb_irrefl, match_at_lit.
      rewrite lookup_ge_None_2 by lia.
      apply exec_beyond. rewrite advance_unit. lia.
  - assert (Hc : str !! length (l0 ++ l1) = Some c).
    { subst str. rewrite app_assoc. by rewrite list_lookup_middle. }
    assert (Hlen : (length (l0 ++ l1) < length str)%nat)
      by (eapply lookup_lt_Some; eauto).
    destruct n as [|n]; [simpl in Hn; lia|].
    destruct (c =? ch) eqn:E.
    + apply Z.eqb_eq in E. subst c.
      rewrite results_unfold, exec_unfold, match_at_lit, Hc, Z.eqb_refl.
      replace (length str <? length (l0 ++ l1))%nat with false
        by (symmetry; apply Nat.ltb_ge; lia).
      simpl global. cbv iota. simpl endIndex.
      replace (length (l0 ++ l1) <? S (length (l0 ++ l1)))%nat with true
        by (symmetry; apply Nat.ltb_lt; lia).
      cbn [assemble].
      rewrite GetSubstitution_no_dollar by done. cbn [cbind].
      replace (length l0 <=? length (l0 ++ l1))%nat with true
        by (symmetry; apply Nat.leb_le; rewrite length_app; lia).
      assert (Hm : substring str (length (l0 ++ l1)) (S (length (l0 ++ l1))) = [ch]).
      { unfold substring. subst str. rewrite app_assoc, drop_app_length.
        replace (S (length (l0 ++ l1)) - length (l0 ++ l1))%nat with 1%nat by lia.
        done. }
      assert (Hgap : substring str (length l0) (length (l0 ++ l1)) = l1).
      { unfold substring. subst str. rewrite drop_app_length, length_app.
        replace (length l0 + length l1 - length l0)%nat with (length l1) by lia.
        by rewrite take_app_length. }
      cbn [endIndex]. rewrite Hm, Hgap. simpl length.
      specialize (IH str (l0 ++ l1 ++ [ch]) [] n (acc ++ l1 ++ template)).
      rewrite app_nil_r in IH.
      replace (length (l0 ++ l1 ++ [ch])) with (S (length (l0 ++ l1))) in IH
        by (rewrite !length_app; simpl; lia).
      replace (length (l0 ++ l1) + 1)%nat with (S (length (l0 ++ l1))) by lia.
      rewrite IH.
      * assert (expand ch template ch = template) as Hx by (unfold expand; by rewrite Z.eqb_refl).
        simpl. rewrite Hx. by rewrite <- !app_assoc.
      * subst str. simpl. by rewrite <- !app_assoc.
      * apply not_elem_of_nil.
      * simpl in Hn. lia.
    + specialize (IH str l0 (l1 ++ [c]) (S n) acc).
      assert (Hexec : exec (g (lit ch)) str (match_at unicode_letter (g (lit ch)) str) (length str) (length (l0 ++ l1))
                      = exec (g (lit ch)) str (match_at unicode_letter (g (lit ch)) str) (length str)
                          (length (l0 ++ (l1 ++ [c])))).
      { rewrite exec_unfold, match_at_lit, Hc, E, advance_unit.
        replace (length str <? length (l0 ++ l1))%nat with false
          by (symmetry; apply Nat.ltb_ge; lia).
        f_equal. rewrite !length_app. simpl. lia. }
      rewrite results_unfold, Hexec, <- results_unfold, IH.
      * assert (expand ch template c = [c]) as Hx by (unfold expand; by rewrite E).
        simpl. rewrite Hx. by rewrite <- !app_assoc.
      * subst str. by rewrite <- !app_assoc.
      * apply not_elem_of_app. split; [done|].
        apply not_elem_of_cons. split; [|apply not_elem_of_nil].
        apply Z.eqb_neq in E. congruence.
      * simpl in Hn. lia.
Qed.

(** [str.replace(/c/g, template)] for a template without [$]: every [c]
    becomes the template, everything else stays. *)
Lemma replace_lit str :
  replace unicode_letter str (g (lit ch)) (Template template)
  = Normal (flat_map (expand ch template) str).
Proof.
  unfold replace.
  pose proof (assemble_lit str str [] [] (length str + 1) [] eq_refl) as H.
  simpl in H. apply H; [apply not_elem_of_nil | lia].
Qed.

Lemma expand_gone str : ch ∉ template -> ch ∉ flat_map (expand ch template) str.
Proof.
  intros Ht Hin. apply list_elem_of_In, in_flat_map in Hin as (c & _ & Hin).
  unfold expand in Hin. destruct (c =? ch) eqn:E.
  - by apply list_elem_of_In in Hin.
  - apply Z.eqb_neq in E. destruct Hin as [->|[]]. done.
Qed.
End ReplaceCharacter.

(** ** The rules of a language *)

Lemma resolution_by_key language :
  punctuationRulesForLanguage language
  = punctuationRulesForLanguage (Some (property_key language)).
Proof. by destruct language. Qed.

Lemma overrides_other (key : string) :
  key ∉ ["en"; "fr"; "de"; "he"]%string -> languageSpecificOverrides !! key = None.
Proof. intros H. apply not_elem_of_list_to_map_1. exact H. Qed.

Lemma rules_other (key : string) :
  key ∉ ["de"; "ja"; "he"]%string -> languageSpecificRules !! key = None.
Proof. intros H. apply not_elem_of_list_to_map_1. exact H. Qed.

Lemma Get_undefined {A} (table : gmap string A) key :
  table !! key = None -> key ∉ Object_prototype -> Get table key = Undefined.
Proof. intros Hk Hp. unfold Get. rewrite Hk. by rewrite bool_decide_false. Qed.

Lemma Get_inherited {A} (table : gmap string A) key :
  table !! key = None -> key ∈ Object_prototype -> Get table key = Inherited.
Proof. intros Hk Hp. unfold Get. rewrite Hk. by rewrite bool_decide_true. Qed.

(** The languages the tables know, and all the others. *)
Lemma key_cases (key : string) :
  key ∈ ["en"; "fr"; "de"; "he"; "ja"]%string
  \/ (languageSpecificOverrides !! key = None /\ languageSpecificRules !! key = None).
Proof.
  destruct (decide (key ∈ ["en"; "fr"; "de"; "he"; "ja"]%string)) as [|Hn]; [by left|].
  right. split; [apply overrides_other | apply rules_other];
    intros Hin; apply Hn;
    repeat (apply elem_of_cons in Hin as [->|Hin]);
    try (by apply elem_of_nil in Hin);
    apply list_elem_of_In; simpl; tauto.
Qed.

Lemma resolution_returns language :
  property_key language ∉ Object_prototype ->
  exists rules h,
    punctuationRulesForLanguage language initial_store = Normal (rules, h)
    /\ rules_at h rules = Some (resolved (property_key language)).
Proof.
  intros Hp. rewrite resolution_by_key.
  destruct (key_cases (property_key language)) as [Hin|[Ho Hr]].
  - repeat (apply elem_of_cons in Hin as [->|Hin]);
      try (by apply elem_of_nil in Hin);
      eexists _, _; (split; reflexivity).
  - unfold punctuationRulesForLanguage, optional_forEach, resolved.
    change (property_key (Some (property_key language))) with (property_key language).
    rewrite !Get_undefined by done. rewrite Ho, Hr.
    eexists _, _. split; reflexivity.
Qed.

Lemma resolution_throws language :
  property_key language ∈ Object_prototype ->
  punctuationRulesForLanguage language initial_store = Throw TypeError.
Proof.
  intros Hp. rewrite resolution_by_key.
  repeat (apply elem_of_cons in Hp as [->|Hp]); try reflexivity.
  by apply elem_of_nil in Hp.
Qed.

Lemma resolution_resolved language rules h :
  punctuationRulesForLanguage language initial_store = Normal (rules, h) ->
  rules_at h rules = Some (resolved (property_key language)).
Proof.
  intros H.
  destruct (decide (property_key language ∈ Object_prototype)) as [Hp|Hp].
  - rewrite resolution_throws in H by done. discriminate.
  - destruct (resolution_returns language Hp) as (rules' & h' & H' & Hr).
    rewrite H in H'. by inversion H'; subst.
Qed.

Lemma resolved_en :
  resolved "en" = overridden (quoted [LEFT_DOUBLE_QUOTE] [RIGHT_DOUBLE_QUOTE])
                    (quoted [LEFT_SINGLE_QUOTE] [RIGHT_SINGLE_QUOTE])
                    [RIGHT_SINGLE_QUOTE] [HYPHEN].
Proof. reflexivity. Qed.

Lemma resolved_fr :
  resolved "fr" = overridden (quoted [LEFT_GUILLEMET; 32] [32; RIGHT_GUILLEMET])
                    (quoted [LEFT_SINGLE_GUILLEMET; 32] [32; RIGHT_SINGLE_GUILLEMET])
                    [RIGHT_SINGLE_QUOTE] [HYPHEN].
Proof. reflexivity. Qed.

Lemma resolved_de :
  resolved "de" = overridden (quoted [LOW_DOUBLE_QUOTE] [LEFT_DOUBLE_QUOTE])
                    (quoted [LOW_SINGLE_QUOTE] [LEFT_SINGLE_QUOTE])
                    [RIGHT_SINGLE_QUOTE] [HYPHEN]
                  ++ [de_compound].
Proof. reflexivity. Qed.

Lemma resolved_he :
  resolved "he" = overridden (quoted [RIGHT_DOUBLE_QUOTE] [RIGHT_DOUBLE_QUOTE])
                    (quoted [RIGHT_SINGLE_QUOTE] [RIGHT_SINGLE_QUOTE])
                    [HEBREW_GERESH] [HEBREW_MAQAF]
                  ++ [he_acronym].
Proof. reflexivity. Qed.

Lemma resolved_ja : resolved "ja" = defaultRules ++ [ja_brackets].
Proof. reflexivity. Qed.

Lemma resolved_other key :
  languageSpecificOverrides !! key = None -> languageSpecificRules !! key = None ->
  resolved key = defaultRules.
Proof. intros Ho Hr. unfold resolved. rewrite Ho, Hr. reflexivity. Qed.

Lemma defaultRules_overridden :
  defaultRules = overridden (quoted [LEFT_DOUBLE_QUOTE] [RIGHT_DOUBLE_QUOTE])
                   (quoted [LEFT_SINGLE_QUOTE] [RIGHT_SINGLE_QUOTE])
                   [RIGHT_SINGLE_QUOTE] [HYPHEN].
Proof. reflexivity. Qed.

(** Whatever the language, the resolved list is the default list with other
    templates in the four slots, and at most one more rule. *)
Lemma resolved_cases key :
  exists dq sq ap hy extra,
    resolved key = overridden dq sq ap hy ++ extra
    /\ (ap = [RIGHT_SINGLE_QUOTE] \/ ap = [HEBREW_GERESH])
    /\ (hy = [HYPHEN] \/ hy = [HEBREW_MAQAF])
    /\ (extra = [] \/ extra = [de_compound] \/ extra = [ja_brackets]
        \/ extra = [he_acronym]).
Proof.
  destruct (key_cases key) as [Hin|[Ho Hr]].
  - repeat (apply elem_of_cons in Hin as [->|Hin]); try (by apply elem_of_nil in Hin).
    + rewrite resolved_en. eexists _, _, _, _, []. rewrite app_nil_r. tauto.
    + rewrite resolved_fr. eexists _, _, _, _, []. rewrite app_nil_r. tauto.
    + rewrite resolved_de. eexists _, _, _, _, _. split; [reflexivity|]. tauto.
    + rewrite resolved_he. eexists _, _, _, _, _. split; [reflexivity|]. tauto.
    + rewrite resolved_ja, defaultRules_overridden.
      eexists _, _, _, _, _. split; [reflexivity|]. tauto.
  - rewrite resolved_other, defaultRules_overridden by done.
    eexists _, _, _, _, []. rewrite app_nil_r. tauto.
Qed.

Lemma transform_with_app unicode_letter rules1 rules2 value :
  transform_with unicode_letter (rules1 ++ rules2) value
  = cbind (transform_with unicode_letter rules1 value)
          (transform_with unicode_letter rules2).
Proof.
  revert value. induction rules1 as [|rule rules1 IH]; intros value; simpl; [done|].
  destruct (substitute unicode_letter value rule); simpl; [apply IH | done].
Qed.

(** ** No rule brings an apostrophe back *)

Lemma replaceAll_Forall (P : Z -> Prop) str search replacement :
  Forall P str -> P replacement -> Forall P (replaceAll str search replacement).
Proof.
  intros Hs Hr. unfold replaceAll. apply Forall_fmap.
  eapply Forall_impl; [exact Hs|]. intros c Hc. simpl. by destruct (c =? search).
Qed.

Lemma date_hyphens_never_throws : never_throws (snd date_hyphens).
Proof. intros matched caps. simpl. destruct (Date_parse_isNaN matched); eauto. Qed.

Lemma figure_dashes_never_throws : never_throws (snd figure_dashes).
Proof. intros matched caps. simpl. eauto. Qed.

Lemma date_hyphens_preserving (P : Z -> Prop) :
  P HYPHEN -> preserving P (snd date_hyphens).
Proof.
  intros HP matched caps out Hm _. simpl.
  destruct (Date_parse_isNaN matched); intros H; inversion H; subst; [done|].
  by apply replaceAll_Forall.
Qed.

Lemma figure_dashes_preserving (P : Z -> Prop) :
  P FIGURE_DASH -> preserving P (snd figure_dashes).
Proof.
  intros HP matched caps out Hm _. simpl. intros H; inversion H; subst.
  by apply replaceAll_Forall.
Qed.

Lemma Forall_not_elem (ch : Z) (l : JSString) : Forall (fun c => c <> ch) l -> ch ∉ l.
Proof. intros H Hin. eapply Forall_forall in H; eauto. Qed.

Ltac template_apostrophe_free :=
  repeat first [ apply Forall_nil_2
               | apply Forall_cons_2; [compute; intros ?; discriminate|] ].

Ltac not_in_template :=
  repeat (apply not_elem_of_cons; split; [compute; intros ?; discriminate|]);
  apply not_elem_of_nil.

Section NoApostrophe.
Variable unicode_letter : Z -> bool.

Lemma upto_apostrophes_never_throws dq sq value :
  exists out,
    transform_with unicode_letter
      [(fst double_quoted, Template dq); n_idiom; (fst single_quoted, Template sq);
       double_primes; single_primes] value = Normal out.
Proof.
  apply transform_with_never_throws.
  repeat (apply Forall_cons_2; [exact I|]). apply Forall_nil_2.
Qed.

Lemma after_apostrophes hy extra value :
  hy = [HYPHEN] \/ hy = [HEBREW_MAQAF] ->
  extra = [] \/ extra = [de_compound] \/ extra = [ja_brackets] \/ extra = [he_acronym] ->
  APOSTROPHE ∉ value ->
  exists out,
    transform_with unicode_letter
      ([ellipses; dash_separator; date_hyphens; figure_dashes; range_dash;
        (fst hyphens, Template hy)] ++ extra) value = Normal out
    /\ APOSTROPHE ∉ out.
Proof.
  intros Hhy Hextra Hvalue.
  set (rules := _ ++ extra).
  assert (Ht : Forall (fun rule => never_throws (snd rule)) rules).
  { subst rules.
    apply Forall_app_2; [|destruct Hextra as [-> | [-> | [-> | ->]]]];
      repeat (apply Forall_cons_2;
              [first [ exact I | apply date_hyphens_never_throws
                     | apply figure_dashes_never_throws ] |]);
      apply Forall_nil_2. }
  assert (Hp : Forall (fun rule => preserving not_apostrophe (snd rule)) rules).
  { subst rules.
    apply Forall_app_2;
      [destruct Hhy as [-> | ->] | destruct Hextra as [-> | [-> | [-> | ->]]]];
      repeat (apply Forall_cons_2;
              [first [ by apply date_hyphens_preserving
                     | by apply figure_dashes_preserving
                     | simpl; template_apostrophe_free ] |]);
      apply Forall_nil_2. }
  destruct (transform_with_never_throws unicode_letter rules Ht value) as [out Hout].
  exists out. split; [done|].
  apply Forall_not_elem.
  apply (transform_with_Forall unicode_letter not_apostrophe rules Hp value out);
    [|exact Hout].
  apply Forall_forall. intros c Hc ->. done.
Qed.

Lemma resolved_no_apostrophe key value :
  exists out,
    transform_with unicode_letter (resolved key) value = Normal out
    /\ APOSTROPHE ∉ out.
Proof.
  destruct (resolved_cases key) as (dq & sq & ap & hy & extra & -> & Hap & Hhy & Hextra).
  change (overridden dq sq ap hy ++ extra)
    with ([(fst double_quoted, Template dq); n_idiom; (fst single_quoted, Template sq);
           double_primes; single_primes]
          ++ [(fst apostrophes, Template ap)]
          ++ ([ellipses; dash_separator; date_hyphens; figure_dashes; range_dash;
               (fst hyphens, Template hy)] ++ extra)).
  rewrite !transform_with_app.
  destruct (upto_apostrophes_never_throws dq sq value) as [v1 ->]. simpl cbind.
  unfold substitute. simpl fst. simpl snd.
  change (fst apostrophes) with (g (lit APOSTROPHE)).
  rewrite replace_lit by (destruct Hap as [-> | ->]; not_in_template).
  simpl cbind.
  apply after_apostrophes; [done..|].
  apply expand_gone.
  destruct Hap as [-> | ->]; not_in_template.
Qed.

End NoApostrophe.

(** ** What a resolution does to the store *)

Local Open Scope nat_scope.

Lemma alloc_spec o h a h' :
  alloc o h = Normal (a, h') -> a = length h /\ h' = h ++ [o].
Proof. unfold alloc. intros H. by inversion H. Qed.

Lemma spread_rule_spec rule h a h' :
  spread_rule rule h = Normal (a, h') ->
  a = length h /\ exists s v, h !! rule = Some (RuleObject s v) /\ h' = h ++ [RuleObject s v].
Proof.
  unfold spread_rule. destruct (h !! rule) as [[s v|]|]; try discriminate.
  intros H. apply alloc_spec in H as [-> ->]. eauto.
Qed.

(** [map]: the store only grows, and the copy of every overridable rule is
    a new object. *)
Lemma map_rules_spec elements :
  forall index h copies h',
    map_rules elements index h = Normal (copies, h') ->
    h `prefix_of` h'
    /\ length copies = length elements
    /\ forall i a, copies !! i = Some a ->
         if bool_decide (index + i ∈ overrideRuleIndices)
         then length h <= a < length h'
         else elements !! i = Some a.
Proof.
  induction elements as [|rule rest IH]; intros index h copies h' H; simpl in H.
  - inversion H; subst. split; [done|]. split; [done|]. intros i a Hi. done.
  - unfold bind in H.
    destruct (bool_decide (index ∈ overrideRuleIndices)) eqn:Hidx.
    + destruct (spread_rule rule h) as [[a1 h1]|] eqn:H1; [|discriminate].
      apply spread_rule_spec in H1 as (-> & s & v & Hrule & ->).
      destruct (map_rules rest (S index) _) as [[rest' h2]|] eqn:H2; [|discriminate].
      inversion H; subst. apply IH in H2 as (Hpre & Hlen & Hcopies).
      split; [etrans; [|exact Hpre]; by apply prefix_app_r|].
      split; [simpl; lia|].
      apply prefix_length in Hpre. rewrite length_app in Hpre. simpl in Hpre.
      intros [|i] a Hi; simpl in Hi.
      * inversion Hi; subst. rewrite Nat.add_0_r, Hidx. lia.
      * specialize (Hcopies i a Hi).
        replace (index + S i) with (S index + i) by lia.
        destruct (bool_decide (S index + i ∈ overrideRuleIndices)); [|done].
        rewrite length_app in Hcopies. simpl in Hcopies. lia.
    + unfold ret in H.
      destruct (map_rules rest (S index) h) as [[rest' h2]|] eqn:H2; [|discriminate].
      inversion H; subst. apply IH in H2 as (Hpre & Hlen & Hcopies).
      split; [done|]. split; [simpl; lia|].
      intros [|i] a Hi; simpl in Hi.
      * inversion Hi; subst. by rewrite Nat.add_0_r, Hidx.
      * specialize (Hcopies i a Hi).
        by replace (index + S i) with (S index + i) by lia.
Qed.

(** Writing to an object made after [h0] leaves [h0] as it was. *)
Lemma prefix_insert (h0 h : Store) a o :
  h0 `prefix_of` h -> length h0 <= a -> h0 `prefix_of` <[a := o]> h.
Proof.
  intros [k ->] Ha. exists (<[a - length h0 := o]> k).
  by rewrite insert_app_r_alt.
Qed.

Lemma set_replaceValue_spec a value h h' :
  set_replaceValue a value h = Normal (tt, h') ->
  exists s v, h !! a = Some (RuleObject s v) /\ h' = <[a := RuleObject s value]> h.
Proof.
  unfold set_replaceValue. destruct (h !! a) as [[s v|]|]; try discriminate.
  intros H. inversion H. eauto.
Qed.

Lemma set_searchValue_spec a value h h' :
  set_searchValue a value h = Normal (tt, h') ->
  exists s v, h !! a = Some (RuleObject s v) /\ h' = <[a := RuleObject value v]> h.
Proof.
  unfold set_searchValue. destruct (h !! a) as [[s v|]|]; try discriminate.
  intros H. inversion H. eauto.
Qed.

Lemma push_spec array element h h' :
  push array element h = Normal (tt, h') ->
  exists elements, h !! array = Some (ArrayObject elements)
    /\ h' = <[array := ArrayObject (elements ++ [element])]> h.
Proof.
  unfold push. destruct (h !! array) as [[|elements]|]; try discriminate.
  intros H. inversion H. eauto.
Qed.

Lemma position_elem index l k : position index l = Some k -> index ∈ l.
Proof.
  revert k. induction l as [|i l IH]; intros k; simpl; [done|].
  destruct (decide (i = index)) as [->|]; [intros _; left|].
  destruct (position index l); [|done]. intros _. right. eauto.
Qed.

(** The first [forEach] writes to the copies only. *)
Lemma overwrite_spec h0 rules copies values :
  forall index h h',
    h0 `prefix_of` h ->
    h !! rules = Some (ArrayObject copies) ->
    (forall i a, i ∈ overrideRuleIndices -> copies !! i = Some a -> length h0 <= a) ->
    overwrite rules values index h = Normal (tt, h') ->
    h0 `prefix_of` h' /\ h' !! rules = Some (ArrayObject copies)
    /\ length h' = length h.
Proof.
  induction values as [|value rest IH]; intros index h h' Hpre Hrules Hfresh H;
    simpl in H.
  - inversion H; subst. done.
  - unfold bind, elements_of in H. rewrite Hrules in H.
    destruct (overrideRuleIndices !! index) as [ruleIndex|] eqn:Hindex; [|discriminate].
    simpl in H. destruct (copies !! ruleIndex) as [rule|] eqn:Hrule; [|discriminate].
    destruct (set_replaceValue rule (Template value) h) as [[[] h1]|] eqn:H1; [|discriminate].
    apply set_replaceValue_spec in H1 as (s & v & Hobj & ->).
    assert (rule <> rules) by (intros ->; rewrite Hrules in Hobj; discriminate).
    apply IH in H as (? & ? & Hlen).
    + split; [done|]. split; [done|]. by rewrite Hlen, length_insert.
    + apply prefix_insert; [done|]. eapply Hfresh; [|exact Hrule].
      eapply list_elem_of_lookup_2; eauto.
    + by rewrite list_lookup_insert_ne.
    + done.
Qed.

(** The second [forEach] writes to the new array only. *)
Lemma append_spec h0 rules extra :
  forall copies h h',
    h0 `prefix_of` h -> length h0 <= rules ->
    h !! rules = Some (ArrayObject copies) ->
    append rules extra h = Normal (tt, h') ->
    h0 `prefix_of` h' /\ h' !! rules = Some (ArrayObject (copies ++ extra))
    /\ length h' = length h.
Proof.
  induction extra as [|rule rest IH]; intros copies h h' Hpre Hfresh Hrules H;
    simpl in H.
  - inversion H; subst. by rewrite app_nil_r.
  - unfold bind in H.
    destruct (push rules rule h) as [[[] h1]|] eqn:H1; [|discriminate].
    apply push_spec in H1 as (elements & Hobj & ->).
    rewrite Hrules in Hobj. inversion Hobj; subst elements.
    apply (IH (copies ++ [rule])) in H as (? & ? & Hlen).
    + split; [done|]. split; [by rewrite <- app_assoc in *|].
      by rewrite Hlen, length_insert.
    + by apply prefix_insert.
    + done.
    + apply list_lookup_insert_eq. eapply lookup_lt_Some; eauto.
Qed.

Lemma optional_forEach_spec {A} (table : gmap string A) language loop h h' :
  optional_forEach table language loop h = Normal (tt, h') ->
  h' = h \/ exists value, table !! property_key language = Some value
                   /\ loop value h = Normal (tt, h').
Proof.
  unfold optional_forEach, Get.
  destruct (table !! property_key language) as [value|]; [eauto|].
  destruct (bool_decide _); [discriminate|].
  intros H. inversion H. auto.
Qed.

(** What a resolution does to the store it runs in: nothing that was there
    changes; the returned array and the rules in its overridable slots are
    new; every other default rule of the returned array (index below the
    number of default rules) is the default array's own object. *)
Lemma resolution_frame language h rules h' :
  punctuationRulesForLanguage language h = Normal (rules, h') ->
  h `prefix_of` h'
  /\ length h <= rules
  /\ exists base elements,
       h !! punctuationRules = Some (ArrayObject base)
       /\ h' !! rules = Some (ArrayObject elements)
       /\ forall i a, i < length base -> elements !! i = Some a ->
            if bool_decide (i ∈ overrideRuleIndices)
            then length h <= a
            else base !! i = Some a.
Proof.
  unfold punctuationRulesForLanguage, bind. intros H.
  unfold elements_of in H at 1.
  destruct (h !! punctuationRules) as [[|base]|] eqn:Hbase; try discriminate.
  destruct (map_rules base 0 h) as [[copies h1]|] eqn:H1; [|discriminate].
  apply map_rules_spec in H1 as (Hpre1 & Hlen & Hcopies).
  destruct (alloc (ArrayObject copies) h1) as [[a h2]|] eqn:H2; [|discriminate].
  apply alloc_spec in H2 as [-> ->].
  pose proof (prefix_length _ _ Hpre1) as Hle.
  assert (Hpre2 : h `prefix_of` h1 ++ [ArrayObject copies])
    by (etrans; [exact Hpre1 | by apply prefix_app_r]).
  assert (Hrules : (h1 ++ [ArrayObject copies]) !! length h1 = Some (ArrayObject copies))
    by (by rewrite list_lookup_middle).
  assert (Hfresh : forall i a, i ∈ overrideRuleIndices -> copies !! i = Some a ->
            length h <= a).
  { intros i a Hi Ha. specialize (Hcopies i a Ha). simpl in Hcopies.
    rewrite bool_decide_true in Hcopies by done. lia. }
  destruct (optional_forEach languageSpecificOverrides _ _ _) as [[[] h3]|] eqn:H3;
    [|discriminate].
  assert (h `prefix_of` h3 /\ h3 !! length h1 = Some (ArrayObject copies)) as [Hpre3 Hrules3].
  { apply optional_forEach_spec in H3 as [->|(values & _ & H3)]; [done|].
    eapply overwrite_spec in H3 as (? & ? & _); eauto. }
  destruct (optional_forEach languageSpecificRules _ _ _) as [[[] h4]|] eqn:H4;
    [|discriminate].
  inversion H; subst. clear H.
  assert (exists extra, h `prefix_of` h' /\ h' !! length h1 = Some (ArrayObject (copies ++ extra)))
    as (extra & Hpre4 & Hrules4).
  { apply optional_forEach_spec in H4 as [->|(extra & _ & H4)].
    - exists []. by rewrite app_nil_r.
    - exists extra. eapply append_spec in H4 as (? & ? & _); eauto. }
  split; [done|]. split; [done|].
  exists base, (copies ++ extra). split; [done|]. split; [done|].
  intros i a Hi Ha. rewrite lookup_app_l in Ha by lia.
  specialize (Hcopies i a Ha). simpl in Hcopies.
  destruct (bool_decide (i ∈ overrideRuleIndices)); [lia | done].
Qed.

(** What an array of rules holds does not change when the store grows. *)
Lemma rule_at_prefix (h h' : Store) a rule :
  h `prefix_of` h' -> rule_at h a = Some rule -> rule_at h' a = Some rule.
Proof.
  intros Hpre. unfold rule_at.
  destruct (h !! a) as [o|] eqn:Ha; [|done].
  by rewrite (prefix_lookup_Some _ _ _ _ Ha Hpre).
Qed.

Lemma rules_at_prefix (h h' : Store) array rules :
  h `prefix_of` h' -> rules_at h array = Some rules -> rules_at h' array = Some rules.
Proof.
  intros Hpre. unfold rules_at.
  destruct (h !! array) as [o|] eqn:Ha; [|done].
  rewrite (prefix_lookup_Some _ _ _ _ Ha Hpre).
  destruct o as [|elements]; [done|].
  intros Hm. apply mapM_Some in Hm. apply mapM_Some.
  eapply Forall2_impl; [exact Hm|]. intros a rule. by apply rule_at_prefix.
Qed.

Local Open Scope Z_scope.

(** ** Patterns whose matches begin with a given character *)

Section Begins.
Variable unicode_letter : Z -> bool.
Variable rer : RegExp.RegExp.
Variable Input : JSString.
Import RegExp.

Lemma zero_width_Matches r x y :
  zero_width r = true -> Matches unicode_letter rer Input r Forward x y ->
  endIndex y = endIndex x.
Proof.
  destruct r; try discriminate; simpl; intros _ H.
  - by subst.
  - destruct negative; [by subst|]. destruct H as (z & _ & ->). done.
  - destruct H as [_ ->]. done.
  - destruct H as [_ ->]. done.
Qed.

Lemma Matches_begins ch r :
  begins ch r = true ->
  forall x y,
    Matches unicode_letter rer Input r Forward x y ->
    exists ch' e',
      read_forward rer Input (endIndex x) = Some (ch', e')
      /\ canonicalize rer ch' = canonicalize rer ch.
Proof.
  induction r as [|invert atoms|r1 IH1 r2 IH2|r1 IH1 r2 IH2|min max greedy r IH
                  |n r IH|ahead negative r IH| |]; simpl; intros Hb x y H;
    try discriminate.
  - destruct invert; [discriminate|].
    destruct atoms as [|[c| | | | | |] [|]]; try discriminate.
    apply Z.eqb_eq in Hb. subst c.
    destruct H as (ch' & Hr & Hc & _).
    exists ch', (endIndex y). split; [done|].
    unfold class_matches in Hc. simpl in Hc.
    rewrite orb_false_r in Hc. by apply Z.eqb_eq in Hc.
  - destruct H as (z & H1 & H2).
    apply orb_true_iff in Hb as [Hb|Hb]; [eauto|].
    apply andb_true_iff in Hb as [Hz Hb].
    apply zero_width_Matches in H1; [|done].
    rewrite <- H1. eauto.
  - apply andb_true_iff in Hb as [? ?]. destruct H; eauto.
  - apply andb_true_iff in Hb as [Hl ?].
    destruct H as (k & Hk & Hit).
    assert (1 <= least min max)%nat by (destruct (least min max); [discriminate | lia]).
    destruct k as [|k]; [lia|]. destruct Hit as (z & Hz & _).
    apply IH in Hz; [|done]. done.
  - destruct H as (z & ? & _). eauto.
Qed.

Lemma read_forward_plain ch e e' :
  read_forward rer Input e = Some (ch, e') -> ch < 65536 -> Input !! e = Some ch.
Proof.
  unfold read_forward. intros H Hlt.
  destruct (Input !! e) as [c|]; [|discriminate].
  destruct (Input !! S e) as [d|]; [|by inversion H].
  destruct (unicode rer && is_lead c && is_trail d) eqn:Hp; [|by inversion H].
  apply andb_true_iff in Hp as [Hp Ht]. apply andb_true_iff in Hp as [_ Hl].
  inversion H; subst. pose proof (code_point_astral c d Hl Ht). lia.
Qed.

(** Where the input does not hold the character a pattern begins with, the
    pattern does not match: the guarded matcher is the matcher. *)
Lemma guarded_match_at ch :
  begins ch (pattern rer) = true -> plain ch = true ->
  forall i, match_at unicode_letter rer Input i
            = guarded ch Input (match_at unicode_letter rer Input) i.
Proof.
  intros Hb Hp i. unfold guarded.
  destruct (match_at unicode_letter rer Input i) as [y|] eqn:Hm.
  - unfold match_at in Hm. apply matcher_sound in Hm as (y' & Hy & _).
    eapply Matches_begins in Hy as (ch' & e' & Hr & Hc); [|done].
    apply canonicalize_plain in Hc; [|done]. subst ch'.
    apply read_forward_plain in Hr; [|unfold plain in Hp; lia].
    simpl in Hr. by rewrite Hr, Z.eqb_refl.
  - destruct (Input !! i); [|done]. by destruct (_ =? _).
Qed.

Lemma exec_ext (m m' : nat -> option MatchState) :
  (forall i, m i = m' i) ->
  forall n i, exec rer Input m n i = exec rer Input m' n i.
Proof.
  intros Hext. induction n as [|n IH]; intros i; simpl; rewrite Hext;
    destruct (length Input <? i)%nat; try done; destruct (m' i); auto.
Qed.

Lemma results_ext (m m' : nat -> option MatchState) :
  (forall i, m i = m' i) ->
  forall n i, results rer Input m n i = results rer Input m' n i.
Proof.
  intros Hext. induction n as [|n IH]; intros i; simpl;
    rewrite (exec_ext m m' Hext); destruct (exec _ _ _ _ _) as [[j y]|]; try done.
  destruct (global rer); [|done]. by rewrite IH.
Qed.

End Begins.

Lemma absent_not_elem ch value : absent ch value = true -> ch ∉ value.
Proof.
  unfold absent. rewrite forallb_forall. intros H Hin.
  apply list_elem_of_In, H in Hin. by rewrite Z.eqb_refl in Hin.
Qed.

(** ** The rules on a given text, one after the other *)

Section Pipeline.
Variable unicode_letter : Z -> bool.

Lemma substitute_guarded ch value rule :
  begins ch (RegExp.pattern (fst rule)) = true -> plain ch = true ->
  substitute unicode_letter value rule
  = assemble value (snd rule)
      (RegExp.results (fst rule) value
         (guarded ch value (RegExp.match_at unicode_letter (fst rule) value))
         (length value + 1) 0)
      0 [].
Proof.
  intros Hb Hp. unfold substitute, replace. f_equal.
  apply results_ext. by apply guarded_match_at.
Qed.

Lemma inert_substitute value rule :
  inert value rule = true -> substitute unicode_letter value rule = Normal value.
Proof.
  unfold inert. rewrite existsb_exists. intros (ch & _ & H).
  apply andb_true_iff in H as [H Ha]. apply andb_true_iff in H as [Hp Hr].
  eapply substitute_requires; eauto. by apply absent_not_elem.
Qed.

Lemma transform_with_step rule rules value value' :
  substitute unicode_letter value rule = Normal value' ->
  transform_with unicode_letter (rule :: rules) value
  = transform_with unicode_letter rules value'.
Proof. intros H. simpl. by rewrite H. Qed.

Lemma transform_with_inert rules value :
  forallb (inert value) rules = true ->
  transform_with unicode_letter rules value = Normal value.
Proof.
  induction rules as [|rule rules IH]; simpl; [done|].
  intros H. apply andb_true_iff in H as [H1 H2].
  rewrite inert_substitute by done. simpl. auto.
Qed.

Lemma guess_by_resolved language value :
  property_key language ∉ Object_prototype ->
  guessUnicodePunctuation unicode_letter language value
  = transform_with unicode_letter (resolved (property_key language)) value.
Proof.
  intros Hp. unfold guessUnicodePunctuation.
  destruct (resolution_returns language Hp) as (rules & h & -> & Hr).
  unfold transform. by rewrite Hr.
Qed.

Lemma rules_at_markup :
  rules_at initial_store transformationRulesToPreserveMarkup
  = Some ([encode_link; encode_url; bold_in; italic_in] ++ defaultRules
          ++ [bold_out; italic_out; decode_url; decode_link]).
Proof. reflexivity. Qed.

End Pipeline.

(** One rule of a pipeline on a given text: it needs a character the text
    does not hold, or it is run; a rule that consults the letter table is
    run where the text holds the character its matches begin with. *)
Ltac rule_step :=
  match goal with
  | |- transform_with ?L (?rule :: ?rules) ?v = _ =>
      first
        [ rewrite (transform_with_step L rule rules v v)
            by (apply inert_substitute; vm_compute; reflexivity)
        | let r := eval vm_compute in (substitute (fun _ => false) v rule) in
          lazymatch r with
          | Normal ?v' =>
              rewrite (transform_with_step L rule rules v v')
                by first
                     [ rewrite (substitute_guarded L QUOTATION_MARK)
                         by reflexivity; vm_compute; reflexivity
                     | rewrite (substitute_guarded L APOSTROPHE)
                         by reflexivity; vm_compute; reflexivity
                     | rewrite (substitute_guarded L HYPHEN_MINUS)
                         by reflexivity; vm_compute; reflexivity
                     | vm_compute; reflexivity ]
          end ]
  end.

Ltac pipeline := repeat rule_step; try reflexivity.

(** ** The order of the rules and of the matches *)

Section Order.
Variable unicode_letter : Z -> bool.

Lemma foldl_then_rule_Throw rules e :
  foldl (then_rule unicode_letter) (Throw e) rules = Throw e.
Proof. induction rules as [|rule rules IH]; simpl; [done | exact IH]. Qed.

Lemma transform_with_foldl rules value :
  transform_with unicode_letter rules value
  = foldl (then_rule unicode_letter) (Normal value) rules.
Proof.
  revert value. induction rules as [|rule rules IH]; intros value; simpl; [done|].
  destruct (substitute unicode_letter value rule) as [v|e]; simpl.
  - apply IH.
  - by rewrite foldl_then_rule_Throw.
Qed.

Lemma disjoint_from_le from from' results :
  (from' <= from)%nat -> disjoint_from from results -> disjoint_from from' results.
Proof. destruct results as [|[position y] rest]; simpl; [done|]. intros ? [? ?]. split; [lia|done]. Qed.

Lemma results_disjoint rer Input m n :
  forall lastIndex, disjoint_from lastIndex (RegExp.results rer Input m n lastIndex).
Proof.
  induction n as [|n IH]; intros lastIndex; simpl;
    destruct (RegExp.exec rer Input m (length Input) lastIndex) as [[i y]|] eqn:He;
    simpl; try done;
    apply exec_position in He as [[Hle _] _].
  - destruct (RegExp.global rer); simpl; done.
  - destruct (RegExp.global rer); simpl; [|done]. split; [done|].
    eapply disjoint_from_le; [|apply IH].
    destruct (_ <? _)%nat; [done|].
    pose proof (AdvanceStringIndex_gt rer Input (RegExp.endIndex y)). lia.
Qed.

Lemma fst_override values index rule : fst (override values index rule) = fst rule.
Proof. unfold override. by destruct (_ ≫= _). Qed.

Lemma fst_imap_override values (rules : list SubstitutionRule) :
  forall f : nat -> nat,
    fst <$> imap (fun i => override values (f i)) rules = fst <$> rules.
Proof.
  induction rules as [|rule rules IH]; intros f; simpl; [done|].
  rewrite fst_override. f_equal. apply (IH (f ∘ S)).
Qed.

Lemma resolved_matchers key :
  fst <$> take 12 (resolved key) = fst <$> defaultRules.
Proof.
  unfold resolved. rewrite take_app_length'.
  - apply (fst_imap_override _ _ id).
  - by rewrite length_imap.
Qed.

End Order.

(** ** A rule is a global find and replace *)

Section Search.
Variable rer : RegExp.RegExp.
Variable Input : JSString.
Variable m : nat -> option RegExp.MatchState.
Import RegExp.

Lemma lead_not_trail c : is_lead c = true -> is_trail c = false.
Proof. unfold is_lead, is_trail. lia. Qed.

(** The index after [from] and the searched indices. *)
Lemma searched_advance from j :
  searched rer Input from j -> j <> from ->
  searched rer Input (AdvanceStringIndex rer Input from) j.
Proof.
  intros [[Hle Hlen] [->|Hin]] Hne; [done|].
  unfold searched, AdvanceStringIndex, read_forward.
  destruct (Input !! from) as [c|] eqn:Hc;
    [|apply lookup_ge_None_1 in Hc; lia].
  destruct (Input !! S from) as [d|] eqn:Hd.
  - destruct (unicode rer && is_lead c && is_trail d) eqn:Hpair.
    + apply andb_true_iff in Hpair as [Hpair Htrail].
      apply andb_true_iff in Hpair as [Hu Hlead].
      assert (j <> S from).
      { intros ->. unfold inside_pair in Hin. rewrite Hu, Hc, Hd, Hlead, Htrail in Hin.
        discriminate. }
      split; [lia | by right].
    + split; [lia | by right].
  - split; [lia | by right].
Qed.

Lemma advance_searched from j :
  (from <= length Input)%nat ->
  searched rer Input (AdvanceStringIndex rer Input from) j ->
  searched rer Input from j /\ (from < j)%nat.
Proof.
  intros Hfrom [[Hle Hlen] Hj].
  pose proof (AdvanceStringIndex_gt rer Input from) as Hgt.
  split; [|lia]. split; [lia|]. right.
  destruct Hj as [->|Hj]; [|done].
  unfold AdvanceStringIndex, read_forward in *.
  unfold inside_pair.
  destruct (unicode rer) eqn:Hu; [|done]. cbn [andb].
  destruct (Input !! from) as [c|] eqn:Hc.
  - destruct (Input !! S from) as [d|] eqn:Hd.
    + cbn [andb] in *. destruct (is_lead c && is_trail d) eqn:Hpair.
      * apply andb_true_iff in Hpair as [_ Htrail].
        rewrite Hd. destruct (Input !! S (S from)); [|done].
        destruct (is_lead d) eqn:Hlead; [|done].
        apply lead_not_trail in Hlead. congruence.
      * rewrite Hc, Hd. exact Hpair.
    + rewrite Hc, Hd. done.
  - rewrite Hc. done.
Qed.

(** The search for the next match finds the first searched index with a
    match, and finds none only when there is none. *)
Lemma exec_searched n :
  forall from, (length Input - from <= n)%nat ->
    match exec rer Input m n from with
    | Some (i, y) =>
        searched rer Input from i /\ m i = Some y
        /\ (forall j, searched rer Input from j -> (j < i)%nat -> m j = None)
    | None => forall j, searched rer Input from j -> m j = None
    end.
Proof.
  induction n as [|n IH]; intros from Hn; simpl.
  - destruct (length Input <? from)%nat eqn:Hlt.
    + apply Nat.ltb_lt in Hlt. intros j [[? ?] _]. lia.
    + apply Nat.ltb_ge in Hlt. assert (from = length Input) as -> by lia.
      destruct (m (length Input)) as [y|] eqn:Hm.
      * split; [split; [lia | by left]|]. split; [done|].
        intros j [[? ?] _] ?. lia.
      * intros j [[? ?] _]. assert (j = length Input) as -> by lia. done.
  - destruct (length Input <? from)%nat eqn:Hlt.
    + apply Nat.ltb_lt in Hlt. intros j [[? ?] _]. lia.
    + apply Nat.ltb_ge in Hlt.
      destruct (m from) as [y|] eqn:Hm.
      * split; [split; [lia | by left]|]. split; [done|].
        intros j [[? ?] _] ?. lia.
      * pose proof (AdvanceStringIndex_gt rer Input from) as Hgt.
        specialize (IH (AdvanceStringIndex rer Input from)).
        destruct (exec rer Input m n (AdvanceStringIndex rer Input from))
          as [[i y]|].
        -- destruct IH as (Hi & Hy & Hnone); [lia|].
           apply advance_searched in Hi as [Hi Hlt']; [|done].
           split; [done|]. split; [done|].
           intros j Hj Hji. destruct (decide (j = from)) as [->|Hne]; [done|].
           apply Hnone; [by apply searched_advance | done].
        -- intros j Hj. destruct (decide (j = from)) as [->|Hne]; [done|].
           apply IH; [lia | by apply searched_advance].
Qed.

(** The results of a search with flag g are all the matches. *)
Lemma results_all_matches :
  global rer = true ->
  (forall i y, m i = Some y -> (i <= endIndex y)%nat) ->
  forall n from, (length Input + 1 - from <= n)%nat ->
    all_matches m rer Input from (results rer Input m n from).
Proof.
  intros Hg Hm. induction n as [|n IH]; intros from Hn.
  - assert (Hnone : exec rer Input m (length Input) from = None)
      by (apply exec_beyond; lia).
    rewrite results_nil by done. intros j [[? ?] _]. lia.
  - rewrite results_unfold.
    pose proof (exec_searched (length Input) from) as He.
    destruct (exec rer Input m (length Input) from) as [[i y]|];
      [|intros j Hj; apply He; [lia | done]].
    destruct He as (Hi & Hy & Hnone); [lia|].
    rewrite Hg. cbn [all_matches]. split; [done|]. split; [done|]. split; [done|].
    apply IH. unfold search_after.
    destruct Hi as [[? ?] _]. apply Hm in Hy.
    pose proof (AdvanceStringIndex_gt rer Input (endIndex y)).
    destruct (i <? endIndex y)%nat eqn:E; [apply Nat.ltb_lt in E|]; lia.
Qed.

(** All the matches of a search are these and no others. *)
Lemma all_matches_unique found :
  forall found' from,
    all_matches m rer Input from found -> all_matches m rer Input from found' ->
    found = found'.
Proof.
  induction found as [|[i y] rest IH]; intros [|[i' y'] rest'] from; cbn [all_matches].
  - done.
  - intros Hnone (Hi & Hy & _). rewrite Hnone in Hy; done.
  - intros (Hi & Hy & _) Hnone. rewrite Hnone in Hy; done.
  - intros (Hi & Hy & Hbefore & Hrest) (Hi' & Hy' & Hbefore' & Hrest').
    assert (i = i') as <-.
    { destruct (Nat.lt_trichotomy i i') as [Hlt|[->|Hlt]]; [|done|].
      - rewrite (Hbefore' i Hi Hlt) in Hy. done.
      - rewrite (Hbefore i' Hi' Hlt) in Hy'. done. }
    assert (y = y') as <- by congruence.
    f_equal. by eapply IH.
Qed.

End Search.

Section GlobalReplace.
Variable unicode_letter : Z -> bool.
Import RegExp.

Lemma replaced_from_unique str replaceValue found :
  forall from out out',
    replaced_from str replaceValue from found out ->
    replaced_from str replaceValue from found out' -> out = out'.
Proof.
  induction found as [|[i y] rest IH]; intros from out out'; cbn [replaced_from].
  - congruence.
  - intros (r & tail & Hr & Htail & ->) (r' & tail' & Hr' & Htail' & ->).
    assert (r = r') as <- by congruence.
    by rewrite (IH _ _ _ Htail Htail').
Qed.

(** A match that starts inside the input ends inside it. *)
Lemma match_at_bounded rer Input i y :
  match_at unicode_letter rer Input i = Some y ->
  (i <= length Input)%nat -> (endIndex y <= length Input)%nat.
Proof.
  intros H Hi. apply matcher_sound in H as (y' & Hy & Heq). inversion Heq; subst.
  by apply Matches_bounded in Hy.
Qed.

(** The second loop of the replacement, on all the matches of a search. *)
Lemma assemble_replaced rer str replaceValue found :
  forall from next acc out,
    all_matches (match_at unicode_letter rer str) rer str from found ->
    (next <= from)%nat ->
    assemble str replaceValue found next acc = Normal out ->
    exists tail, out = acc ++ tail /\ replaced_from str replaceValue next found tail.
Proof.
  induction found as [|[i y] rest IH]; intros from next acc out; cbn [all_matches].
  - intros _ _ H. simpl in H. inversion H; subst. by eexists.
  - intros ([[Hfrom Hlen] _] & Hy & _ & Hrest) Hnext H.
    pose proof (match_at_ordered _ _ _ _ _ Hy) as Hle.
    pose proof (match_at_bounded _ _ _ _ Hy Hlen) as Hend.
    cbn [assemble] in H.
    change (match replaceValue with
            | Template t =>
                Normal (GetSubstitution (substring str i (endIndex y)) str i
                          (capture_strings str y) t)
            | Computed f => f (substring str i (endIndex y)) (capture_strings str y)
            end) with (replacement_of str replaceValue i y) in H.
    destruct (replacement_of str replaceValue i y) as [r|e] eqn:Hr; [|discriminate].
    cbn [cbind] in H.
    replace (next <=? i)%nat with true in H by (symmetry; apply Nat.leb_le; lia).
    replace (i + length (substring str i (endIndex y)))%nat with (endIndex y) in H
      by (unfold substring; rewrite length_take, length_drop; lia).
    eapply IH in H as (tail & -> & Htail); [|exact Hrest|].
    + exists (substring str next i ++ r ++ tail). split; [by rewrite <- !app_assoc|].
      cbn [replaced_from]. by exists r, tail.
    + unfold search_after. pose proof (AdvanceStringIndex_gt rer str (endIndex y)).
      destruct (i <? endIndex y)%nat; lia.
Qed.

(** What [replace] returns with a pattern with flag g is a global find and
    replace. *)
Lemma substitute_replaces_all value rule out :
  global (fst rule) = true ->
  substitute unicode_letter value rule = Normal out ->
  replaces_all unicode_letter rule value out.
Proof.
  intros Hg H. split; [done|].
  exists (results (fst rule) value (match_at unicode_letter (fst rule) value)
            (length value + 1) 0).
  assert (Hall : all_matches (match_at unicode_letter (fst rule) value) (fst rule) value 0
                   (results (fst rule) value (match_at unicode_letter (fst rule) value)
                      (length value + 1) 0)).
  { apply results_all_matches; [done | apply match_at_ordered | lia]. }
  split; [exact Hall|].
  unfold substitute, replace in H.
  eapply assemble_replaced in H as (tail & -> & Htail); [|exact Hall | lia].
  exact Htail.
Qed.

Lemma replaces_all_unique rule value out out' :
  replaces_all unicode_letter rule value out ->
  replaces_all unicode_letter rule value out' -> out = out'.
Proof.
  intros [_ (found & Hall & Hout)] [_ (found' & Hall' & Hout')].
  rewrite <- (all_matches_unique _ _ _ _ _ _ Hall Hall') in Hout'.
  eapply replaced_from_unique; eauto.
Qed.

Lemma transform_with_applied rules :
  Forall (fun rule => global (fst rule) = true) rules ->
  forall value out,
    transform_with unicode_letter rules value = Normal out ->
    applied_in_order unicode_letter rules value out.
Proof.
  induction 1 as [|rule rules Hg _ IH]; intros value out H; simpl in H.
  - by inversion H.
  - destruct (substitute unicode_letter value rule) as [mid|] eqn:Hmid; [|discriminate].
    simpl in H. exists mid. split; [by apply substitute_replaces_all | by apply IH].
Qed.

Lemma applied_in_order_app rules rules' value mid out :
  applied_in_order unicode_letter rules value mid ->
  applied_in_order unicode_letter rules' mid out ->
  applied_in_order unicode_letter (rules ++ rules') value out.
Proof.
  revert value. induction rules as [|rule rules IH]; intros value; simpl.
  - by intros ->.
  - intros (v & Hv & Hrest) Hout. exists v. split; [done | by apply IH].
Qed.

Lemma applied_in_order_unique rules :
  forall value out out',
    applied_in_order unicode_letter rules value out ->
    applied_in_order unicode_letter rules value out' -> out = out'.
Proof.
  induction rules as [|rule rules IH]; intros value out out'; simpl.
  - congruence.
  - intros (mid & Hmid & Hout) (mid' & Hmid' & Hout').
    rewrite <- (replaces_all_unique _ _ _ _ Hmid Hmid') in Hout'. eauto.
Qed.

End GlobalReplace.

Section PipelineOrder.
Variable unicode_letter : Z -> bool.

Lemma resolved_global key :
  Forall (fun rule => RegExp.global (fst rule) = true) (resolved key).
Proof.
  destruct (resolved_cases key) as (dq & sq & ap & hy & extra & -> & _ & _ & Hextra).
  apply Forall_app_2; [by repeat constructor|].
  destruct Hextra as [-> | [-> | [-> | ->]]]; by repeat constructor.
Qed.

Lemma transform_with_split rules rules' value out :
  transform_with unicode_letter (rules ++ rules') value = Normal out ->
  exists mid,
    transform_with unicode_letter rules value = Normal mid
    /\ transform_with unicode_letter rules' mid = Normal out.
Proof.
  rewrite transform_with_app.
  destruct (transform_with unicode_letter rules value) as [mid|]; [|discriminate].
  simpl. eauto.
Qed.

End PipelineOrder.

(** A key that is no property of [Object.prototype]. *)
Ltac not_inherited := apply (bool_decide_eq_false_1 _); reflexivity.

(** ** Runs of digit groups *)

Section Runs.
Variable unicode_letter : Z -> bool.
Variable r0 : RegExp.Regex.
Variable Input : JSString.
Import RegExp.

Abbreviation rer := (g r0).
Abbreviation matcher := (RegExp.matcher unicode_letter rer Input).

Lemma read_forward_unit_g e c :
  Input !! e = Some c -> read_forward rer Input e = Some (c, S e).
Proof. unfold read_forward. intros ->. simpl. by destruct (Input !! S e). Qed.

Lemma matcher_lit ch x c :
  Input !! endIndex x = Some ch ->
  matcher (lit ch) Forward x c = c {| endIndex := S (endIndex x); captures := captures x |}.
Proof.
  intros H. simpl. rewrite (read_forward_unit_g _ _ H).
  unfold class_matches. simpl. unfold canonicalize. simpl.
  by rewrite Z.eqb_refl.
Qed.

Lemma matcher_digit_end x c :
  match Input !! endIndex x with
  | Some p => is_digit p = false
  | None => True
  end ->
  matcher digit Forward x c = None.
Proof.
  intros H. simpl. unfold read_forward.
  destruct (Input !! endIndex x) as [p|]; [|done].
  destruct (Input !! S (endIndex x)); simpl; unfold class_matches; simpl;
    by rewrite H.
Qed.

Lemma matcher_digit x c d :
  Input !! endIndex x = Some d -> is_digit d = true ->
  matcher digit Forward x c = c {| endIndex := S (endIndex x); captures := captures x |}.
Proof.
  intros H Hd. simpl. rewrite (read_forward_unit_g _ _ H).
  unfold class_matches. simpl. by rewrite Hd.
Qed.

(** The greedy loop over a run of digits hands the end of the run to its
    continuation first. *)
Lemma repeat_digits ds :
  forall pre post fuel min caps c z,
    Input = pre ++ ds ++ post ->
    Forall (fun d => is_digit d = true) ds ->
    match post with p :: _ => is_digit p = false | [] => True end ->
    (length ds < fuel)%nat -> (min <= length ds)%nat ->
    c {| endIndex := length (pre ++ ds); captures := caps |} = Some z ->
    RepeatMatcher (matcher digit Forward) [] true fuel min None
      {| endIndex := length pre; captures := caps |} c = Some z.
Proof.
  induction ds as [|d ds IH]; intros pre post fuel min caps c z HI Hds Hpost Hfuel Hmin Hc.
  - destruct fuel as [|fuel]; [simpl in Hfuel; lia|].
    simpl in Hmin. assert (min = 0%nat) as -> by lia.
    rewrite app_nil_r in Hc.
    cbn [RepeatMatcher]. cbn [clear_captures foldr endIndex captures].
    rewrite matcher_digit_end; [done|]. cbn [endIndex].
    subst Input. simpl. destruct post as [|p post].
    + by rewrite lookup_ge_None_2 by (rewrite app_nil_r; lia).
    + by rewrite list_lookup_middle.
  - destruct fuel as [|fuel]; [simpl in Hfuel; lia|].
    apply Forall_cons in Hds as [Hd Hds].
    assert (Hlook : Input !! length pre = Some d)
      by (subst Input; simpl; by rewrite list_lookup_middle).
    assert (Hrec : RepeatMatcher (matcher digit Forward) [] true fuel (pred min) None
                     {| endIndex := S (length pre); captures := caps |} c = Some z).
    { replace (S (length pre)) with (length (pre ++ [d]))
        by (rewrite length_app; simpl; lia).
      apply (IH (pre ++ [d]) post); try done.
      - by rewrite <- app_assoc.
      - simpl in Hfuel. lia.
      - simpl in Hmin. lia.
      - by rewrite <- app_assoc. }
    cbn [RepeatMatcher]. cbn [clear_captures foldr endIndex captures].
    rewrite (matcher_digit _ _ d) by done. cbn [endIndex captures].
    replace (Nat.eqb (S (length pre)) (length pre)) with false
      by (symmetry; apply Nat.eqb_neq; lia).
    rewrite andb_false_r. simpl fmap. rewrite Hrec.
    by destruct (negb (Nat.eqb min 0)).
Qed.

Lemma plus_digit_run ds pre post caps c z :
  Input = pre ++ ds ++ post ->
  digit_group ds ->
  match post with p :: _ => is_digit p = false | [] => True end ->
  c {| endIndex := length (pre ++ ds); captures := caps |} = Some z ->
  matcher (plus digit) Forward {| endIndex := length pre; captures := caps |} c = Some z.
Proof.
  intros HI [Hne Hds] Hpost Hc. unfold plus. cbn [RegExp.matcher].
  eapply repeat_digits; eauto.
  - subst Input. rewrite !length_app. lia.
  - destruct ds; [done | simpl; lia].
Qed.

Lemma tail_starts_with_separator (rest : list JSString) :
  match flat_map (fun g => HYPHEN_MINUS :: g) rest with
  | p :: _ => is_digit p = false
  | [] => True
  end.
Proof. destruct rest; simpl; done. Qed.

Lemma repeat_groups rest :
  forall pre fuel min caps,
    Input = pre ++ flat_map (fun g => HYPHEN_MINUS :: g) rest ->
    Forall digit_group rest ->
    (length rest < fuel)%nat -> (min <= length rest)%nat ->
    exists caps',
      RepeatMatcher (matcher more_groups Forward) [1%nat] true fuel min None
        {| endIndex := length pre; captures := caps |} Some
      = Some {| endIndex := length Input; captures := caps' |}.
Proof.
  induction rest as [|group rest IH]; intros pre fuel min caps HI Hrest Hfuel Hmin.
  - destruct fuel as [|fuel]; [simpl in Hfuel; lia|].
    simpl in Hmin. assert (min = 0%nat) as -> by lia.
    simpl in HI. rewrite app_nil_r in HI.
    exists caps. cbn [RepeatMatcher]. cbn [endIndex captures].
    assert (Hend : Input !! length pre = None)
      by (subst Input; apply lookup_ge_None_2; lia).
    assert (matcher more_groups Forward
              {| endIndex := length pre;
                 captures := clear_captures [1%nat] caps |}
              (fun y => if Nat.eqb 0 0 && Nat.eqb (endIndex y) (length pre) then None
                        else RepeatMatcher (matcher more_groups Forward) [1%nat] true fuel
                               (pred 0) (pred <$> None) y Some) = None) as ->.
    { unfold more_groups. cbn [RegExp.matcher]. unfold lit. cbn [RegExp.matcher read].
      unfold read_forward. cbn [endIndex]. by rewrite Hend. }
    simpl. by subst Input.
  - destruct fuel as [|fuel]; [simpl in Hfuel; lia|].
    apply Forall_cons in Hrest as [Hgroup Hrest].
    simpl in HI.
    assert (Hsep : Input !! length pre = Some HYPHEN_MINUS)
      by (subst Input; by rewrite list_lookup_middle).
    set (cleared := clear_captures [1%nat] caps).
    set (caps1 := set_capture Forward 1 (length pre)
                    (length ((pre ++ [HYPHEN_MINUS]) ++ group)) cleared).
    destruct (IH (pre ++ HYPHEN_MINUS :: group) fuel (pred min) caps1)
      as (caps' & Hrec); try done.
    { subst Input. by rewrite <- app_assoc. }
    { simpl in Hfuel. lia. }
    { simpl in Hmin. lia. }
    exists caps'. cbn [RepeatMatcher]. cbn [endIndex captures]. fold cleared.
    set (d := fun y : MatchState => _).
    assert (Hm : matcher more_groups Forward
                   {| endIndex := length pre; captures := cleared |} d
                 = Some {| endIndex := length Input; captures := caps' |}).
    { unfold more_groups. cbn [RegExp.matcher].
      rewrite matcher_lit by done. cbn [endIndex captures].
      replace (S (length pre)) with (length (pre ++ [HYPHEN_MINUS]))
        by (rewrite length_app; simpl; lia).
      eapply (plus_digit_run group (pre ++ [HYPHEN_MINUS])
                (flat_map (fun g => HYPHEN_MINUS :: g) rest)); try done.
      - subst Input. by rewrite <- !app_assoc.
      - apply tail_starts_with_separator.
      - cbn [endIndex captures]. subst d. cbn beta.
        cbn [endIndex captures].
        replace (Nat.eqb (length ((pre ++ [HYPHEN_MINUS]) ++ group)) (length pre))
          with false by (symmetry; apply Nat.eqb_neq; rewrite !length_app; simpl; lia).
        rewrite andb_false_r. simpl fmap.
        replace (length (pre ++ [HYPHEN_MINUS])) with (S (length pre))
          by (rewrite length_app; simpl; lia).
        replace (length ((pre ++ [HYPHEN_MINUS]) ++ group))
          with (length (pre ++ HYPHEN_MINUS :: group))
          by (by rewrite <- app_assoc).
        subst caps1.
        replace (length ((pre ++ [HYPHEN_MINUS]) ++ group))
          with (length (pre ++ HYPHEN_MINUS :: group)) in Hrec
          by (by rewrite <- app_assoc).
        exact Hrec. }
    rewrite Hm. by destruct (negb (Nat.eqb min 0)).
Qed.

End Runs.

Section DigitGroups.
Variable unicode_letter : Z -> bool.
Import RegExp.

Lemma digit_not_separator (group : JSString) :
  Forall (fun c => is_digit c = true) group -> HYPHEN_MINUS ∉ group.
Proof.
  intros H Hin. eapply Forall_forall in H; [|exact Hin]. discriminate.
Qed.

Lemma replaceAll_digits group replacement :
  Forall (fun c => is_digit c = true) group ->
  replaceAll group HYPHEN_MINUS replacement = group.
Proof.
  unfold replaceAll. induction 1 as [|c group Hc _ IH]; [done|].
  rewrite fmap_cons, IH.
  destruct (c =? HYPHEN_MINUS) eqn:E; [|done].
  apply Z.eqb_eq in E. subst c. discriminate.
Qed.

Lemma replaceAll_app s1 s2 search replacement :
  replaceAll (s1 ++ s2) search replacement
  = replaceAll s1 search replacement ++ replaceAll s2 search replacement.
Proof. unfold replaceAll. by rewrite fmap_app. Qed.

Lemma replaceAll_joined groups replacement :
  Forall digit_group groups ->
  replaceAll (joined HYPHEN_MINUS groups) HYPHEN_MINUS replacement
  = joined replacement groups.
Proof.
  destruct groups as [|group rest]; [done|]. intros H.
  apply Forall_cons in H as [[_ Hg] Hrest]. simpl.
  rewrite replaceAll_app, replaceAll_digits by done. f_equal.
  induction Hrest as [|g rest [_ Hg'] _ IH]; [done|]. simpl.
  change (HYPHEN_MINUS :: g ++ flat_map (fun g0 => HYPHEN_MINUS :: g0) rest)
    with ([HYPHEN_MINUS] ++ g ++ flat_map (fun g0 => HYPHEN_MINUS :: g0) rest).
  rewrite !replaceAll_app, replaceAll_digits, IH by done. reflexivity.
Qed.

Lemma joined_nonempty separator groups :
  Forall digit_group groups -> groups <> [] -> joined separator groups <> [].
Proof.
  destruct groups as [|group rest]; [done|]. intros H _.
  apply Forall_cons in H as [[Hne _] _]. simpl. by destruct group.
Qed.

(** A match that covers the whole input is the only result. *)
Lemma results_whole rer (Input : JSString) y :
  global rer = true -> Input <> [] ->
  match_at unicode_letter rer Input 0 = Some y -> endIndex y = length Input ->
  match_at unicode_letter rer Input (length Input) = None ->
  results rer Input (match_at unicode_letter rer Input) (length Input + 1) 0 = [(0%nat, y)].
Proof.
  intros Hg Hne H0 He Hend.
  rewrite Nat.add_1_r, results_unfold, exec_unfold, H0, Hg.
  replace (length Input <? 0)%nat with false by (symmetry; apply Nat.ltb_ge; lia).
  rewrite He.
  replace (0 <? length Input)%nat with true
    by (symmetry; apply Nat.ltb_lt; destruct Input; [done | simpl; lia]).
  rewrite results_nil; [done|].
  rewrite exec_unfold, Nat.ltb_irrefl, Hend.
  apply exec_beyond. apply AdvanceStringIndex_gt.
Qed.

Lemma assemble_whole (Input : JSString) replaceValue y replacement :
  endIndex y = length Input ->
  match replaceValue with
  | Template t => Normal (GetSubstitution Input Input 0 (capture_strings Input y) t)
  | Computed f => f Input (capture_strings Input y)
  end = Normal replacement ->
  assemble Input replaceValue [(0%nat, y)] 0 [] = Normal replacement.
Proof.
  intros He Hr. simpl. rewrite He. unfold substring. rewrite Nat.sub_0_r, drop_0.
  rewrite firstn_all. rewrite Hr. simpl.
  by rewrite drop_all, app_nil_r.
Qed.

(** Three or more digit groups: the figure dash rule matches all of them. *)
Lemma figure_dashes_match (groups : list JSString) :
  Forall digit_group groups -> (3 <= length groups)%nat ->
  exists caps,
    match_at unicode_letter (fst figure_dashes) (joined HYPHEN_MINUS groups) 0
    = Some {| endIndex := length (joined HYPHEN_MINUS groups); captures := caps |}.
Proof.
  destruct groups as [|group rest]; [simpl; lia|].
  intros H Hlen. apply Forall_cons in H as [Hgroup Hrest]. simpl in Hlen.
  set (Input := joined HYPHEN_MINUS (group :: rest)).
  destruct (repeat_groups unicode_letter
              (plus digit <+> at_least 2 more_groups)%re Input rest group
              (2 + length Input + 1) 2 (replicate 1 None)) as (caps & Hrep);
    try done.
  { assert (length rest <= length Input)%nat; [|lia].
    subst Input. simpl. rewrite length_app.
    clear. induction rest as [|g rest IH]; simpl; [lia|].
    rewrite length_app. lia. }
  { lia. }
  exists caps. unfold match_at. simpl fst. simpl pattern.
  cbn [RegExp.matcher].
  apply (plus_digit_run unicode_letter _ Input group []
           (flat_map (fun g => HYPHEN_MINUS :: g) rest)); try done.
  apply tail_starts_with_separator.
Qed.

Lemma starts_with_digit_ends (rer : RegExp) (r : Regex) (Input : JSString) c :
  unicode rer = false ->
  RegExp.matcher unicode_letter rer Input (plus digit <+> r)%re Forward
    {| endIndex := length Input; captures := c |} Some = None.
Proof.
  intros Hu. unfold plus, digit. cbn [RegExp.matcher]. rewrite Nat.add_1_r.
  cbn [RepeatMatcher].
  cbn [negb Nat.eqb]. cbn [RegExp.matcher read endIndex]. unfold read_forward.
  by rewrite lookup_ge_None_2 by lia.
Qed.

Lemma figure_dashes_three_groups (groups : list JSString) :
  Forall digit_group groups -> (3 <= length groups)%nat ->
  substitute unicode_letter (joined HYPHEN_MINUS groups) figure_dashes
  = Normal (joined FIGURE_DASH groups).
Proof.
  intros H Hlen. destruct (figure_dashes_match groups H Hlen) as (caps & Hm).
  unfold substitute, replace.
  erewrite results_whole; [| done | | exact Hm | done |].
  - apply assemble_whole; [done|]. simpl. by rewrite replaceAll_joined.
  - apply joined_nonempty; [done|]. destruct groups; [simpl in Hlen; lia | done].
  - unfold match_at. simpl fst. simpl pattern.
    apply (starts_with_digit_ends (fst figure_dashes)). done.
Qed.

End DigitGroups.

Section TwoGroups.
Variable unicode_letter : Z -> bool.
Import RegExp.

Lemma separator_position (g1 g2 : JSString) p :
  Forall (fun c => is_digit c = true) g1 -> Forall (fun c => is_digit c = true) g2 ->
  (g1 ++ HYPHEN_MINUS :: g2) !! p = Some HYPHEN_MINUS -> p = length g1.
Proof.
  intros H1 H2 Hp.
  destruct (decide (p < length g1)%nat) as [Hlt|Hge].
  - rewrite lookup_app_l in Hp by done.
    apply list_elem_of_lookup_2, (digit_not_separator _ H1) in Hp. done.
  - destruct (decide (p = length g1)) as [|Hne]; [done|].
    rewrite lookup_app_r in Hp by lia.
    destruct (p - length g1)%nat as [|k] eqn:Hk; [lia|]. simpl in Hp.
    apply list_elem_of_lookup_2, (digit_not_separator _ H2) in Hp. done.
Qed.

(** Two digit groups hold one separator, and the figure dash rule needs
    two: it matches nowhere. *)
Lemma figure_dashes_two_groups (g1 g2 : JSString) :
  digit_group g1 -> digit_group g2 ->
  substitute unicode_letter (joined HYPHEN_MINUS [g1; g2]) figure_dashes
  = Normal (joined HYPHEN_MINUS [g1; g2]).
Proof.
  intros [_ H1] [_ H2]. apply replace_no_match. intros i.
  simpl joined. rewrite app_nil_r.
  set (Input := g1 ++ HYPHEN_MINUS :: g2).
  destruct (match_at _ _ _ i) as [z|] eqn:Hm; [|done].
  unfold match_at in Hm. apply matcher_sound in Hm as (y & Hy & _).
  change (pattern (fst figure_dashes))
    with (plus digit <+> Quant 2 None true (Group 1 (lit HYPHEN_MINUS <+> plus digit)))%re
    in Hy.
  cbn [Matches] in Hy. destruct Hy as (z1 & _ & n & Hn & Hit).
  destruct n as [|[|n]]; try (simpl in Hn; lia).
  cbn [iterate] in Hit.
  destruct Hit as (a & Ha & b & Hb & _).
  destruct Ha as (a' & (a1 & Ha1 & Ha2) & ->).
  destruct Hb as (b' & (b1 & Hb1 & _) & _).
  apply Matches_lit in Ha1 as (Hp1 & He1 & _); [|done..].
  apply Matches_lit in Hb1 as (Hp2 & _ & _); [|done..].
  apply Matches_ordered in Ha2. simpl in *.
  apply separator_position in Hp1; [|done..].
  apply separator_position in Hp2; [|done..].
  lia.
Qed.

Lemma range_dash_match (g1 g2 : JSString) :
  digit_group g1 -> digit_group g2 ->
  match_at unicode_letter (fst range_dash) (g1 ++ HYPHEN_MINUS :: g2) 0
  = Some {| endIndex := length (g1 ++ HYPHEN_MINUS :: g2);
            captures := [Some (0, length g1);
                         Some (S (length g1), length (g1 ++ HYPHEN_MINUS :: g2))]%nat |}.
Proof.
  intros Hg1 Hg2. set (Input := g1 ++ HYPHEN_MINUS :: g2).
  unfold match_at. simpl fst. simpl pattern. simpl nCaptures. simpl replicate.
  cbn [RegExp.matcher].
  apply (plus_digit_run unicode_letter _ Input g1 [] (HYPHEN_MINUS :: g2));
    try done.
  cbn [app length endIndex captures].
  rewrite matcher_lit by (by apply list_lookup_middle).
  cbn [RegExp.matcher endIndex captures].
  replace (S (length g1)) with (length (g1 ++ [HYPHEN_MINUS]))
    by (rewrite length_app; simpl; lia).
  apply (plus_digit_run unicode_letter _ Input g2 (g1 ++ [HYPHEN_MINUS]) []);
    try done.
  - subst Input. by rewrite app_nil_r, <- app_assoc.
  - cbn [endIndex captures]. subst Input.
    replace ((g1 ++ [HYPHEN_MINUS]) ++ g2) with (g1 ++ HYPHEN_MINUS :: g2)
      by (by rewrite <- app_assoc).
    rewrite (length_app g1 [HYPHEN_MINUS]). simpl length.
    replace (length g1 + 1)%nat with (S (length g1)) by lia.
    reflexivity.
Qed.

Lemma range_template matched str position (a b : JSString) :
  GetSubstitution matched str position [Some a; Some b]
    (u16 "$1" ++ [EN_DASH] ++ u16 "$2")
  = a ++ EN_DASH :: b.
Proof.
  change (u16 "$1" ++ [EN_DASH] ++ u16 "$2")
    with [DOLLAR_SIGN; 49; EN_DASH; DOLLAR_SIGN; 50].
  cbn -[app]. by rewrite app_nil_r.
Qed.

Lemma range_dash_two_groups (g1 g2 : JSString) :
  digit_group g1 -> digit_group g2 ->
  substitute unicode_letter (joined HYPHEN_MINUS [g1; g2]) range_dash
  = Normal (joined EN_DASH [g1; g2]).
Proof.
  intros Hg1 Hg2. simpl joined. rewrite !app_nil_r.
  unfold substitute, replace.
  erewrite results_whole; [| done | | by apply range_dash_match | done |].
  - apply assemble_whole; [done|].
    change (snd range_dash) with (Template (u16 "$1" ++ [EN_DASH] ++ u16 "$2")).
    unfold capture_strings. cbn [captures map option_map fst snd].
    rewrite range_template. do 2 f_equal.
    + unfold substring. by rewrite Nat.sub_0_r, drop_0, take_app_length.
    + unfold substring.
      replace (S (length g1)) with (length (g1 ++ [HYPHEN_MINUS]))
        by (rewrite length_app; simpl; lia).
      replace (g1 ++ HYPHEN_MINUS :: g2) with ((g1 ++ [HYPHEN_MINUS]) ++ g2)
        by (by rewrite <- app_assoc).
      rewrite drop_app_length. f_equal. apply take_ge. rewrite !length_app. lia.
  - by destruct g1.
  - unfold match_at. simpl fst. simpl pattern.
    unfold plus, digit. cbn [RegExp.matcher]. rewrite Nat.add_1_r.
    cbn [RepeatMatcher]. cbn [negb Nat.eqb]. cbn [RegExp.matcher read endIndex].
    unfold read_forward. by rewrite lookup_ge_None_2 by lia.
Qed.

Lemma joined_elem separator groups c :
  Forall digit_group groups -> c ∈ joined separator groups ->
  c = separator \/ is_digit c = true.
Proof.
  destruct groups as [|group rest]; simpl; [by intros _ ?%elem_of_nil|].
  intros H Hin. apply Forall_cons in H as [[_ Hg] Hrest].
  apply elem_of_app in Hin as [Hin|Hin].
  - right. eapply Forall_forall in Hg; eauto.
  - apply list_elem_of_In, in_flat_map in Hin as (g & Hg' & Hin).
    apply list_elem_of_In in Hg'. eapply Forall_forall in Hrest as [_ Hd]; [|exact Hg'].
    destruct Hin as [->|Hin]; [by left|]. right.
    apply list_elem_of_In in Hin. eapply Forall_forall in Hd; eauto.
Qed.

Lemma joined_lacks separator groups ch :
  Forall digit_group groups -> ch <> separator -> is_digit ch = false ->
  ch ∉ joined separator groups.
Proof.
  intros H Hs Hd Hin. apply (joined_elem _ _ _ H) in Hin as [?|?]; congruence.
Qed.

(** The rules before the date rule leave digit groups joined by hyphens
    alone. *)
Lemma before_date_rule groups rules :
  Forall digit_group groups ->
  transform_with unicode_letter
    ([double_quoted; n_idiom; single_quoted; double_primes; single_primes;
      apostrophes; ellipses; dash_separator] ++ rules) (joined HYPHEN_MINUS groups)
  = transform_with unicode_letter rules (joined HYPHEN_MINUS groups).
Proof.
  intros H. simpl app.
  pose proof (fun ch rule Hreq Hplain Hne Hd =>
                substitute_requires unicode_letter ch (joined HYPHEN_MINUS groups) rule
                  Hreq Hplain (joined_lacks HYPHEN_MINUS groups ch H Hne Hd)) as Hskip.
  rewrite (transform_with_step _ double_quoted _ _ _
             (Hskip QUOTATION_MARK double_quoted eq_refl eq_refl ltac:(discriminate) eq_refl)).
  rewrite (transform_with_step _ n_idiom _ _ _
             (Hskip APOSTROPHE n_idiom eq_refl eq_refl ltac:(discriminate) eq_refl)).
  rewrite (transform_with_step _ single_quoted _ _ _
             (Hskip APOSTROPHE single_quoted eq_refl eq_refl ltac:(discriminate) eq_refl)).
  rewrite (transform_with_step _ double_primes _ _ _
             (Hskip QUOTATION_MARK double_primes eq_refl eq_refl ltac:(discriminate) eq_refl)).
  rewrite (transform_with_step _ single_primes _ _ _
             (Hskip APOSTROPHE single_primes eq_refl eq_refl ltac:(discriminate) eq_refl)).
  rewrite (transform_with_step _ apostrophes _ _ _
             (Hskip APOSTROPHE apostrophes eq_refl eq_refl ltac:(discriminate) eq_refl)).
  rewrite (transform_with_step _ ellipses _ _ _
             (Hskip FULL_STOP ellipses eq_refl eq_refl ltac:(discriminate) eq_refl)).
  rewrite (transform_with_step _ dash_separator _ _ _
             (Hskip SPACE dash_separator eq_refl eq_refl ltac:(discriminate) eq_refl)).
  reflexivity.
Qed.

Lemma no_hyphen_left separator groups rules :
  Forall digit_group groups -> separator <> HYPHEN_MINUS ->
  Forall (fun rule => requires HYPHEN_MINUS (pattern (fst rule)) = true) rules ->
  transform_with unicode_letter rules (joined separator groups)
  = Normal (joined separator groups).
Proof.
  intros H Hs. induction 1 as [|rule rules Hr _ IH]; [done|].
  erewrite transform_with_step; [exact IH|].
  apply (substitute_requires _ HYPHEN_MINUS); [done | done|].
  apply joined_lacks; [done | congruence | done].
Qed.

End TwoGroups.

(** ** Digit groups of the shape of a date *)

Section ExactRuns.
Variable unicode_letter : Z -> bool.
Variable r0 : RegExp.Regex.
Variable Input : JSString.
Import RegExp.

(** A quantifier with a fixed count over as many digits. *)
Lemma repeat_exactly ds :
  forall pre post fuel caps c,
    Input = pre ++ ds ++ post ->
    Forall (fun d => is_digit d = true) ds ->
    (length ds < fuel)%nat ->
    RepeatMatcher (RegExp.matcher unicode_letter (g r0) Input digit Forward) [] true fuel
      (length ds) (Some (length ds)) {| endIndex := length pre; captures := caps |} c
    = c {| endIndex := length (pre ++ ds); captures := caps |}.
Proof.
  induction ds as [|d ds IH]; intros pre post fuel caps c HI Hds Hfuel.
  - destruct fuel as [|fuel]; [simpl in Hfuel; lia|].
    by rewrite app_nil_r.
  - destruct fuel as [|fuel]; [simpl in Hfuel; lia|].
    apply Forall_cons in Hds as [Hd Hds].
    assert (Hlook : Input !! length pre = Some d)
      by (subst Input; simpl; by rewrite list_lookup_middle).
    cbn [length RepeatMatcher]. cbn [clear_captures foldr endIndex captures negb Nat.eqb].
    rewrite (matcher_digit _ _ _ _ _ d) by done. cbn [endIndex captures andb pred fmap option_fmap option_map].
    replace (S (length pre)) with (length (pre ++ [d]))
      by (rewrite length_app; simpl; lia).
    rewrite (IH (pre ++ [d]) post); try done.
    + by rewrite <- app_assoc.
    + by rewrite <- app_assoc.
    + simpl in Hfuel. lia.
Qed.

Lemma exactly_digits n ds pre post caps c :
  Input = pre ++ ds ++ post ->
  length ds = n ->
  Forall (fun d => is_digit d = true) ds ->
  RegExp.matcher unicode_letter (g r0) Input (exactly n digit) Forward
    {| endIndex := length pre; captures := caps |} c
  = c {| endIndex := length (pre ++ ds); captures := caps |}.
Proof.
  intros HI <- Hds. unfold exactly. cbn [RegExp.matcher groups].
  apply (repeat_exactly ds pre post); [done | done|].
  subst Input. rewrite !length_app. lia.
Qed.

Lemma matcher_lit_end ch x c :
  Input !! endIndex x = None ->
  RegExp.matcher unicode_letter (g r0) Input (lit ch) Forward x c = None.
Proof.
  intros H. unfold lit. cbn [RegExp.matcher read]. unfold read_forward. by rewrite H.
Qed.

(** [(?=\W|$)] at the end of the input. *)
Lemma lookahead_end x c :
  endIndex x = length Input ->
  RegExp.matcher unicode_letter (g r0) Input (lookahead (Alt non_word AssertEnd)) Forward x c
  = c {| endIndex := endIndex x; captures := captures x |}.
Proof.
  intros He. unfold lookahead, non_word. cbn [RegExp.matcher read]. unfold read_forward.
  rewrite (lookup_ge_None_2 Input (endIndex x)) by lia.
  by rewrite He, Nat.eqb_refl.
Qed.

End ExactRuns.

(** An optional part: taken if it matches and the rest follows, left out
    otherwise. *)
Lemma matcher_opt unicode_letter r0 (Input : JSString) r x c :
  Input <> [] ->
  RegExp.matcher unicode_letter (g r0) Input (opt r) RegExp.Forward x c
  = match RegExp.matcher unicode_letter (g r0) Input r RegExp.Forward
            {| RegExp.endIndex := RegExp.endIndex x;
               RegExp.captures :=
                 RegExp.clear_captures (RegExp.groups r) (RegExp.captures x) |}
            (fun y => if Nat.eqb (RegExp.endIndex y) (RegExp.endIndex x) then None
                      else c y) with
    | Some z => Some z
    | None => c x
    end.
Proof.
  intros HI. destruct Input as [|a rest]; [done|].
  unfold opt. cbn [RegExp.matcher].
  replace (0 + length (a :: rest) + 1)%nat with (S (S (length rest)))
    by (simpl; lia).
  reflexivity.
Qed.

Section Dates.
Variable unicode_letter : Z -> bool.
Import RegExp.

Lemma date_shaped_cases groups :
  date_shaped groups ->
  exists y m,
    digit_group y /\ length y = 4%nat /\ digit_group m /\ length m = 2%nat
    /\ (groups = [y; m]
        \/ exists d, digit_group d /\ length d = 2%nat /\ groups = [y; m; d]).
Proof.
  intros [Hd [Hlen|Hlen]].
  - destruct groups as [|y [|m [|]]]; try discriminate.
    apply Forall_cons in Hd as [Hy Hd]. apply Forall_cons in Hd as [Hm _].
    inversion Hlen. exists y, m. tauto.
  - destruct groups as [|y [|m [|d [|]]]]; try discriminate.
    apply Forall_cons in Hd as [Hy Hd]. apply Forall_cons in Hd as [Hm Hd].
    apply Forall_cons in Hd as [Hdd _].
    inversion Hlen. exists y, m. do 4 (split; [done|]). right. by exists d.
Qed.

(** The date rule matches digit groups of its shape as a whole. *)
Lemma date_hyphens_match groups :
  date_shaped groups ->
  match_at unicode_letter (fst date_hyphens) (joined HYPHEN_MINUS groups) 0
  = Some {| endIndex := length (joined HYPHEN_MINUS groups); captures := [] |}.
Proof.
  intros H. apply date_shaped_cases in H
    as (y & m & [_ Hy] & Hly & [_ Hm] & Hlm & [->|(d & [_ Hd] & Hld & ->)]).
  - simpl joined. rewrite app_nil_r.
    remember (y ++ HYPHEN_MINUS :: m) as Input eqn:HI.
    assert (Hne : Input <> []) by (subst Input; by destruct y).
    assert (Hlen : length Input = length ((y ++ [HYPHEN_MINUS]) ++ m))
      by (subst Input; by rewrite <- app_assoc).
    unfold match_at.
    pose (r0 := (exactly 4 digit <+> lit HYPHEN_MINUS <+> exactly 2 digit <+>
                 opt (lit HYPHEN_MINUS <+> exactly 2 digit) <+>
                 lookahead (Alt non_word AssertEnd))%re).
    change (fst date_hyphens) with (g r0).
    change (pattern (g r0))
      with (exactly 4 digit <+> lit HYPHEN_MINUS <+> exactly 2 digit <+>
            opt (lit HYPHEN_MINUS <+> exactly 2 digit) <+>
            lookahead (Alt non_word AssertEnd))%re.
    change (replicate _ None) with (@nil (option (nat * nat))).
    cbn [RegExp.matcher].
    rewrite (exactly_digits unicode_letter r0 Input 4 y [] (HYPHEN_MINUS :: m)
               [] _ HI Hly Hy).
    rewrite matcher_lit by (subst Input; apply list_lookup_middle; done).
    cbn [endIndex captures app].
    replace (S (length y)) with (length (y ++ [HYPHEN_MINUS]))
      by (rewrite length_app; simpl; lia).
    rewrite (exactly_digits unicode_letter r0 Input 2 m (y ++ [HYPHEN_MINUS]) [])
      by (try done; subst Input; by rewrite app_nil_r, <- app_assoc).
    rewrite matcher_opt by done.
    cbn [RegExp.matcher endIndex captures].
    rewrite matcher_lit_end by (apply lookup_ge_None_2; cbn [endIndex]; lia).
    rewrite lookahead_end by (cbn [endIndex]; lia).
    cbn [endIndex captures]. by rewrite Hlen.
  - simpl joined. rewrite app_nil_r.
    remember (y ++ HYPHEN_MINUS :: m ++ HYPHEN_MINUS :: d) as Input eqn:HI.
    assert (Hne : Input <> []) by (subst Input; by destruct y).
    assert (HI' : Input = (y ++ [HYPHEN_MINUS]) ++ m ++ HYPHEN_MINUS :: d)
      by (subst Input; by rewrite <- app_assoc).
    assert (HI'' : Input = ((y ++ [HYPHEN_MINUS]) ++ m ++ [HYPHEN_MINUS]) ++ d ++ [])
      by (subst Input; by rewrite app_nil_r, <- !app_assoc).
    assert (Hlen : length Input
                   = length (((y ++ [HYPHEN_MINUS]) ++ m ++ [HYPHEN_MINUS]) ++ d))
      by (rewrite HI'' at 1; by rewrite app_nil_r).
    unfold match_at.
    pose (r0 := (exactly 4 digit <+> lit HYPHEN_MINUS <+> exactly 2 digit <+>
                 opt (lit HYPHEN_MINUS <+> exactly 2 digit) <+>
                 lookahead (Alt non_word AssertEnd))%re).
    change (fst date_hyphens) with (g r0).
    change (pattern (g r0))
      with (exactly 4 digit <+> lit HYPHEN_MINUS <+> exactly 2 digit <+>
            opt (lit HYPHEN_MINUS <+> exactly 2 digit) <+>
            lookahead (Alt non_word AssertEnd))%re.
    change (replicate _ None) with (@nil (option (nat * nat))).
    cbn [RegExp.matcher].
    rewrite (exactly_digits unicode_letter r0 Input 4 y []
               (HYPHEN_MINUS :: m ++ HYPHEN_MINUS :: d) [] _ HI Hly Hy).
    rewrite matcher_lit by (subst Input; apply list_lookup_middle; done).
    cbn [endIndex captures app].
    replace (S (length y)) with (length (y ++ [HYPHEN_MINUS]))
      by (rewrite length_app; simpl; lia).
    rewrite (exactly_digits unicode_letter r0 Input 2 m (y ++ [HYPHEN_MINUS])
               (HYPHEN_MINUS :: d) [] _ HI' Hlm Hm).
    rewrite matcher_opt by done.
    cbn [RegExp.matcher endIndex captures groups app clear_captures foldr].
    rewrite matcher_lit
      by (cbn [endIndex]; rewrite HI', app_assoc; apply list_lookup_middle; done).
    cbn [endIndex captures].
    replace (S (length ((y ++ [HYPHEN_MINUS]) ++ m)))
      with (length ((y ++ [HYPHEN_MINUS]) ++ m ++ [HYPHEN_MINUS]))
      by (rewrite !length_app; simpl; lia).
    rewrite (exactly_digits unicode_letter r0 Input 2 d
               ((y ++ [HYPHEN_MINUS]) ++ m ++ [HYPHEN_MINUS]) [] [] _ HI'' Hld Hd).
    cbn [endIndex].
    replace (Nat.eqb (length (((y ++ [HYPHEN_MINUS]) ++ m ++ [HYPHEN_MINUS]) ++ d))
               (length ((y ++ [HYPHEN_MINUS]) ++ m))) with false
      by (symmetry; apply Nat.eqb_neq; rewrite !length_app; simpl; lia).
    rewrite lookahead_end by (cbn [endIndex]; lia).
    cbn [endIndex captures]. by rewrite Hlen.
Qed.

(** At the end of the text the date rule finds nothing. *)
Lemma date_hyphens_end (Input : JSString) :
  match_at unicode_letter (fst date_hyphens) Input (length Input) = None.
Proof.
  unfold match_at.
  change (pattern (fst date_hyphens))
    with (exactly 4 digit <+> lit HYPHEN_MINUS <+> exactly 2 digit <+>
          opt (lit HYPHEN_MINUS <+> exactly 2 digit) <+>
          lookahead (Alt non_word AssertEnd))%re.
  unfold exactly at 1. cbn [RegExp.matcher]. rewrite Nat.add_1_r.
  cbn [RepeatMatcher negb Nat.eqb]. unfold digit. cbn [RegExp.matcher read endIndex].
  unfold read_forward. by rewrite lookup_ge_None_2 by lia.
Qed.

(** What the date rule makes of digit groups of its shape. *)
Lemma date_hyphens_date_shaped groups :
  date_shaped groups ->
  substitute unicode_letter (joined HYPHEN_MINUS groups) date_hyphens
  = Normal (if Date_parse_isNaN (joined HYPHEN_MINUS groups)
            then joined HYPHEN_MINUS groups else joined HYPHEN groups).
Proof.
  intros H. pose proof (date_hyphens_match groups H) as Hm. destruct H as [Hd Hlen].
  unfold substitute, replace.
  erewrite results_whole; [| done | | exact Hm | done | apply date_hyphens_end].
  - apply assemble_whole; [done|]. simpl.
    destruct (Date_parse_isNaN _); [done|]. by rewrite replaceAll_joined.
  - apply joined_nonempty; [done|]. destruct Hlen as [Hlen|Hlen]; by destruct groups.
Qed.

End Dates.

(** * The claims *)

(** C1. [transform] with the default rules returns, and what it returns is
    the text after the twelve rules, one after the other in the order of
    the array: each rule is a global find and replace on what the rules
    before it made of the text.  A global find and replace takes all the
    non-overlapping matches of the pattern from left to right (each is the
    match at the first index, from the end of the match before it, where
    the pattern matches) and puts the replacement of each in its place;
    the text between the matches stays.  This determines the result.  In
    the list a language resolves to, the first twelve rules have the
    matchers of the default rules in the same order, and the language's
    additional rules come after them: they are applied, in the same way,
    to the result of those twelve. *)
Theorem rules_applied_in_order (unicode_letter : Z -> bool)
    (language : option string) (rules : loc) (h : Store) (value : JSString) :
  punctuationRulesForLanguage language initial_store = Normal (rules, h) ->
  (exists out,
     transform unicode_letter initial_store value punctuationRules = Normal out
     /\ applied_in_order unicode_letter
          [double_quoted; n_idiom; single_quoted; double_primes; single_primes;
           apostrophes; ellipses; dash_separator; date_hyphens; figure_dashes;
           range_dash; hyphens] value out)
  /\ (exists base extra mid out,
        rules_at h rules = Some (base ++ extra)
        /\ fst <$> base = fst <$> defaultRules
        /\ extra = omap (rule_at initial_store)
                     (default [] (languageSpecificRules !! property_key language))
        /\ applied_in_order unicode_letter base value mid
        /\ applied_in_order unicode_letter extra mid out
        /\ transform unicode_letter h value rules = Normal out)
  /\ (forall rules value out out',
        applied_in_order unicode_letter rules value out ->
        applied_in_order unicode_letter rules value out' -> out = out')
  /\ (forall rer Input lastIndex,
        disjoint_from lastIndex
          (RegExp.results rer Input (RegExp.match_at unicode_letter rer Input)
             (length Input + 1) lastIndex)).
Proof.
  intros Hres. split; [|split; [|split]].
  - unfold transform. rewrite rules_at_punctuationRules.
    destruct (resolved_no_apostrophe unicode_letter "" value) as (out & Hout & _).
    rewrite resolved_other in Hout by reflexivity.
    exists out. split; [exact Hout|].
    apply transform_with_applied; [|exact Hout].
    by repeat constructor.
  - apply resolution_resolved in Hres.
    destruct (resolved_no_apostrophe unicode_letter (property_key language) value)
      as (out & Hout & _).
    pose proof (resolved_global (property_key language)) as Hg.
    rewrite <- (take_drop 12 (resolved (property_key language))) in Hout, Hg.
    apply Forall_app in Hg as [Hbase Hextra].
    pose proof Hout as Hsplit.
    apply transform_with_split in Hsplit as (mid & Hmid & Hrest).
    exists (take 12 (resolved (property_key language))),
           (drop 12 (resolved (property_key language))), mid, out.
    rewrite take_drop. split; [done|]. split; [apply resolved_matchers|].
    split; [|split; [|split]].
    + unfold resolved. rewrite drop_app_length'; [done|]. by rewrite length_imap.
    + by apply transform_with_applied.
    + by apply transform_with_applied.
    + unfold transform. rewrite Hres.
      by rewrite <- (take_drop 12 (resolved (property_key language))).
  - intros. by eapply applied_in_order_unique.
  - intros. apply results_disjoint.
Qed.

(** Witness for C1: German, whose list ends with the rule for abbreviated
    compound words, on a text with two ranges and an ellipsis: both ranges get
    their en dash. *)
Lemma rules_applied_in_order_witness :
  exists rules h,
    punctuationRulesForLanguage (Some "de"%string) initial_store = Normal (rules, h)
    /\ exists base extra mid out,
         rules_at h rules = Some (base ++ extra)
         /\ fst <$> base = fst <$> defaultRules
         /\ extra = [de_compound]
         /\ applied_in_order (fun _ => false) base (u16 "1-2 ... 3-4") mid
         /\ applied_in_order (fun _ => false) extra mid out
         /\ transform (fun _ => false) h (u16 "1-2 ... 3-4") rules = Normal out
         /\ out = u16 "1" ++ [EN_DASH] ++ u16 "2 " ++ [HORIZONTAL_ELLIPSIS] ++ u16 " 3"
                  ++ [EN_DASH] ++ u16 "4".
Proof.
  eexists _, _. split; [reflexivity|].
  match goal with
  | |- exists base extra mid out, rules_at ?h ?rules = _ /\ _ =>
      destruct (rules_applied_in_order (fun _ => false) (Some "de"%string) rules h
                  (u16 "1-2 ... 3-4") eq_refl)
        as (_ & (base & extra & mid & out & Hr & Hm & He & Hb & Hx & Ht) & _);
      assert (Hout : transform (fun _ => false) h (u16 "1-2 ... 3-4") rules
                     = Normal (u16 "1" ++ [EN_DASH] ++ u16 "2 " ++ [HORIZONTAL_ELLIPSIS]
                               ++ u16 " 3" ++ [EN_DASH] ++ u16 "4"))
        by (vm_compute; reflexivity)
  end.
  exists base, extra, mid, out.
  split; [exact Hr|]. split; [exact Hm|]. split; [exact He|].
  split; [exact Hb|]. split; [exact Hx|]. split; [exact Ht|].
  rewrite Ht in Hout. by inversion Hout.
Defined.

Local Open Scope nat_scope.

(** C2, as stated, fails: a rule outside the overridable slots is shared.
    Resolve French, then resolve the default language in the store that
    leaves, and assign an empty template to the replace value of the second
    rule of the second list: the assignment changes what the default table
    holds and what the French list holds. *)
Lemma shared_rule_counterexample :
  exists (french : loc) (h1 : Store) (rules : loc) (h2 : Store) (rule : loc) (h3 : Store),
    punctuationRulesForLanguage (Some "fr"%string) initial_store = Normal (french, h1)
    /\ punctuationRulesForLanguage None h1 = Normal (rules, h2)
    /\ (exists elements, h2 !! rules = Some (ArrayObject elements)
                         /\ elements !! 1 = Some rule)
    /\ set_replaceValue rule (Template []) h2 = Normal (tt, h3)
    /\ rules_at h3 punctuationRules <> rules_at h2 punctuationRules
    /\ rules_at h3 french <> rules_at h2 french.
Proof.
  eexists _, _, _, _, _, _.
  split; [reflexivity|]. split; [reflexivity|].
  split; [eexists; split; reflexivity|].
  split; [reflexivity|].
  assert (Hne : forall (rs rs' : list SubstitutionRule) t t',
            snd <$> rs !! 1 = Some (Template t) -> snd <$> rs' !! 1 = Some (Template t') ->
            t <> t' -> Some rs <> Some rs').
  { intros rs rs' t t' H1 H2 Ht Heq. inversion Heq; subst.
    rewrite H1 in H2. inversion H2. done. }
  split; eapply Hne; try reflexivity; discriminate.
Qed.

(** C2, amended. A resolution changes no object of the store it runs in, so
    every rule list read before it, the default one and the lists resolved
    earlier, reads the same after it.  The array it returns is new, and so
    are the rules in its overridable slots (indices 0, 2, 5 and 11):
    assigning to a slot of one of these rules, or pushing onto the returned
    array, changes no rule list that was there before the resolution.  The
    other default rules of the returned array are the default array's own
    objects. *)
Theorem resolution_owns_its_copies (language : option string) (h : Store)
    (rules : loc) (h' : Store) :
  punctuationRulesForLanguage language h = Normal (rules, h') ->
  h `prefix_of` h'
  /\ (forall array list, rules_at h array = Some list -> rules_at h' array = Some list)
  /\ length h <= rules
  /\ exists base elements,
       h !! punctuationRules = Some (ArrayObject base)
       /\ h' !! rules = Some (ArrayObject elements)
       /\ (forall i rule, i < length base -> elements !! i = Some rule ->
             if bool_decide (i ∈ overrideRuleIndices)
             then length h <= rule
                  /\ forall value h'',
                       (set_replaceValue rule value h' = Normal (tt, h'')
                        \/ (exists searchValue,
                              set_searchValue rule searchValue h' = Normal (tt, h''))) ->
                       forall array list,
                         rules_at h array = Some list -> rules_at h'' array = Some list
             else base !! i = Some rule)
       /\ (forall element h'',
             push rules element h' = Normal (tt, h'') ->
             forall array list,
               rules_at h array = Some list -> rules_at h'' array = Some list).
Proof.
  intros Hres.
  apply resolution_frame in Hres as (Hpre & Hfresh & base & elements & Hbase & Hrules & Hel).
  split; [done|]. split; [intros; by eapply rules_at_prefix|]. split; [done|].
  exists base, elements. split; [done|]. split; [done|]. split.
  - intros i rule Hi Hrule. specialize (Hel i rule Hi Hrule).
    destruct (bool_decide (i ∈ overrideRuleIndices)); [|done].
    split; [done|]. intros value h'' Hset array list Hlist.
    eapply rules_at_prefix; [|exact Hlist].
    destruct Hset as [Hset|[searchValue Hset]].
    + apply set_replaceValue_spec in Hset as (s & v & _ & ->). by apply prefix_insert.
    + apply set_searchValue_spec in Hset as (s & v & _ & ->). by apply prefix_insert.
  - intros element h'' Hpush array list Hlist.
    eapply rules_at_prefix; [|exact Hlist].
    apply push_spec in Hpush as (els & _ & ->). by apply prefix_insert.
Qed.

(** Witness for C2: German, resolved in the store the script starts with. *)
Lemma resolution_owns_its_copies_witness :
  exists rules h',
    punctuationRulesForLanguage (Some "de"%string) initial_store = Normal (rules, h')
    /\ initial_store `prefix_of` h'
    /\ rules_at h' punctuationRules = Some defaultRules
    /\ length initial_store <= rules.
Proof.
  eexists _, _. split; [reflexivity|].
  match goal with
  | |- _ `prefix_of` ?h' /\ _ /\ _ <= ?rules =>
      destruct (resolution_owns_its_copies (Some "de"%string) initial_store rules h' eq_refl)
        as (Hpre & Hkeep & Hnew & _)
  end.
  split; [exact Hpre|]. split; [|exact Hnew].
  apply Hkeep. reflexivity.
Defined.

Local Open Scope Z_scope.

(** C3, as stated, fails.  Japanese has no entry in
    [languageSpecificOverrides], and its rule list is the default list and
    one more rule; "constructor" has no entry in either table, and the call
    throws: the table lookup finds [Object.prototype.constructor], which has
    no [forEach]. *)
Lemma no_override_entry_counterexample :
  (languageSpecificOverrides !! "ja"%string = None
   /\ exists rules h,
        punctuationRulesForLanguage (Some "ja"%string) initial_store = Normal (rules, h)
        /\ rules_at h rules = Some (defaultRules ++ [ja_brackets])
        /\ rules_at initial_store punctuationRules = Some defaultRules
        /\ length (defaultRules ++ [ja_brackets]) <> length defaultRules)
  /\ (languageSpecificOverrides !! "constructor"%string = None
      /\ languageSpecificRules !! "constructor"%string = None
      /\ punctuationRulesForLanguage (Some "constructor"%string) initial_store
         = Throw TypeError).
Proof.
  split; [split; [reflexivity|] | split; [reflexivity | split; reflexivity]].
  destruct (resolution_returns (Some "ja"%string) ltac:(not_inherited))
    as (rules & h & Hres & Hr).
  exists rules, h. split; [exact Hres|]. split; [|split].
  - rewrite Hr. simpl property_key. by rewrite resolved_ja.
  - reflexivity.
  - simpl. lia.
Qed.

(** C3, amended. For a language argument, given or not, whose key is in
    neither table and is no property of [Object.prototype],
    [punctuationRulesForLanguage] returns, and the list it returns holds the
    default rules: the rules of [punctuationRules], in their order. *)
Theorem unknown_language_gets_default_rules (language : option string) :
  languageSpecificOverrides !! property_key language = None ->
  languageSpecificRules !! property_key language = None ->
  property_key language ∉ Object_prototype ->
  exists rules h,
    punctuationRulesForLanguage language initial_store = Normal (rules, h)
    /\ rules_at h rules = Some defaultRules
    /\ rules_at h rules = rules_at initial_store punctuationRules.
Proof.
  intros Ho Hr Hp.
  destruct (resolution_returns language Hp) as (rules & h & Hres & Hrules).
  exists rules, h. split; [exact Hres|].
  rewrite resolved_other in Hrules by done. by rewrite Hrules.
Qed.

(** Witness for C3: no argument at all, and a code no table knows. *)
Lemma unknown_language_gets_default_rules_witness :
  (exists rules h,
     punctuationRulesForLanguage None initial_store = Normal (rules, h)
     /\ rules_at h rules = Some defaultRules
     /\ rules_at h rules = rules_at initial_store punctuationRules)
  /\ (exists rules h,
        punctuationRulesForLanguage (Some "xx"%string) initial_store = Normal (rules, h)
        /\ rules_at h rules = Some defaultRules
        /\ rules_at h rules = rules_at initial_store punctuationRules).
Proof.
  split.
  - apply (unknown_language_gets_default_rules None);
      [reflexivity | reflexivity | not_inherited].
  - apply (unknown_language_gets_default_rules (Some "xx"%string));
      [reflexivity | reflexivity | not_inherited].
Defined.

(** C4: on a labeled link and on a plain URL that hold a character above
    U+00FF, the markup preserving list throws: [btoa] refuses the character.
    And the text <b>, which holds no markup, comes back as three
    apostrophes. *)
Theorem markup_guard_throws (unicode_letter : Z -> bool) :
  Base64.btoa (u16 "http://example.com/" ++ [26085]) = Throw InvalidCharacterError
  /\ guessPreservingMarkup unicode_letter non_latin_link = Throw InvalidCharacterError
  /\ guessPreservingMarkup unicode_letter non_latin_url = Throw InvalidCharacterError
  /\ guessPreservingMarkup unicode_letter (u16 "<b>")
     = Normal [APOSTROPHE; APOSTROPHE; APOSTROPHE].
Proof.
  split; [reflexivity|]. split; [|split].
  - unfold guessPreservingMarkup, transform. rewrite rules_at_markup.
    reflexivity.
  - unfold guessPreservingMarkup, transform. rewrite rules_at_markup.
    reflexivity.
  - unfold guessPreservingMarkup, transform. rewrite rules_at_markup.
    unfold defaultRules. simpl app. pipeline.
Qed.

(** C5. On the text that is the link [http://example.com/a-b|label]: the
    rules before the default rules put the Base64 form of the target in the
    place of the target and leave the label; the rules after the default
    rules, applied to that, give the text back; so does the whole list.
    With a hyphen in the label, the whole list changes the hyphen of the
    label and keeps the one of the target. *)
Theorem link_round_trip (unicode_letter : Z -> bool) :
  rules_at initial_store transformationRulesToPreserveMarkup
  = Some (protectRules ++ defaultRules ++ restoreRules)
  /\ Base64.btoa example_target = Normal (u16 "aHR0cDovL2V4YW1wbGUuY29tL2EtYg==")
  /\ transform_with unicode_letter protectRules example_link
     = Normal (u16 "[aHR0cDovL2V4YW1wbGUuY29tL2EtYg==|label]")
  /\ cbind (transform_with unicode_letter protectRules example_link)
           (transform_with unicode_letter restoreRules)
     = Normal example_link
  /\ guessPreservingMarkup unicode_letter example_link = Normal example_link
  /\ guessPreservingMarkup unicode_letter hyphenated_label_link
     = Normal (u16 "[http://example.com/a-b|la" ++ [HYPHEN] ++ u16 "bel]").
Proof.
  split; [reflexivity|].
  split; [vm_compute; reflexivity|].
  split; [vm_compute; reflexivity|].
  split; [vm_compute; reflexivity|].
  split.
  - unfold guessPreservingMarkup, transform. rewrite rules_at_markup.
    unfold defaultRules. simpl app. pipeline.
  - unfold guessPreservingMarkup, transform. rewrite rules_at_markup.
    unfold defaultRules. simpl app. pipeline.
Qed.

(** C6. The default rules turn every hyphen of 1987-07-30, which
    [Date.parse] reads as a date, into U+2010; the date rule matches 1989-90,
    which [Date.parse] does not read, and gives it back as it is, the figure
    dash rule does not match it, and the range rule makes it 1989, en dash,
    90, which is what the default rules return. *)
Theorem date_or_range (unicode_letter : Z -> bool) :
  Date_parse_isNaN iso_date = false
  /\ guessUnicodePunctuation unicode_letter None iso_date
     = Normal (u16 "1987" ++ [HYPHEN] ++ u16 "07" ++ [HYPHEN] ++ u16 "30")
  /\ Date_parse_isNaN year_range = true
  /\ RegExp.results (fst date_hyphens) year_range
       (RegExp.match_at unicode_letter (fst date_hyphens) year_range)
       (length year_range + 1) 0
     = [(0%nat, {| RegExp.endIndex := 7; RegExp.captures := [] |})]
  /\ substitute unicode_letter year_range date_hyphens = Normal year_range
  /\ substitute unicode_letter year_range figure_dashes = Normal year_range
  /\ substitute unicode_letter year_range range_dash
     = Normal (u16 "1989" ++ [EN_DASH] ++ u16 "90")
  /\ guessUnicodePunctuation unicode_letter None year_range
     = Normal (u16 "1989" ++ [EN_DASH] ++ u16 "90").
Proof.
  split; [reflexivity|]. split.
  { rewrite guess_by_resolved by not_inherited.
    simpl property_key. rewrite resolved_other by reflexivity.
    unfold defaultRules. pipeline. }
  split; [reflexivity|].
  split; [vm_compute; reflexivity|].
  split; [vm_compute; reflexivity|].
  split; [vm_compute; reflexivity|].
  split; [vm_compute; reflexivity|].
  rewrite guess_by_resolved by not_inherited.
  simpl property_key. rewrite resolved_other by reflexivity.
  unfold defaultRules. pipeline.
Qed.

(** C7, as stated, fails on digit groups that look like a date: the date
    rule comes first.  The three groups of 1987-07-30 and the two groups of
    1987-07 come out joined by U+2010, not by figure dashes or an en
    dash. *)
Lemma date_like_groups_counterexample :
  Forall digit_group [u16 "1987"; u16 "07"; u16 "30"]
  /\ (forall unicode_letter,
        guessUnicodePunctuation unicode_letter None
          (joined HYPHEN_MINUS [u16 "1987"; u16 "07"; u16 "30"])
        = Normal (joined HYPHEN [u16 "1987"; u16 "07"; u16 "30"]))
  /\ joined HYPHEN [u16 "1987"; u16 "07"; u16 "30"]
     <> joined FIGURE_DASH [u16 "1987"; u16 "07"; u16 "30"]
  /\ Forall digit_group [u16 "1987"; u16 "07"]
  /\ (forall unicode_letter,
        guessUnicodePunctuation unicode_letter None
          (joined HYPHEN_MINUS [u16 "1987"; u16 "07"])
        = Normal (joined HYPHEN [u16 "1987"; u16 "07"]))
  /\ joined HYPHEN [u16 "1987"; u16 "07"] <> joined EN_DASH [u16 "1987"; u16 "07"].
Proof.
  assert (Hgroup : forall group : JSString,
            forallb RegExp.is_digit group = true -> group <> [] -> digit_group group).
  { intros group Hd Hne. split; [done|]. apply Forall_forall. intros c Hc.
    rewrite forallb_forall in Hd. by apply Hd, list_elem_of_In. }
  split; [repeat constructor; by apply Hgroup|].
  split.
  { intros unicode_letter. rewrite guess_by_resolved by not_inherited.
    simpl property_key. rewrite resolved_other by reflexivity.
    unfold defaultRules. pipeline. }
  split; [discriminate|].
  split; [repeat constructor; by apply Hgroup|].
  split; [|discriminate].
  intros unicode_letter. rewrite guess_by_resolved by not_inherited.
  simpl property_key. rewrite resolved_other by reflexivity.
  unfold defaultRules. pipeline.
Qed.

(** C7, amended. Digit groups joined by hyphens.  Where the date rule
    leaves them as they are: when they are three or more, the figure dash
    rule makes every hyphen a figure dash, and that is what the default
    rules return; when they are two, the figure dash rule leaves them, the
    range rule puts an en dash between them, and that is what the default
    rules return.  Groups of the shape of a date (four digits, two digits
    and at most two more digits) are matched by the date rule as a whole:
    it leaves them as they are when [Date.parse] answers NaN, and makes
    every hyphen U+2010 when [Date.parse] reads a date, and then that is
    what the default rules return. *)
Theorem digit_groups_threshold (unicode_letter : Z -> bool) (groups : list JSString) :
  Forall digit_group groups ->
  (substitute unicode_letter (joined HYPHEN_MINUS groups) date_hyphens
   = Normal (joined HYPHEN_MINUS groups) ->
   ((3 <= length groups)%nat ->
    substitute unicode_letter (joined HYPHEN_MINUS groups) figure_dashes
    = Normal (joined FIGURE_DASH groups)
    /\ guessUnicodePunctuation unicode_letter None (joined HYPHEN_MINUS groups)
       = Normal (joined FIGURE_DASH groups))
   /\ (length groups = 2%nat ->
       substitute unicode_letter (joined HYPHEN_MINUS groups) figure_dashes
       = Normal (joined HYPHEN_MINUS groups)
       /\ substitute unicode_letter (joined HYPHEN_MINUS groups) range_dash
          = Normal (joined EN_DASH groups)
       /\ guessUnicodePunctuation unicode_letter None (joined HYPHEN_MINUS groups)
          = Normal (joined EN_DASH groups)))
  /\ (date_shaped groups ->
      substitute unicode_letter (joined HYPHEN_MINUS groups) date_hyphens
      = Normal (if Date_parse_isNaN (joined HYPHEN_MINUS groups)
                then joined HYPHEN_MINUS groups else joined HYPHEN groups)
      /\ (Date_parse_isNaN (joined HYPHEN_MINUS groups) = false ->
          guessUnicodePunctuation unicode_letter None (joined HYPHEN_MINUS groups)
          = Normal (joined HYPHEN groups))).
Proof.
  intros Hgroups.
  assert (Hguess : forall value,
            guessUnicodePunctuation unicode_letter None value
            = transform_with unicode_letter defaultRules value).
  { intros value. rewrite guess_by_resolved by not_inherited.
    simpl property_key. by rewrite resolved_other by reflexivity. }
  split; [intros Hdate; split|].
  - intros Hlen.
    pose proof (figure_dashes_three_groups unicode_letter groups Hgroups Hlen) as Hfig.
    split; [exact Hfig|].
    rewrite Hguess.
    change defaultRules
      with ([double_quoted; n_idiom; single_quoted; double_primes; single_primes;
             apostrophes; ellipses; dash_separator]
            ++ [date_hyphens; figure_dashes; range_dash; hyphens]).
    rewrite before_date_rule by done.
    rewrite (transform_with_step _ _ _ _ _ Hdate).
    rewrite (transform_with_step _ _ _ _ _ Hfig).
    apply no_hyphen_left; [done | discriminate | by repeat constructor].
  - intros Hlen.
    destruct groups as [|g1 [|g2 [|g3 rest]]]; try discriminate.
    apply Forall_cons in Hgroups as [Hg1 Hg2].
    apply Forall_cons in Hg2 as [Hg2 _].
    assert (Hgroups : Forall digit_group [g1; g2])
      by (repeat (apply Forall_cons_2; [assumption|]); apply Forall_nil_2).
    pose proof (figure_dashes_two_groups unicode_letter g1 g2 Hg1 Hg2) as Hfig.
    pose proof (range_dash_two_groups unicode_letter g1 g2 Hg1 Hg2) as Hrange.
    split; [exact Hfig|]. split; [exact Hrange|].
    rewrite Hguess.
    change defaultRules
      with ([double_quoted; n_idiom; single_quoted; double_primes; single_primes;
             apostrophes; ellipses; dash_separator]
            ++ [date_hyphens; figure_dashes; range_dash; hyphens]).
    rewrite before_date_rule by done.
    rewrite (transform_with_step _ _ _ _ _ Hdate).
    rewrite (transform_with_step _ _ _ _ _ Hfig).
    rewrite (transform_with_step _ _ _ _ _ Hrange).
    apply no_hyphen_left; [done | discriminate | by repeat constructor].
  - intros Hshape.
    pose proof (date_hyphens_date_shaped unicode_letter groups Hshape) as Hdate.
    split; [exact Hdate|]. intros Hparse. rewrite Hparse in Hdate.
    rewrite Hguess.
    change defaultRules
      with ([double_quoted; n_idiom; single_quoted; double_primes; single_primes;
             apostrophes; ellipses; dash_separator]
            ++ [date_hyphens; figure_dashes; range_dash; hyphens]).
    rewrite before_date_rule by done.
    rewrite (transform_with_step _ _ _ _ _ Hdate).
    apply no_hyphen_left; [done | discriminate | by repeat constructor].
Qed.

(** Witness for C7: the three groups of 12-345-6789, which the date rule
    does not match; the two groups of 1989-90, which [Date.parse] does not
    read; and the three groups of 0012-13-01, which it reads as the month,
    the day and the year of a date. *)
Lemma digit_groups_threshold_witness :
  guessUnicodePunctuation (fun _ => false) None (u16 "12-345-6789")
  = Normal (u16 "12" ++ [FIGURE_DASH] ++ u16 "345" ++ [FIGURE_DASH] ++ u16 "6789")
  /\ guessUnicodePunctuation (fun _ => false) None (u16 "1989-90")
     = Normal (u16 "1989" ++ [EN_DASH] ++ u16 "90")
  /\ guessUnicodePunctuation (fun _ => false) None (u16 "0012-13-01")
     = Normal (u16 "0012" ++ [HYPHEN] ++ u16 "13" ++ [HYPHEN] ++ u16 "01").
Proof.
  assert (Hdigits : forall group : JSString,
            forallb RegExp.is_digit group = true -> group <> [] -> digit_group group).
  { intros group Hd Hne. split; [done|]. apply Forall_forall. intros c Hc.
    rewrite forallb_forall in Hd. by apply Hd, list_elem_of_In. }
  assert (H1 : Forall digit_group [u16 "12"; u16 "345"; u16 "6789"])
    by (repeat (apply Forall_cons_2; [by apply Hdigits|]); apply Forall_nil_2).
  assert (H2 : Forall digit_group [u16 "1989"; u16 "90"])
    by (repeat (apply Forall_cons_2; [by apply Hdigits|]); apply Forall_nil_2).
  assert (H3 : Forall digit_group [u16 "0012"; u16 "13"; u16 "01"])
    by (repeat (apply Forall_cons_2; [by apply Hdigits|]); apply Forall_nil_2).
  split; [|split].
  - apply (digit_groups_threshold (fun _ => false) _ H1).
    + vm_compute. reflexivity.
    + simpl. lia.
  - apply (digit_groups_threshold (fun _ => false) _ H2).
    + vm_compute. reflexivity.
    + reflexivity.
  - apply (digit_groups_threshold (fun _ => false) _ H3).
    + split; [exact H3 | by right].
    + reflexivity.
Defined.

(** C8. The text Bonjour between ASCII double quotes becomes the text
    between guillemets and spaces for French, between a low and a left
    double quotation mark for German, and between curly double quotes
    without a language.  Whatever the language, the first twelve rules of
    the resolved list keep the matchers of the default rules: the override
    only replaces replace values, that of the double-quote rule included. *)
Theorem bonjour_by_language (unicode_letter : Z -> bool) :
  guessUnicodePunctuation unicode_letter (Some "fr"%string) bonjour
  = Normal ([LEFT_GUILLEMET] ++ u16 " Bonjour " ++ [RIGHT_GUILLEMET])
  /\ guessUnicodePunctuation unicode_letter (Some "de"%string) bonjour
     = Normal ([LOW_DOUBLE_QUOTE] ++ u16 "Bonjour" ++ [LEFT_DOUBLE_QUOTE])
  /\ guessUnicodePunctuation unicode_letter None bonjour
     = Normal ([LEFT_DOUBLE_QUOTE] ++ u16 "Bonjour" ++ [RIGHT_DOUBLE_QUOTE])
  /\ forall language : option string,
       match punctuationRulesForLanguage language initial_store with
       | Normal (rules, h) =>
           exists resolvedRules,
             rules_at h rules = Some resolvedRules
             /\ fst <$> take 12 resolvedRules = fst <$> defaultRules
             /\ fst <$> resolvedRules !! 0%nat = Some (fst double_quoted)
       | Throw _ => property_key language ∈ Object_prototype
       end.
Proof.
  split; [|split; [|split]].
  - rewrite guess_by_resolved by not_inherited.
    simpl property_key. rewrite resolved_fr. unfold overridden. pipeline.
  - rewrite guess_by_resolved by not_inherited.
    simpl property_key. rewrite resolved_de. unfold overridden. simpl app. pipeline.
  - rewrite guess_by_resolved by not_inherited.
    simpl property_key. rewrite resolved_other by reflexivity.
    unfold defaultRules. pipeline.
  - intros language.
    destruct (decide (property_key language ∈ Object_prototype)) as [Hp|Hp].
    + by rewrite resolution_throws.
    + destruct (resolution_returns language Hp) as (rules & h & -> & Hr).
      exists (resolved (property_key language)). split; [done|].
      split; [apply resolved_matchers|].
      destruct (resolved_cases (property_key language))
        as (dq & sq & ap & hy & extra & -> & _). reflexivity.
Qed.

(** C9. A text without ASCII double quote, apostrophe and hyphen-minus, and
    without three full stops in a row, comes out of the default rules as it
    went in; none of the twelve rules changes it. *)
Theorem target_forms_unchanged (unicode_letter : Z -> bool) (value : JSString) :
  QUOTATION_MARK ∉ value -> APOSTROPHE ∉ value -> HYPHEN_MINUS ∉ value ->
  three_full_stops value = false ->
  transform unicode_letter initial_store value punctuationRules = Normal value
  /\ Forall (fun rule => substitute unicode_letter value rule = Normal value)
       defaultRules.
Proof.
  intros Hq Ha Hh Hd.
  assert (HF : Forall (fun rule => substitute unicode_letter value rule = Normal value)
                 defaultRules).
  { unfold defaultRules. repeat apply Forall_cons_2; try apply Forall_nil_2;
      first [ by apply (substitute_requires _ QUOTATION_MARK)
            | by apply (substitute_requires _ APOSTROPHE)
            | by apply (substitute_requires _ HYPHEN_MINUS)
            | by apply replace_no_match, ellipses_no_match ]. }
  split; [|exact HF].
  unfold transform. rewrite rules_at_punctuationRules.
  induction HF as [|rule rules Hr _ IH]; simpl; [done|]. by rewrite Hr.
Qed.

(** Witness for C9: a sentence with curly quotes, an ellipsis, an en dash
    and two full stops. *)
Lemma target_forms_unchanged_witness :
  let value := [LEFT_DOUBLE_QUOTE] ++ u16 "Hi" ++ [RIGHT_DOUBLE_QUOTE; HORIZONTAL_ELLIPSIS]
               ++ u16 " 1965" ++ [EN_DASH] ++ u16 "1972 .." in
  transform (fun _ => false) initial_store value punctuationRules = Normal value.
Proof.
  intros value.
  apply (target_forms_unchanged (fun _ => false) value);
    [not_in_template | not_in_template | not_in_template | reflexivity].
Defined.

(** C10. Whatever the language and the text, what [transform] returns with
    the rules resolved for the language holds no ASCII apostrophe (and
    [transform] does return). *)
Theorem no_ascii_apostrophe_left (unicode_letter : Z -> bool)
    (language : option string) (value : JSString) (rules : loc) (h : Store) :
  punctuationRulesForLanguage language initial_store = Normal (rules, h) ->
  exists out,
    transform unicode_letter h value rules = Normal out /\ APOSTROPHE ∉ out.
Proof.
  intros Hres. apply resolution_resolved in Hres.
  unfold transform. rewrite Hres. apply resolved_no_apostrophe.
Qed.

(** Witness for C10: Hebrew, which overrides the apostrophe rule. *)
Lemma no_ascii_apostrophe_left_witness :
  exists rules h,
    punctuationRulesForLanguage (Some "he"%string) initial_store = Normal (rules, h)
    /\ exists out,
         transform (fun _ => false) h (u16 "rock 'n' roll, it's '70s") rules = Normal out
         /\ APOSTROPHE ∉ out.
Proof.
  eexists _, _. split; [reflexivity|].
  match goal with
  | |- exists out, transform _ ?h ?value ?rules = _ /\ _ =>
      exact (no_ascii_apostrophe_left (fun _ => false) (Some "he"%string) value rules h
               eq_refl)
  end.
Defined.

(** * Further properties of the script *)

Section InputFacts.
Variable unicode_letter : Z -> bool.
Variable h : Store.
Variable substitutionRules : loc.
Variable isReactInput : bool.
Variable event : DOM.Event.
Variable highlightClass : string.

Lemma without_token_spec input token :
  token ∈ DOM.classList (DOM.without_token highlightClass input)
  <-> token <> highlightClass /\ token ∈ DOM.classList input.
Proof. simpl. rewrite list_elem_of_filter. done. Qed.

Lemma with_token_spec input token :
  token ∈ DOM.classList (DOM.with_token highlightClass input)
  <-> token = highlightClass \/ token ∈ DOM.classList input.
Proof.
  simpl. case_bool_decide as Hin.
  - split; [auto|]. intros [->|]; done.
  - rewrite elem_of_app, list_elem_of_singleton. tauto.
Qed.

(** With a token that the token list takes, the callback is this. *)
Lemma transformInputValue_valid input :
  DOM.token_exception highlightClass = None ->
  DOM.transformInputValue unicode_letter h substitutionRules isReactInput event
    highlightClass input
  = match DOM.value input with
    | [] => (DOM.without_token highlightClass input, DOM.Returned tt)
    | _ =>
        match transform unicode_letter h (DOM.value input) substitutionRules with
        | Throw e => (DOM.without_token highlightClass input, DOM.Threw (DOM.Raised e))
        | Normal v =>
            if bool_decide (v <> DOM.value input) then
              (DOM.with_token highlightClass
                 (if isReactInput
                  then DOM.setReactInputValue (DOM.without_token highlightClass input) v
                  else DOM.dispatchEvent event
                         (DOM.set_value v (DOM.without_token highlightClass input))),
               DOM.Returned tt)
            else (DOM.without_token highlightClass input, DOM.Returned tt)
        end
    end.
Proof.
  intros Hvalid. unfold DOM.transformInputValue, DOM.classList_remove, DOM.classList_add.
  rewrite Hvalid.
  change (DOM.value (DOM.without_token highlightClass input)) with (DOM.value input).
  destruct (DOM.value input) as [|c value]; [done|].
  destruct (transform _ _ _ _) as [v|e]; [|done].
  case_bool_decide; done.
Qed.

(** With any other token, the callback throws before it reads the value. *)
Lemma transformInputValue_invalid input x :
  DOM.token_exception highlightClass = Some x ->
  DOM.transformInputValue unicode_letter h substitutionRules isReactInput event
    highlightClass input
  = (input, DOM.Threw x).
Proof.
  intros Hx. unfold DOM.transformInputValue, DOM.classList_remove. by rewrite Hx.
Qed.

(** The callback, when it returns. *)
Lemma transformInputValue_returns input output :
  DOM.transformInputValue unicode_letter h substitutionRules isReactInput event
    highlightClass input = (output, DOM.Returned tt) ->
  processed unicode_letter h substitutionRules isReactInput event highlightClass
    input output.
Proof.
  destruct (DOM.token_exception highlightClass) as [x|] eqn:Hvalid;
    [by rewrite (transformInputValue_invalid _ x)|].
  rewrite transformInputValue_valid by done. unfold processed.
  destruct (DOM.value input) as [|c value] eqn:Hv.
  - intros H. inversion H; subst. simpl. rewrite Hv.
    split; [done|]. split.
    + rewrite list_elem_of_filter. split; [by intros [? _] | done].
    + split; [intros token Ht; rewrite list_elem_of_filter; tauto|].
      rewrite bool_decide_eq_false_2 by auto. by rewrite app_nil_r.
  - destruct (transform _ _ _ _) as [v|e]; [|discriminate].
    case_bool_decide as Hne.
    + intros H. inversion H; subst. clear H.
      assert (Hval : DOM.value
                (if isReactInput
                 then DOM.setReactInputValue (DOM.without_token highlightClass input) v
                 else DOM.dispatchEvent event
                        (DOM.set_value v (DOM.without_token highlightClass input)))
              = v) by (by destruct isReactInput).
      change (DOM.value (DOM.with_token highlightClass ?i)) with (DOM.value i).
      rewrite Hval. split; [done|]. split; [|split].
      * rewrite with_token_spec. split; [done | auto].
      * intros token Ht. rewrite with_token_spec.
        destruct isReactInput; simpl; rewrite list_elem_of_filter; tauto.
      * rewrite bool_decide_eq_true_2 by done. by destruct isReactInput.
    + subst v. intros H. inversion H; subst. clear H.
      simpl. rewrite Hv.
      split; [done|]. split.
      * rewrite list_elem_of_filter. split; [by intros [? _] | done].
      * split; [intros token Ht; rewrite list_elem_of_filter; tauto|].
        rewrite bool_decide_eq_false_2 by auto. by rewrite app_nil_r.
Qed.

(** The callback, when it throws: the token list refused the token and the
    element is as it was, or the exception is the one of [transform] and
    the element has only lost the highlight. *)
Lemma transformInputValue_throws input output x :
  DOM.transformInputValue unicode_letter h substitutionRules isReactInput event
    highlightClass input = (output, DOM.Threw x) ->
  (DOM.token_exception highlightClass = Some x /\ output = input)
  \/ (DOM.token_exception highlightClass = None
      /\ output = DOM.without_token highlightClass input
      /\ DOM.value input <> []
      /\ exists e, x = DOM.Raised e
           /\ transform unicode_letter h (DOM.value input) substitutionRules = Throw e).
Proof.
  destruct (DOM.token_exception highlightClass) as [x'|] eqn:Hvalid.
  - rewrite (transformInputValue_invalid _ x') by done.
    intros H. inversion H; subst. by left.
  - rewrite transformInputValue_valid by done. right. split; [done|].
    destruct (DOM.value input) as [|c value]; [discriminate|].
    destruct (transform _ _ _ _) as [v|e']; [case_bool_decide; discriminate|].
    inversion H; subst. eauto.
Qed.

(** The callback returns wherever [transform] does. *)
Lemma transformInputValue_total input :
  DOM.token_exception highlightClass = None ->
  (DOM.value input = []
   \/ (exists v, transform unicode_letter h (DOM.value input) substitutionRules
                 = Normal v)) ->
  exists output,
    DOM.transformInputValue unicode_letter h substitutionRules isReactInput event
      highlightClass input = (output, DOM.Returned tt).
Proof.
  intros Hvalid. rewrite transformInputValue_valid by done.
  intros [->|[v Hv]]; [eauto|].
  destruct (DOM.value input) as [|c value]; [eauto|].
  rewrite Hv. case_bool_decide; eauto.
Qed.

Lemma forEach_returns callback (R : DOM.HTMLInputElement -> DOM.HTMLInputElement -> Prop) :
  (forall input output, callback input = (output, DOM.Returned tt) -> R input output) ->
  forall inputs outputs,
    DOM.forEach callback inputs = (outputs, DOM.Returned tt) -> Forall2 R inputs outputs.
Proof.
  intros Hc. induction inputs as [|input inputs IH]; intros outputs; simpl.
  - intros H. inversion H. constructor.
  - destruct (callback input) as [input' [[]|e]] eqn:Hi; [|discriminate].
    destruct (DOM.forEach callback inputs) as [rest' result].
    intros H. inversion H; subst. constructor; [by apply Hc | by apply IH].
Qed.

Lemma forEach_total callback (P : DOM.HTMLInputElement -> Prop) :
  (forall input, P input -> exists output, callback input = (output, DOM.Returned tt)) ->
  forall inputs, Forall P inputs ->
    exists outputs, DOM.forEach callback inputs = (outputs, DOM.Returned tt).
Proof.
  intros Hc. induction 1 as [|input inputs Hi _ [outputs IH]]; simpl; [eauto|].
  destruct (Hc input Hi) as [output ->]. rewrite IH. eauto.
Qed.

Lemma forEach_throws callback (R : DOM.HTMLInputElement -> DOM.HTMLInputElement -> Prop) :
  (forall input output, callback input = (output, DOM.Returned tt) -> R input output) ->
  forall inputs outputs e,
    DOM.forEach callback inputs = (outputs, DOM.Threw e) ->
    exists before before' input output after,
      inputs = before ++ input :: after
      /\ outputs = before' ++ output :: after
      /\ Forall2 R before before'
      /\ callback input = (output, DOM.Threw e).
Proof.
  intros Hc. induction inputs as [|input inputs IH]; intros outputs e; simpl; [discriminate|].
  destruct (callback input) as [input' [[]|e']] eqn:Hi.
  - destruct (DOM.forEach callback inputs) as [rest' result] eqn:Hrest.
    intros H. inversion H; subst.
    destruct (IH _ _ eq_refl) as (before & before' & input0 & output & after
                                  & -> & -> & HF & Hthrow).
    exists (input :: before), (input' :: before'), input0, output, after.
    split; [done|]. split; [done|]. split; [|done].
    constructor; [by apply Hc | done].
  - intros H. inversion H; subst.
    exists [], [], input, input', inputs. split; [done|]. split; [done|].
    split; [constructor | done].
Qed.

End InputFacts.

(** The rules of a language leave the empty text empty. *)
Lemma resolved_empty unicode_letter key :
  transform_with unicode_letter (resolved key) [] = Normal [].
Proof.
  apply transform_with_inert.
  destruct (resolved_cases key) as (dq & sq & ap & hy & extra & -> & _ & _ & Hextra).
  rewrite forallb_app.
  destruct Hextra as [-> | [-> | [-> | ->]]]; reflexivity.
Qed.

(** X1. With a highlight class that a token list takes (not empty, no
    ASCII whitespace), and where [transform] returns on every value that is
    not empty, [transformInputValues] returns, and it leaves every selected
    element processed: its value is what the rules make of it (an empty
    value stays empty), it holds the highlight class if and only if its
    value changed, whatever it held before, one event was dispatched at it
    if the value changed and none otherwise, and its other class tokens are
    as before. *)
Theorem transformInputValues_highlights_changes (unicode_letter : Z -> bool) (h : Store)
    (inputs : list DOM.HTMLInputElement) (substitutionRules : loc)
    (options : option DOM.Options) :
  DOM.token_exception
    (default DOM.defaultHighlightClass
       (DOM.highlightClass (default DOM.no_options options))) = None ->
  Forall (fun input =>
            DOM.value input = []
            \/ (exists v, transform unicode_letter h (DOM.value input) substitutionRules
                          = Normal v)) inputs ->
  exists outputs,
    DOM.transformInputValues unicode_letter h inputs substitutionRules options
    = (outputs, DOM.Returned tt)
    /\ Forall2
         (processed unicode_letter h substitutionRules
            (default false (DOM.isReactInput (default DOM.no_options options)))
            (default {| DOM.type := "change"; DOM.bubbles := false |}
               (DOM.event (default DOM.no_options options)))
            (default DOM.defaultHighlightClass
               (DOM.highlightClass (default DOM.no_options options))))
         inputs outputs.
Proof.
  intros Hvalid Hinputs. unfold DOM.transformInputValues.
  destruct (forEach_total _ _
              (fun input =>
                 transformInputValue_total unicode_letter h substitutionRules
                   (default false (DOM.isReactInput (default DOM.no_options options)))
                   (default {| DOM.type := "change"; DOM.bubbles := false |}
                      (DOM.event (default DOM.no_options options)))
                   (default DOM.defaultHighlightClass
                      (DOM.highlightClass (default DOM.no_options options)))
                   input Hvalid)
              inputs Hinputs) as [outputs Hout].
  exists outputs. split; [exact Hout|].
  eapply forEach_returns; [|exact Hout].
  apply transformInputValue_returns.
Qed.

(** Witness for X1: a title with an apostrophe and an empty field that was
    highlighted before, under the default rules. *)
Lemma transformInputValues_highlights_changes_witness :
  exists outputs,
    DOM.transformInputValues (fun _ => false) initial_store
      [ {| DOM.value := u16 "it's"; DOM.classList := []; DOM.dispatched := [] |};
        {| DOM.value := []; DOM.classList := ["content-changed"%string];
           DOM.dispatched := [] |} ]
      punctuationRules None
    = (outputs, DOM.Returned tt)
    /\ Forall2
         (processed (fun _ => false) initial_store punctuationRules false
            {| DOM.type := "change"; DOM.bubbles := false |} DOM.defaultHighlightClass)
         [ {| DOM.value := u16 "it's"; DOM.classList := []; DOM.dispatched := [] |};
           {| DOM.value := []; DOM.classList := ["content-changed"%string];
              DOM.dispatched := [] |} ]
         outputs.
Proof.
  apply (transformInputValues_highlights_changes (fun _ => false) initial_store _
           punctuationRules None).
  - reflexivity.
  - apply Forall_cons_2; [right; eexists; vm_compute; reflexivity|].
    apply Forall_cons_2; [left; reflexivity|].
    apply Forall_nil_2.
Defined.

(** X2. When [transformInputValues] throws, one of two things happened.
    The token list refused the highlight class (a SyntaxError for the empty
    string, an InvalidCharacterError for a token with ASCII whitespace):
    then no element was changed.  Or the exception is the one [transform]
    threw on the value of one selected element: the elements before it are
    processed, that element has only lost the highlight class (its value is
    as it was), and the elements after it are as they were, highlights of
    an earlier run included. *)
Theorem transformInputValues_stops_at_exception (unicode_letter : Z -> bool) (h : Store)
    (inputs outputs : list DOM.HTMLInputElement) (substitutionRules : loc)
    (options : option DOM.Options) (x : DOM.Exception) :
  DOM.transformInputValues unicode_letter h inputs substitutionRules options
  = (outputs, DOM.Threw x) ->
  (DOM.token_exception
     (default DOM.defaultHighlightClass
        (DOM.highlightClass (default DOM.no_options options))) = Some x
   /\ inputs <> [] /\ outputs = inputs)
  \/ (DOM.token_exception
        (default DOM.defaultHighlightClass
           (DOM.highlightClass (default DOM.no_options options))) = None
      /\ exists e before before' input after,
           x = DOM.Raised e
           /\ inputs = before ++ input :: after
           /\ outputs
              = before'
                ++ DOM.without_token
                     (default DOM.defaultHighlightClass
                        (DOM.highlightClass (default DOM.no_options options))) input
                :: after
           /\ Forall2
                (processed unicode_letter h substitutionRules
                   (default false (DOM.isReactInput (default DOM.no_options options)))
                   (default {| DOM.type := "change"; DOM.bubbles := false |}
                      (DOM.event (default DOM.no_options options)))
                   (default DOM.defaultHighlightClass
                      (DOM.highlightClass (default DOM.no_options options))))
                before before'
           /\ DOM.value input <> []
           /\ transform unicode_letter h (DOM.value input) substitutionRules = Throw e).
Proof.
  unfold DOM.transformInputValues. intros H.
  destruct (DOM.token_exception _) as [x'|] eqn:Hvalid.
  - left. destruct inputs as [|input rest]; [discriminate|].
    simpl in H. rewrite (transformInputValue_invalid _ _ _ _ _ _ _ x') in H by done.
    inversion H; subst. done.
  - right. split; [done|].
    eapply forEach_throws in H; [|apply transformInputValue_returns].
    destruct H as (before & before' & input & output & after & -> & -> & HF & Hthrow).
    apply transformInputValue_throws in Hthrow as [[Hx _] | (_ & -> & Hne & e & -> & Ht)];
      [congruence|].
    exists e, before, before', input, after. done.
Qed.

(** Witness for X2: three annotation fields under the markup preserving
    rules; the second holds a link whose target [btoa] refuses. *)
Lemma transformInputValues_stops_at_exception_witness :
  let inputs :=
    [ {| DOM.value := u16 "it's"; DOM.classList := []; DOM.dispatched := [] |};
      {| DOM.value := non_latin_link; DOM.classList := ["content-changed"%string];
         DOM.dispatched := [] |};
      {| DOM.value := u16 "it's"; DOM.classList := ["content-changed"%string];
         DOM.dispatched := [] |} ] in
  let outputs :=
    [ {| DOM.value := [105; 116; RIGHT_SINGLE_QUOTE; 115];
         DOM.classList := ["content-changed"%string];
         DOM.dispatched := [ {| DOM.type := "change"; DOM.bubbles := false |} ] |};
      {| DOM.value := non_latin_link; DOM.classList := []; DOM.dispatched := [] |};
      {| DOM.value := u16 "it's"; DOM.classList := ["content-changed"%string];
         DOM.dispatched := [] |} ] in
  DOM.transformInputValues (fun _ => false) initial_store inputs
    transformationRulesToPreserveMarkup None
  = (outputs, DOM.Threw (DOM.Raised InvalidCharacterError))
  /\ exists e before before' input after,
       DOM.Raised InvalidCharacterError = DOM.Raised e
       /\ inputs = before ++ input :: after
       /\ outputs = before' ++ DOM.without_token DOM.defaultHighlightClass input :: after
       /\ DOM.value input <> []
       /\ transform (fun _ => false) initial_store (DOM.value input)
            transformationRulesToPreserveMarkup
          = Throw e.
Proof.
  intros inputs outputs.
  assert (Hrun :
    DOM.transformInputValues (fun _ => false) initial_store inputs
      transformationRulesToPreserveMarkup None
    = (outputs, DOM.Threw (DOM.Raised InvalidCharacterError)))
    by (vm_compute; reflexivity).
  split; [exact Hrun|].
  destruct (transformInputValues_stops_at_exception _ _ _ _ _ _ _ Hrun)
    as [[Hx _] | (_ & e & before & before' & input & after & He & Hin & Hout & _ & Hne & Ht)];
    [discriminate|].
  exists e, before, before', input, after.
  split; [exact He|]. split; [exact Hin|]. split; [exact Hout|].
  split; [exact Hne | exact Ht].
Defined.

(** X3. [guessUnicodePunctuation] on the selected elements, in the store
    the script starts with and with a highlight class that a token list
    takes.  For a language whose key is
    no property of [Object.prototype] the call returns; the value it leaves
    in every element is what the rules of the language make of the value
    that was there, it holds no ASCII apostrophe, and the element is
    highlighted if and only if its value changed.  For a key that is a
    property of [Object.prototype] the call throws a TypeError before any
    element is touched. *)
Theorem guessUnicodePunctuation_on_inputs (unicode_letter : Z -> bool)
    (inputs : list DOM.HTMLInputElement) (options : option DOM.Options) :
  DOM.token_exception
    (default DOM.defaultHighlightClass
       (DOM.highlightClass (default DOM.no_options options))) = None ->
  let language := DOM.language (default DOM.no_options options) in
  let highlightClass :=
    default DOM.defaultHighlightClass
      (DOM.highlightClass (default DOM.no_options options)) in
  (property_key language ∉ Object_prototype ->
   exists h' outputs,
     DOM.guessUnicodePunctuation unicode_letter initial_store inputs options
     = (h', outputs, DOM.Returned tt)
     /\ Forall2
          (fun input output =>
             guessUnicodePunctuation unicode_letter language (DOM.value input)
             = Normal (DOM.value output)
             /\ (APOSTROPHE ∉ DOM.value output)
             /\ (highlightClass ∈ DOM.classList output
                 <-> DOM.value output <> DOM.value input))
          inputs outputs)
  /\ (property_key language ∈ Object_prototype ->
      DOM.guessUnicodePunctuation unicode_letter initial_store inputs options
      = (initial_store, inputs, DOM.Threw (DOM.Raised TypeError))).
Proof.
  intros Hvalid language highlightClass. split.
  - intros Hp. unfold DOM.guessUnicodePunctuation. fold language.
    destruct (resolution_returns language Hp) as (rules & h' & -> & Hr).
    assert (Ht : forall value,
              transform unicode_letter h' value rules
              = transform_with unicode_letter (resolved (property_key language)) value).
    { intros value. unfold transform. by rewrite Hr. }
    assert (Hall : Forall (fun input =>
              DOM.value input = []
              \/ (exists v, transform unicode_letter h' (DOM.value input) rules = Normal v))
              inputs).
    { apply Forall_forall. intros input _. right. rewrite Ht.
      destruct (resolved_no_apostrophe unicode_letter (property_key language)
                  (DOM.value input)) as (out & -> & _). eauto. }
    unfold DOM.transformInputValues.
    change (default DOM.no_options (Some (default DOM.no_options options)))
      with (default DOM.no_options options).
    destruct (forEach_total _ _
                (fun input =>
                   transformInputValue_total unicode_letter h' rules
                     (default false (DOM.isReactInput (default DOM.no_options options)))
                     (default {| DOM.type := "change"; DOM.bubbles := false |}
                        (DOM.event (default DOM.no_options options)))
                     highlightClass input Hvalid) inputs Hall) as [outputs Hout].
    fold highlightClass. rewrite Hout. exists h', outputs. split; [done|].
    eapply forEach_returns in Hout; [|apply transformInputValue_returns].
    eapply Forall2_impl; [exact Hout|].
    intros input output (Hvalue & Hhigh & _).
    assert (Hguess : guessUnicodePunctuation unicode_letter language (DOM.value input)
                     = Normal (DOM.value output)).
    { rewrite guess_by_resolved by done.
      destruct (DOM.value input) as [|c value] eqn:Hv.
      - rewrite Hvalue. apply resolved_empty.
      - rewrite <- Ht. exact Hvalue. }
    split; [exact Hguess|]. split; [|exact Hhigh].
    rewrite guess_by_resolved in Hguess by done.
    destruct (resolved_no_apostrophe unicode_letter (property_key language)
                (DOM.value input)) as (out & Hout' & Hno).
    rewrite Hout' in Hguess. by inversion Hguess; subst.
  - intros Hp. unfold DOM.guessUnicodePunctuation. fold language.
    by rewrite resolution_throws.
Qed.

(** Witness for X3: the name field of an alias page in French, a React
    input. *)
Lemma guessUnicodePunctuation_on_inputs_witness :
  let options :=
    Some {| DOM.language := Some "fr"%string; DOM.isReactInput := Some true;
            DOM.event := None; DOM.highlightClass := None |} in
  let inputs :=
    [ {| DOM.value := bonjour; DOM.classList := []; DOM.dispatched := [] |} ] in
  (property_key (Some "fr"%string) ∉ Object_prototype ->
   exists h' outputs,
     DOM.guessUnicodePunctuation (fun _ => false) initial_store inputs options
     = (h', outputs, DOM.Returned tt)
     /\ Forall2
          (fun input output =>
             guessUnicodePunctuation (fun _ => false) (Some "fr"%string) (DOM.value input)
             = Normal (DOM.value output)
             /\ (APOSTROPHE ∉ DOM.value output)
             /\ (DOM.defaultHighlightClass ∈ DOM.classList output
                 <-> DOM.value output <> DOM.value input))
          inputs outputs)
  /\ (property_key (Some "fr"%string) ∈ Object_prototype ->
      DOM.guessUnicodePunctuation (fun _ => false) initial_store inputs options
      = (initial_store, inputs, DOM.Threw (DOM.Raised TypeError))).
Proof.
  intros options inputs.
  apply (guessUnicodePunctuation_on_inputs (fun _ => false) inputs options).
  reflexivity.
Defined.

Ltac table_cases H :=
  apply elem_of_list_to_map_2 in H;
  repeat (apply elem_of_cons in H as [H|H]; [inversion H; subst; clear H|]);
  [..|by apply elem_of_nil in H].

Lemma release_code (id : string) :
  Get languageCodes (value_key id (Get frequentLanguageIDs id))
  = match releaseLanguageCodes !! id with
    | Some code => Own code
    | None => Undefined
    end.
Proof.
  destruct (frequentLanguageIDs !! id) as [name|] eqn:Hname.
  - table_cases Hname; reflexivity.
  - assert (Hcode : releaseLanguageCodes !! id = None).
    { destruct (releaseLanguageCodes !! id) as [code|] eqn:Hcode; [|done].
      table_cases Hcode; vm_compute in Hname; discriminate. }
    rewrite Hcode. unfold Get at 2. rewrite Hname.
    case_bool_decide as Hp; [|reflexivity].
    repeat (apply elem_of_cons in Hp as [->|Hp]; [reflexivity|]).
    by apply elem_of_nil in Hp.
Qed.

Lemma selected_value_selected (element : option HTMLSelectElement) id :
  selected element = Some id -> selected_value element = Normal (Some id).
Proof.
  unfold selected, selected_value.
  destruct element as [[options]|]; [|discriminate].
  cbn [mbind option_bind selectedOptions].
  destruct options as [|id' options]; [discriminate|].
  cbn [head]. by intros [= ->].
Qed.

Lemma selected_value_none (element : option HTMLSelectElement) value :
  selected element = None -> selected_value element = Normal value -> value = None.
Proof.
  unfold selected, selected_value.
  destruct element as [[options]|]; [|by intros _ [= <-]].
  cbn [mbind option_bind selectedOptions].
  destruct options as [|id' options]; discriminate.
Qed.

Lemma detectReleaseLanguage_selected (page : Page) id :
  selected (language_select page) = Some id ->
  detectReleaseLanguage page
  = Normal (match releaseLanguageCodes !! id with
            | Some code => Own code
            | None => Undefined
            end).
Proof.
  intros H. unfold detectReleaseLanguage.
  rewrite (selected_value_selected _ _ H). cbn [cbind].
  destruct id as [|a s]; [reflexivity|].
  by rewrite release_code.
Qed.

(** X4. [detectReleaseLanguage] returns [undefined] on a page without the
    language select element and throws a TypeError when the element has no
    selected option.  Otherwise it returns the code of the selected
    language for nineteen of the twenty-one frequent languages, and
    [undefined] for every other value: for the two frequent languages
    whose names [languageCodes] does not hold (284, multiple languages, and
    309, Norwegian), for an unknown or empty value, and for the name of a
    property of [Object.prototype]. *)
Theorem detectReleaseLanguage_frequent (page : Page) :
  match language_select page with
  | None => detectReleaseLanguage page = Normal Undefined
  | Some select =>
      match selectedOptions select with
      | [] => detectReleaseLanguage page = Throw TypeError
      | id :: _ =>
          detectReleaseLanguage page
          = Normal (match releaseLanguageCodes !! id with
                    | Some code => Own code
                    | None => Undefined
                    end)
          /\ (id ∈ ["284"; "309"; ""; "constructor"; "__proto__"]%string ->
              detectReleaseLanguage page = Normal Undefined)
      end
  end.
Proof.
  destruct (language_select page) as [[options]|] eqn:Hs; [|].
  - destruct options as [|id options]; cbn [selectedOptions].
    + unfold detectReleaseLanguage. by rewrite Hs.
    + assert (Hd := detectReleaseLanguage_selected page id).
      unfold selected in Hd. rewrite Hs in Hd. specialize (Hd eq_refl).
      split; [exact Hd|]. intros Hin. rewrite Hd.
      repeat (apply elem_of_cons in Hin as [->|Hin]; [vm_compute; reflexivity|]).
      by apply elem_of_nil in Hin.
  - unfold detectReleaseLanguage. by rewrite Hs.
Qed.

Lemma resolved_en_default : resolved "en" = defaultRules.
Proof. rewrite resolved_en. reflexivity. Qed.

(** The rules of a given language code. *)
Ltac rules_of_code :=
  cbn [property_key default];
  first [ reflexivity
        | apply resolved_en_default
        | apply resolved_other; reflexivity ].

(** X5. Whenever [detectSupportedReleaseLanguage] returns, what it returns
    is [undefined] or a string, the language argument it makes is no
    property of [Object.prototype] (so the rules can be made), and the
    rules of that language are those of French for the language 134, of
    German for 145, of Japanese for 198, of Hebrew for 167 when the script
    11 is selected, and the default rules in every other case, Hebrew in
    another script included. *)
Theorem release_editor_rules (page : Page) (languageCode : Property string) :
  detectSupportedReleaseLanguage page = Normal languageCode ->
  exists language : option string,
    languageCode = match language with Some code => Own code | None => Undefined end
    /\ (property_key language ∉ Object_prototype)
    /\ resolved (property_key language) = releaseRules page.
Proof.
  unfold detectSupportedReleaseLanguage, releaseRules.
  destruct (selected (language_select page)) as [id|] eqn:Hid.
  - rewrite (detectReleaseLanguage_selected page id Hid).
    destruct (releaseLanguageCodes !! id) as [code|] eqn:Hcode.
    + table_cases Hcode;
        cbn [cbind String.eqb Ascii.eqb Bool.eqb];
        try (intros H; inversion H; subst; eexists (Some _);
             split; [reflexivity|]; split;
             [apply (bool_decide_eq_false_1 _); reflexivity | rules_of_code]).
      destruct (selected (script_select page)) as [script|] eqn:Hscript.
      * rewrite (selected_value_selected _ _ Hscript). cbn [cbind].
        destruct (String.eqb script "11"); intros H; inversion H; subst.
        -- exists (Some "he"%string). split; [reflexivity|]. split; [|reflexivity].
           apply (bool_decide_eq_false_1 _). reflexivity.
        -- exists None. split; [reflexivity|]. split; [|rules_of_code].
           apply (bool_decide_eq_false_1 _). reflexivity.
      * destruct (selected_value (script_select page)) as [scriptID|e] eqn:Hv;
          [|discriminate].
        apply (selected_value_none _ _ Hscript) in Hv as ->. cbn [cbind].
        intros H. inversion H; subst.
        exists None. split; [reflexivity|]. split; [|rules_of_code].
        apply (bool_decide_eq_false_1 _). reflexivity.
    + cbn [cbind]. intros H. inversion H; subst. exists None.
      split; [reflexivity|]. split; [apply (bool_decide_eq_false_1 _); reflexivity|].
      cbn [property_key default]. rewrite resolved_other by reflexivity.
      destruct (String.eqb_spec id "134") as [->|_]; [vm_compute in Hcode; discriminate|].
      destruct (String.eqb_spec id "145") as [->|_]; [vm_compute in Hcode; discriminate|].
      destruct (String.eqb_spec id "198") as [->|_]; [vm_compute in Hcode; discriminate|].
      destruct (String.eqb_spec id "167") as [->|_]; [vm_compute in Hcode; discriminate|].
      reflexivity.
  - unfold detectReleaseLanguage.
    destruct (selected_value (language_select page)) as [languageID|e] eqn:Hv;
      [|discriminate].
    apply (selected_value_none _ _ Hid) in Hv as ->. cbn [cbind].
    intros H. inversion H; subst. exists None.
    split; [reflexivity|]. split; [|rules_of_code].
    apply (bool_decide_eq_false_1 _). reflexivity.
Qed.

(** Witness for X5: Hebrew (167) in Latin script (28) gets the default
    rules. *)
Lemma release_editor_rules_witness :
  exists language : option string,
    Undefined = match language with Some code => Own code | None => Undefined end
    /\ (property_key language ∉ Object_prototype)
    /\ resolved (property_key language) = defaultRules.
Proof.
  apply (release_editor_rules
           {| language_select := Some {| selectedOptions := ["167"%string] |};
              script_select := Some {| selectedOptions := ["28"%string] |};
              locale_select := None |} Undefined).
  reflexivity.
Defined.

Lemma head_split_lacks (c : Ascii.ascii) (s : string) :
  lacks c s = true -> head (StringPrototype.split c s) = Some s.
Proof.
  induction s as [|c' s IH]; simpl; [done|].
  intros H. apply andb_true_iff in H as [Hc Hs]. apply negb_true_iff in Hc.
  rewrite Hc. specialize (IH Hs). destruct (StringPrototype.split c s) as [|piece pieces]; [done|].
  simpl in *. by inversion IH; subst.
Qed.

Lemma head_split_before (c : Ascii.ascii) (s rest : string) :
  lacks c s = true -> head (StringPrototype.split c (s +:+ String c rest)) = Some s.
Proof.
  induction s as [|c' s IH]; simpl.
  - intros _. by rewrite Ascii.eqb_refl.
  - intros H. apply andb_true_iff in H as [Hc Hs]. apply negb_true_iff in Hc.
    rewrite Hc. specialize (IH Hs).
    destruct (StringPrototype.split c (s +:+ String c rest)) as [|piece pieces]; [done|].
    simpl in *. by inversion IH; subst.
Qed.

(** X6. For a locale that is a language part, an underscore and anything
    after it, [detectAliasLanguage] returns the language part, whatever
    comes after the first underscore; for a locale without an underscore
    it returns the locale. *)
Theorem detectAliasLanguage_language_part (page : Page)
    (locale language rest : string) (others : list string) :
  locale_select page = Some {| selectedOptions := locale :: others |} ->
  lacks LOW_LINE language = true ->
  locale <> ""%string ->
  locale = language \/ locale = (language +:+ String LOW_LINE rest)%string ->
  detectAliasLanguage page = Normal (Some language).
Proof.
  intros Hs Hl Hne Hlocale. unfold detectAliasLanguage, selected_value. rewrite Hs.
  cbn [selectedOptions cbind].
  destruct locale as [|a s]; [done|].
  destruct Hlocale as [->| ->].
  - by rewrite head_split_lacks.
  - by rewrite head_split_before.
Qed.

(** Witness for X6: the locale en_US. *)
Lemma detectAliasLanguage_language_part_witness :
  detectAliasLanguage
    {| language_select := None; script_select := None;
       locale_select := Some {| selectedOptions := ["en_US"%string] |} |}
  = Normal (Some "en"%string).
Proof.
  apply (detectAliasLanguage_language_part _ "en_US" "en" "US" []);
    [reflexivity | reflexivity | discriminate | right; reflexivity].
Defined.

Lemma all_below_spec n p :
  all_below n p = true -> forall c, 0 <= c < Z.of_nat n -> p c = true.
Proof.
  unfold all_below. rewrite forallb_forall. intros H c Hc.
  rewrite <- (Z2Nat.id c) by lia. apply H, in_seq. lia.
Qed.

Lemma check_bytes (p : Z -> bool) :
  all_below 256 p = true -> forall a, latin1 a -> p a = true.
Proof. intros H a Ha. apply (all_below_spec _ _ H). unfold latin1 in Ha. lia. Qed.

Lemma check_byte_pairs (p : Z -> Z -> bool) :
  all_below 256 (fun a => all_below 256 (p a)) = true ->
  forall a b, latin1 a -> latin1 b -> p a b = true.
Proof.
  intros H a b Ha Hb.
  apply (check_bytes (p a)); [|done].
  apply (check_bytes (fun a => all_below 256 (p a))); done.
Qed.

(** The bits of three bytes in four six-bit groups, and back. *)
Lemma first_byte a b : latin1 a -> latin1 b ->
  Z.lor (Z.shiftl (Z.shiftr a 2) 2)
        (Z.shiftr (Z.lor (Z.shiftl (Z.land a 3) 4) (Z.shiftr b 4)) 4) = a.
Proof.
  intros Ha Hb. apply Z.eqb_eq.
  apply (check_byte_pairs (fun a b =>
           Z.lor (Z.shiftl (Z.shiftr a 2) 2)
             (Z.shiftr (Z.lor (Z.shiftl (Z.land a 3) 4) (Z.shiftr b 4)) 4) =? a));
    [vm_compute; reflexivity | done | done].
Qed.

Lemma second_byte_high a b : latin1 a -> latin1 b ->
  Z.land (Z.lor (Z.shiftl (Z.land a 3) 4) (Z.shiftr b 4)) 15 = Z.shiftr b 4.
Proof.
  intros Ha Hb. apply Z.eqb_eq.
  apply (check_byte_pairs (fun a b =>
           Z.land (Z.lor (Z.shiftl (Z.land a 3) 4) (Z.shiftr b 4)) 15 =? Z.shiftr b 4));
    [vm_compute; reflexivity | done | done].
Qed.

Lemma second_byte_low b c : latin1 b -> latin1 c ->
  Z.shiftr (Z.lor (Z.shiftl (Z.land b 15) 2) (Z.shiftr c 6)) 2 = Z.land b 15.
Proof.
  intros Hb Hc. apply Z.eqb_eq.
  apply (check_byte_pairs (fun b c =>
           Z.shiftr (Z.lor (Z.shiftl (Z.land b 15) 2) (Z.shiftr c 6)) 2 =? Z.land b 15));
    [vm_compute; reflexivity | done | done].
Qed.

Lemma byte_halves b : latin1 b ->
  Z.lor (Z.shiftl (Z.shiftr b 4) 4) (Z.land b 15) = b.
Proof.
  intros Hb. apply Z.eqb_eq.
  apply (check_bytes (fun b => Z.lor (Z.shiftl (Z.shiftr b 4) 4) (Z.land b 15) =? b));
    [vm_compute; reflexivity | done].
Qed.

Lemma second_byte a b c : latin1 a -> latin1 b -> latin1 c ->
  Z.lor (Z.shiftl (Z.land (Z.lor (Z.shiftl (Z.land a 3) 4) (Z.shiftr b 4)) 15) 4)
        (Z.shiftr (Z.lor (Z.shiftl (Z.land b 15) 2) (Z.shiftr c 6)) 2) = b.
Proof.
  intros Ha Hb Hc.
  by rewrite second_byte_high, second_byte_low, byte_halves.
Qed.

Lemma third_byte b c : latin1 b -> latin1 c ->
  Z.lor (Z.shiftl (Z.land (Z.lor (Z.shiftl (Z.land b 15) 2) (Z.shiftr c 6)) 3) 6)
        (Z.land c 63) = c.
Proof.
  intros Hb Hc. apply Z.eqb_eq.
  apply (check_byte_pairs (fun b c =>
           Z.lor (Z.shiftl (Z.land (Z.lor (Z.shiftl (Z.land b 15) 2) (Z.shiftr c 6)) 3) 6)
             (Z.land c 63) =? c));
    [vm_compute; reflexivity | done | done].
Qed.

(** A last group of one byte, and of two. *)
Lemma last_byte a : latin1 a ->
  Z.lor (Z.shiftl (Z.shiftr a 2) 2) (Z.shiftr (Z.shiftl (Z.land a 3) 4) 4) = a.
Proof.
  intros Ha. apply Z.eqb_eq.
  apply (check_bytes (fun a =>
           Z.lor (Z.shiftl (Z.shiftr a 2) 2) (Z.shiftr (Z.shiftl (Z.land a 3) 4) 4) =? a));
    [vm_compute; reflexivity | done].
Qed.

Lemma last_of_two a b : latin1 a -> latin1 b ->
  Z.lor (Z.shiftl (Z.land (Z.lor (Z.shiftl (Z.land a 3) 4) (Z.shiftr b 4)) 15) 4)
        (Z.shiftr (Z.shiftl (Z.land b 15) 2) 2) = b.
Proof.
  intros Ha Hb. apply Z.eqb_eq.
  apply (check_byte_pairs (fun a b =>
           Z.lor (Z.shiftl (Z.land (Z.lor (Z.shiftl (Z.land a 3) 4) (Z.shiftr b 4)) 15) 4)
             (Z.shiftr (Z.shiftl (Z.land b 15) 2) 2) =? b));
    [vm_compute; reflexivity | done | done].
Qed.

Lemma sextet_bounds a b : latin1 a -> latin1 b ->
  sextet (Z.shiftr a 2)
  /\ sextet (Z.shiftl (Z.land a 3) 4)
  /\ sextet (Z.lor (Z.shiftl (Z.land a 3) 4) (Z.shiftr b 4))
  /\ sextet (Z.shiftl (Z.land b 15) 2)
  /\ sextet (Z.lor (Z.shiftl (Z.land a 15) 2) (Z.shiftr b 6))
  /\ sextet (Z.land b 63).
Proof.
  intros Ha Hb.
  pose (ok := fun n => (0 <=? n) && (n <? 64)).
  pose (p := fun a b =>
            ok (Z.shiftr a 2) && ok (Z.shiftl (Z.land a 3) 4)
            && ok (Z.lor (Z.shiftl (Z.land a 3) 4) (Z.shiftr b 4))
            && ok (Z.shiftl (Z.land b 15) 2)
            && ok (Z.lor (Z.shiftl (Z.land a 15) 2) (Z.shiftr b 6))
            && ok (Z.land b 63)).
  assert (H : p a b = true).
  { apply (check_byte_pairs p); [vm_compute; reflexivity | done | done]. }
  subst p ok.
  cbv beta zeta in H. unfold sextet.
  repeat (apply andb_true_iff in H as [H ?]). lia.
Qed.

Lemma value_digit n : sextet n -> Base64.value (Base64.digit n) = Some n.
Proof.
  intros Hn.
  assert (H : all_below 64 (fun n =>
            match Base64.value (Base64.digit n) with
            | Some k => k =? n
            | None => false
            end) = true) by (vm_compute; reflexivity).
  pose proof (all_below_spec _ _ H n ltac:(unfold sextet in Hn; lia)) as Hv.
  cbv beta in Hv. destruct (Base64.value (Base64.digit n)); [|done].
  apply Z.eqb_eq in Hv. by subst.
Qed.

(** A Base64 digit is no equals sign and no white space. *)
Lemma digit_plain n : sextet n ->
  Base64.digit n <> 61 /\ Base64.ascii_whitespace (Base64.digit n) = false
  /\ accepts base64_char (Base64.digit n) = true.
Proof.
  intros Hn.
  assert (H : all_below 64 (fun n =>
            negb (Base64.digit n =? 61)
            && negb (Base64.ascii_whitespace (Base64.digit n))
            && accepts base64_char (Base64.digit n)) = true) by (vm_compute; reflexivity).
  pose proof (all_below_spec _ _ H n ltac:(unfold sextet in Hn; lia)) as Hv.
  cbv beta in Hv. apply andb_true_iff in Hv as [Hv H3].
  apply andb_true_iff in Hv as [H1 H2].
  apply negb_true_iff in H1, H2. apply Z.eqb_neq in H1. done.
Qed.

(** Induction on a list, three elements at a time. *)
Lemma three_by_three {A} (P : list A -> Prop) :
  P [] -> (forall a, P [a]) -> (forall a b, P [a; b]) ->
  (forall a b c rest, P rest -> P (a :: b :: c :: rest)) ->
  forall l, P l.
Proof.
  intros H0 H1 H2 H3.
  assert (H : forall l, P l /\ (forall a, P (a :: l)) /\ (forall a b, P (a :: b :: l))).
  { induction l as [|c l (IH0 & IH1 & IH2)]; [done|].
    split; [apply IH1|]. split; [intros a; apply IH2|]. intros a b. by apply H3. }
  intros l. apply H.
Qed.

Lemma encode_sextets bytes :
  Base64.encode bytes = (Base64.digit <$> sextets bytes) ++ padding bytes.
Proof.
  induction bytes as [| a | a b | a b c rest IH] using three_by_three; try reflexivity.
  cbn [Base64.encode sextets fmap list_fmap]. rewrite IH.
  unfold padding.
  replace (length (a :: b :: c :: rest) mod 3)%nat with (length rest mod 3)%nat; [done|].
  cbn [length]. change (S (S (S (length rest)))) with (3 + length rest)%nat.
  rewrite <- (Nat.Div0.add_mod_idemp_l 3). reflexivity.
Qed.

Lemma sextets_bounds bytes : Forall latin1 bytes -> Forall sextet (sextets bytes).
Proof.
  induction bytes as [| a | a b | a b c rest IH] using three_by_three; intros H.
  - constructor.
  - apply Forall_cons in H as [Ha _].
    destruct (sextet_bounds a a Ha Ha) as (? & ? & _).
    cbn [sextets]. repeat (apply Forall_cons_2; [done|]). apply Forall_nil_2.
  - apply Forall_cons in H as [Ha H]. apply Forall_cons in H as [Hb _].
    destruct (sextet_bounds a b Ha Hb) as (? & ? & ? & ? & _).
    cbn [sextets]. repeat (apply Forall_cons_2; [done|]). apply Forall_nil_2.
  - apply Forall_cons in H as [Ha H]. apply Forall_cons in H as [Hb H].
    apply Forall_cons in H as [Hc H].
    destruct (sextet_bounds a b Ha Hb) as (? & ? & ? & _).
    destruct (sextet_bounds b c Hb Hc) as (_ & _ & _ & _ & ? & ?).
    cbn [sextets]. do 4 (apply Forall_cons_2; [done|]). by apply IH.
Qed.

Lemma decode_sextets bytes : Forall latin1 bytes -> Base64.decode (sextets bytes) = bytes.
Proof.
  induction bytes as [| a | a b | a b c rest IH] using three_by_three; intros H.
  - reflexivity.
  - apply Forall_cons in H as [Ha _]. cbn [sextets Base64.decode].
    by rewrite last_byte.
  - apply Forall_cons in H as [Ha H]. apply Forall_cons in H as [Hb _].
    cbn [sextets Base64.decode]. by rewrite first_byte, last_of_two.
  - apply Forall_cons in H as [Ha H]. apply Forall_cons in H as [Hb H].
    apply Forall_cons in H as [Hc H].
    cbn [sextets Base64.decode].
    rewrite first_byte, second_byte, third_byte by done. f_equal. f_equal. f_equal.
    by apply IH.
Qed.

(** What [strip_padding] does, by the last two characters. *)
Lemma strip_padding_cases s :
  Base64.strip_padding s =
  if (length s mod 4 =? 0)%nat then
    match reverse s with
    | [] => s
    | x :: t =>
        if x =? 61 then
          match t with
          | [] => reverse t
          | y :: t' => if y =? 61 then reverse t' else reverse t
          end
        else s
    end
  else s.
Proof.
  unfold Base64.strip_padding. destruct (_ =? _)%nat; [|done].
  destruct (reverse s) as [|x t]; [done|].
  destruct (Z.eqb_spec x 61) as [->|Hx].
  - destruct t as [|y t']; [done|].
    destruct (Z.eqb_spec y 61) as [->|Hy]; [done|].
    destruct y as [|p|p]; try done.
    do 6 (try (destruct p as [p|p|]; try done)).
  - destruct x as [|p|p]; try done.
    do 6 (try (destruct p as [p|p|]; try done)).
Qed.

Lemma sextets_length bytes :
  (length (Base64.encode bytes) mod 4 = 0)%nat
  /\ (length (sextets bytes) mod 4 <> 1)%nat
  /\ (sextets bytes = [] -> padding bytes = []).
Proof.
  induction bytes as [| a | a b | a b c rest IH] using three_by_three;
    try (cbn; split; [done | split; [lia | done]]).
  destruct IH as (IH1 & IH2 & IH3).
  cbn [Base64.encode sextets length].
  assert (Hmod : forall n, (S (S (S (S n))) mod 4 = n mod 4)%nat).
  { intros n. replace (S (S (S (S n)))) with (n + 1 * 4)%nat by lia.
    apply Nat.Div0.mod_add. }
  rewrite !Hmod. done.
Qed.

Lemma last_digit (body : list Z) x t :
  Forall sextet body -> reverse (Base64.digit <$> body) = x :: t -> x <> 61.
Proof.
  intros Hb Hr.
  assert (Hin : x ∈ Base64.digit <$> body).
  { apply elem_of_reverse. rewrite Hr. apply list_elem_of_here. }
  apply list_elem_of_fmap in Hin as (n & -> & Hn).
  eapply Forall_forall in Hb; [|exact Hn]. by apply digit_plain.
Qed.

Lemma strip_padding_encode bytes :
  Forall latin1 bytes ->
  Base64.strip_padding (Base64.encode bytes) = Base64.digit <$> sextets bytes.
Proof.
  intros Hb. rewrite strip_padding_cases.
  destruct (sextets_length bytes) as (-> & _ & Hnil). cbn [Nat.eqb].
  rewrite encode_sextets. apply sextets_bounds in Hb.
  unfold padding in *. destruct (length bytes mod 3)%nat as [|[|[|k]]].
  - rewrite app_nil_r.
    destruct (reverse (Base64.digit <$> sextets bytes)) as [|x t] eqn:Hr; [done|].
    apply last_digit in Hr; [|done]. by apply Z.eqb_neq in Hr as ->.
  - rewrite reverse_app. change (reverse [61; 61]) with [61; 61].
    cbn [app]. change (61 =? 61) with true. cbv iota. by rewrite reverse_involutive.
  - rewrite reverse_app. change (reverse [61]) with [61].
    cbn [app]. change (61 =? 61) with true. cbv iota.
    destruct (reverse (Base64.digit <$> sextets bytes)) as [|x t] eqn:Hr.
    + apply (f_equal reverse) in Hr. rewrite reverse_involutive in Hr. by rewrite Hr.
    + pose proof (last_digit _ _ _ Hb Hr) as Hx. apply Z.eqb_neq in Hx as ->.
      rewrite <- Hr. by rewrite reverse_involutive.
  - rewrite app_nil_r.
    destruct (reverse (Base64.digit <$> sextets bytes)) as [|x t] eqn:Hr; [done|].
    apply last_digit in Hr; [|done]. by apply Z.eqb_neq in Hr as ->.
Qed.

Lemma encode_no_whitespace bytes :
  Forall latin1 bytes ->
  filter (fun c => Base64.ascii_whitespace c = false) (Base64.encode bytes)
  = Base64.encode bytes.
Proof.
  intros Hb. rewrite encode_sextets. apply sextets_bounds in Hb.
  rewrite filter_app. f_equal.
  - induction Hb as [|n l Hn _ IH]; [done|]. cbn [fmap list_fmap].
    rewrite filter_cons_True by (by apply digit_plain). by rewrite IH.
  - unfold padding. by destruct (length bytes mod 3)%nat as [|[|[|k]]].
Qed.

Lemma encode_accepted bytes :
  Forall latin1 bytes ->
  Forall (fun c => accepts base64_char c = true) (Base64.encode bytes).
Proof.
  intros Hb. rewrite encode_sextets. apply sextets_bounds in Hb.
  apply Forall_app_2.
  - apply Forall_fmap. eapply Forall_impl; [exact Hb|]. intros n Hn.
    by apply digit_plain.
  - unfold padding.
    destruct (length bytes mod 3)%nat as [|[|[|k]]]; repeat constructor.
Qed.

Lemma mapM_value_digit (l : list Z) :
  Forall sextet l -> mapM Base64.value (Base64.digit <$> l) = Some l.
Proof.
  intros Hl. apply mapM_Some. induction Hl as [|n l Hn _ IH]; constructor; [|done].
  by apply value_digit.
Qed.

(** [atob] undoes [btoa]. *)
Lemma btoa_latin1 bytes :
  Forall latin1 bytes -> Base64.btoa bytes = Normal (Base64.encode bytes).
Proof.
  intros Hb. unfold Base64.btoa.
  replace (forallb (fun c => c <=? 255) bytes) with true; [done|].
  symmetry. apply forallb_forall. intros c Hc%list_elem_of_In.
  eapply Forall_forall in Hb; [|exact Hc]. unfold latin1 in Hb. lia.
Qed.

Lemma atob_encode bytes :
  Forall latin1 bytes -> Base64.atob (Base64.encode bytes) = Normal bytes.
Proof.
  intros Hb. unfold Base64.atob.
  rewrite encode_no_whitespace, strip_padding_encode by done.
  rewrite length_fmap. destruct (sextets_length bytes) as (_ & Hlen & _).
  apply Nat.eqb_neq in Hlen as ->.
  rewrite mapM_value_digit by (by apply sextets_bounds).
  by rewrite decode_sextets.
Qed.

Lemma encode_nonempty bytes : bytes <> [] -> Base64.encode bytes <> [].
Proof. destruct bytes as [|a [|b [|c rest]]]; done. Qed.

Lemma latin1_checked (l : JSString) :
  forallb (fun c => (0 <=? c) && (c <=? 255)) l = true -> Forall latin1 l.
Proof.
  rewrite forallb_forall. intros H. apply Forall_forall. intros c Hc%list_elem_of_In.
  apply H in Hc. unfold latin1. lia.
Qed.

(** X7. The replacers of the rules that protect links and URLs undo each
    other on every target made of characters up to U+00FF: the encoding
    replacer returns, what it puts in the place of the target is not empty
    and made of the characters the pattern of the decoding rule accepts,
    and the decoding replacer, given that text (and the label as it was),
    returns the target (and the label). *)
Theorem link_target_round_trip (url : JSString) (label : option JSString)
    (matched matched' str str' : JSString) (position position' : nat) :
  Forall latin1 url -> url <> [] ->
  exists coded,
    Base64.btoa url = Normal coded
    /\ coded <> []
    /\ Forall (fun c => accepts base64_char c = true) coded
    /\ replacement (snd encode_link) matched str position [Some url; label]
       = Normal (link coded label)
    /\ replacement (snd decode_link) matched' str' position' [Some coded; label]
       = Normal (link url label)
    /\ replacement (snd encode_url) matched str position [Some url] = Normal coded
    /\ replacement (snd decode_url) matched' str' position' [Some coded] = Normal url.
Proof.
  intros Hurl Hne. exists (Base64.encode url).
  split; [by apply btoa_latin1|]. split; [by apply encode_nonempty|].
  split; [by apply encode_accepted|].
  cbn [replacement snd encode_link decode_link encode_url decode_url group
       lookup list_lookup pred default from_option id].
  rewrite btoa_latin1, atob_encode by done. done.
Qed.

(** Witness for X7: the target of the example link, with its label. *)
Lemma link_target_round_trip_witness :
  exists coded,
    Base64.btoa example_target = Normal coded
    /\ replacement (snd decode_link) [] [] 0 [Some coded; Some (u16 "|label")]
       = Normal (u16 "[http://example.com/a-b|label]").
Proof.
  assert (Hl : Forall latin1 example_target) by (apply latin1_checked; reflexivity).
  destruct (link_target_round_trip example_target (Some (u16 "|label")) [] [] [] [] 0 0 Hl
              ltac:(discriminate))
    as (coded & Hb & _ & _ & _ & Hd & _).
  exists coded. split; [exact Hb | exact Hd].
Defined.

Section Demands.
Variable unicode_letter : Z -> bool.
Variable rer : RegExp.RegExp.
Variable Input : JSString.
Import RegExp.

Lemma Matches_demands ch r :
  demands ch r = true ->
  forall dir x y,
    Matches unicode_letter rer Input r dir x y ->
    exists dir' e ch' e',
      read rer Input dir' e = Some (ch', e')
      /\ canonicalize rer ch' = canonicalize rer ch.
Proof.
  induction r as [|invert atoms|r1 IH1 r2 IH2|r1 IH1 r2 IH2|min max greedy r IH
                  |n r IH|ahead negative r IH| |]; simpl; intros Hreq dir x y H;
    try discriminate.
  - destruct invert; [discriminate|].
    destruct atoms as [|[c| | | | | |] [|]]; try discriminate.
    apply Z.eqb_eq in Hreq. subst c.
    destruct H as (ch' & Hr & Hc & _).
    exists dir, (endIndex x), ch', (endIndex y). split; [done|].
    unfold class_matches in Hc. simpl in Hc.
    rewrite orb_false_r in Hc. by apply Z.eqb_eq in Hc.
  - apply orb_true_iff in Hreq.
    destruct dir; destruct H as (z & H1 & H2); destruct Hreq; eauto.
  - apply andb_true_iff in Hreq as [? ?]. destruct H; eauto.
  - apply andb_true_iff in Hreq as [Hl ?].
    destruct H as (k & Hk & Hit).
    assert (1 <= least min max)%nat by (destruct (least min max); [discriminate | lia]).
    apply iterate_first in Hit as (z & Hz); [|lia]. eauto.
  - destruct H as (z & ? & _). eauto.
  - destruct negative; [discriminate|]. destruct H as (z & Hz & _). eauto.
Qed.

(** A pattern that demands a character the input does not hold matches
    nowhere. *)
Lemma demands_no_match ch :
  demands ch (pattern rer) = true -> plain ch = true -> ch ∉ Input ->
  forall i, match_at unicode_letter rer Input i = None.
Proof.
  intros Hreq Hp Hnot i. unfold match_at.
  destruct (matcher _ _ _ _ _ _ _) as [z|] eqn:Hm; [|done].
  apply matcher_sound in Hm as (y & Hy & _).
  eapply Matches_demands in Hy as (dir' & e & ch' & e' & Hr & Hc); [|done].
  apply canonicalize_plain in Hc; [|done]. subst ch'.
  apply read_cases in Hr as [?|?]; [done|].
  unfold plain in Hp. lia.
Qed.

End Demands.

Section MarkupGuard.
Variable unicode_letter : Z -> bool.

Lemma substitute_demands ch str rule :
  demands ch (RegExp.pattern (fst rule)) = true -> plain ch = true ->
  ch ∉ str ->
  substitute unicode_letter str rule = Normal str.
Proof.
  intros. apply replace_no_match. by eapply demands_no_match.
Qed.

Ltac template_without_markup :=
  repeat first [ apply Forall_nil_2
               | apply Forall_cons_2; [compute; repeat split; intros ?; discriminate|] ].

(** The rules between the encoding and the decoding rules. *)
Lemma middle_rules_return value :
  exists out,
    transform_with unicode_letter
      ([bold_in; italic_in] ++ defaultRules ++ [bold_out; italic_out]) value
    = Normal out.
Proof.
  apply transform_with_never_throws.
  repeat (apply Forall_cons_2;
          [first [ exact I | apply date_hyphens_never_throws
                 | apply figure_dashes_never_throws ] |]).
  apply Forall_nil_2.
Qed.

Lemma defaultRules_return value :
  exists out, transform_with unicode_letter defaultRules value = Normal out.
Proof.
  apply transform_with_never_throws.
  repeat (apply Forall_cons_2;
          [first [ exact I | apply date_hyphens_never_throws
                 | apply figure_dashes_never_throws ] |]).
  apply Forall_nil_2.
Qed.

(** They write neither [[] nor [/]. *)
Lemma middle_rules_without_link :
  Forall (fun rule => preserving not_link (snd rule))
    ([bold_in; italic_in] ++ defaultRules ++ [bold_out; italic_out]).
Proof.
  repeat (apply Forall_cons_2;
          [first [ by apply date_hyphens_preserving
                 | by apply figure_dashes_preserving
                 | simpl; template_without_markup ] |]).
  apply Forall_nil_2.
Qed.

(** The default rules write none of the characters [[], [/] and [<]. *)
Lemma defaultRules_without_markup :
  Forall (fun rule => preserving not_markup (snd rule)) defaultRules.
Proof.
  repeat (apply Forall_cons_2;
          [first [ by apply date_hyphens_preserving
                 | by apply figure_dashes_preserving
                 | simpl; template_without_markup ] |]).
  apply Forall_nil_2.
Qed.

Lemma markup_rules value :
  guessPreservingMarkup unicode_letter value
  = transform_with unicode_letter
      ([encode_link; encode_url]
       ++ ([bold_in; italic_in] ++ defaultRules ++ [bold_out; italic_out])
       ++ [decode_url; decode_link]) value.
Proof. unfold guessPreservingMarkup, transform. by rewrite rules_at_markup. Qed.

End MarkupGuard.

(** X8. On a text that holds neither a left square bracket nor a solidus,
    the markup preserving rules return: no rule calls [btoa] or [atob].
    The text they return holds neither character. *)
Theorem markup_guard_returns (unicode_letter : Z -> bool) (value : JSString) :
  LEFT_BRACKET ∉ value -> SOLIDUS ∉ value ->
  exists out,
    guessPreservingMarkup unicode_letter value = Normal out
    /\ (LEFT_BRACKET ∉ out) /\ (SOLIDUS ∉ out).
Proof.
  intros Hb Hs. rewrite markup_rules.
  rewrite (transform_with_app _ [encode_link; encode_url]).
  cbn [transform_with].
  rewrite (substitute_demands _ LEFT_BRACKET) by done. cbn [cbind].
  rewrite (substitute_demands _ SOLIDUS) by done. cbn [cbind].
  rewrite (transform_with_app _ ([bold_in; italic_in] ++ defaultRules
                                 ++ [bold_out; italic_out])).
  destruct (middle_rules_return unicode_letter value) as [out Hout].
  rewrite Hout. cbn [cbind transform_with].
  assert (Hno : Forall not_link out).
  { apply (transform_with_Forall unicode_letter not_link _
             middle_rules_without_link value out); [|exact Hout].
    apply Forall_forall. intros c Hc. split; intros ->; done. }
  assert (Hb' : LEFT_BRACKET ∉ out).
  { intros Hin. eapply Forall_forall in Hno as [? _]; [|exact Hin]. done. }
  assert (Hs' : SOLIDUS ∉ out).
  { intros Hin. eapply Forall_forall in Hno as [_ ?]; [|exact Hin]. done. }
  rewrite (substitute_demands _ SOLIDUS) by done. cbn [cbind].
  rewrite (substitute_demands _ LEFT_BRACKET) by done. cbn [cbind].
  eauto.
Qed.

(** Witness for X8: a text with bold markup and no link. *)
Lemma markup_guard_returns_witness :
  exists out,
    guessPreservingMarkup (fun _ => false) (u16 "'''it's''' bold") = Normal out
    /\ (LEFT_BRACKET ∉ out) /\ (SOLIDUS ∉ out).
Proof.
  apply (markup_guard_returns (fun _ => false) (u16 "'''it's''' bold"));
    not_in_template.
Defined.

(** X9. On a text without markup, that is without an apostrophe, a left
    square bracket, a solidus and a less-than sign, the markup preserving
    rules give what the default rules give. *)
Theorem markup_guard_on_plain_text (unicode_letter : Z -> bool) (value : JSString) :
  APOSTROPHE ∉ value -> LEFT_BRACKET ∉ value -> SOLIDUS ∉ value ->
  LESS_THAN ∉ value ->
  guessPreservingMarkup unicode_letter value
  = guessUnicodePunctuation unicode_letter None value.
Proof.
  intros Ha Hb Hs Hl.
  rewrite guess_by_resolved by (apply (bool_decide_eq_false_1 _); reflexivity).
  cbn [property_key default]. rewrite resolved_other by reflexivity.
  rewrite markup_rules.
  rewrite (transform_with_app _ [encode_link; encode_url]).
  cbn [transform_with].
  rewrite (substitute_demands _ LEFT_BRACKET) by done. cbn [cbind].
  rewrite (substitute_demands _ SOLIDUS) by done. cbn [cbind].
  rewrite <- !app_assoc. cbn [app transform_with].
  rewrite (substitute_demands _ APOSTROPHE) by done. cbn [cbind].
  rewrite (substitute_demands _ APOSTROPHE) by done. cbn [cbind].
  rewrite (transform_with_app _ defaultRules).
  destruct (defaultRules_return unicode_letter value) as [out Hout].
  rewrite Hout. cbn [cbind app transform_with].
  assert (Hno : Forall not_markup out).
  { apply (transform_with_Forall unicode_letter not_markup _
             defaultRules_without_markup value out); [|exact Hout].
    apply Forall_forall. intros c Hc. repeat split; intros ->; done. }
  assert (Hb' : LEFT_BRACKET ∉ out).
  { intros Hin. eapply Forall_forall in Hno as (? & _); [|exact Hin]. done. }
  assert (Hs' : SOLIDUS ∉ out).
  { intros Hin. eapply Forall_forall in Hno as (_ & ? & _); [|exact Hin]. done. }
  assert (Hl' : LESS_THAN ∉ out).
  { intros Hin. eapply Forall_forall in Hno as (_ & _ & ?); [|exact Hin]. done. }
  rewrite (substitute_demands _ LESS_THAN) by done. cbn [cbind].
  rewrite (substitute_demands _ LESS_THAN) by done. cbn [cbind].
  rewrite (substitute_demands _ SOLIDUS) by done. cbn [cbind].
  rewrite (substitute_demands _ LEFT_BRACKET) by done. cbn [cbind].
  done.
Qed.

(** Witness for X9: a date range. *)
Lemma markup_guard_on_plain_text_witness :
  guessPreservingMarkup (fun _ => false) (u16 "1965-1972")
  = guessUnicodePunctuation (fun _ => false) None (u16 "1965-1972").
Proof.
  apply (markup_guard_on_plain_text (fun _ => false) (u16 "1965-1972"));
    not_in_template.
Defined.

Section LazyRun.
Variable unicode_letter : Z -> bool.
Variable r0 : RegExp.Regex.
Variable Input : JSString.
Import RegExp.

Abbreviation rer := (ug r0).
Abbreviation matcher := (RegExp.matcher unicode_letter rer Input).

Lemma read_forward_unit_ug e c :
  Input !! e = Some c -> is_lead c = false ->
  read_forward rer Input e = Some (c, S e).
Proof.
  unfold read_forward. intros -> Hc. rewrite Hc.
  by destruct (Input !! S e).
Qed.

Lemma matcher_lit_ug ch x c :
  Input !! endIndex x = Some ch -> is_lead ch = false ->
  matcher (lit ch) Forward x c
  = c {| endIndex := S (endIndex x); captures := captures x |}.
Proof.
  intros H Hl. unfold lit. cbn [RegExp.matcher read].
  rewrite (read_forward_unit_ug _ _ H Hl).
  unfold class_matches. cbn [existsb atom_matches]. unfold canonicalize.
  cbn [ignoreCase andb]. by rewrite Z.eqb_refl.
Qed.

Lemma matcher_lit_other ch x c d :
  Input !! endIndex x = Some d -> is_lead d = false -> d <> ch ->
  matcher (lit ch) Forward x c = None.
Proof.
  intros H Hl Hne. unfold lit. cbn [RegExp.matcher read].
  rewrite (read_forward_unit_ug _ _ H Hl).
  unfold class_matches. cbn [existsb atom_matches]. unfold canonicalize.
  simpl. apply Z.eqb_neq in Hne. by rewrite Hne.
Qed.

Lemma matcher_dot x c d :
  Input !! endIndex x = Some d -> is_lead d = false -> is_line_terminator d = false ->
  matcher dot Forward x c
  = c {| endIndex := S (endIndex x); captures := captures x |}.
Proof.
  intros H Hl Ht. unfold dot. cbn [RegExp.matcher read].
  rewrite (read_forward_unit_ug _ _ H Hl).
  unfold class_matches. cbn [existsb atom_matches]. by rewrite Ht.
Qed.

(** The lazy loop over a run of characters: it stops at the first place
    where what follows the loop matches. *)
Lemma lazy_dots text :
  forall pre post fuel caps c z,
    Input = pre ++ text ++ post ->
    Forall (fun d => is_lead d = false /\ is_line_terminator d = false) text ->
    (length text < fuel)%nat ->
    (forall k, (k < length text)%nat ->
       c {| endIndex := length pre + k; captures := caps |} = None) ->
    c {| endIndex := length pre + length text; captures := caps |} = Some z ->
    RepeatMatcher (matcher dot Forward) [] false fuel 0 None
      {| endIndex := length pre; captures := caps |} c = Some z.
Proof.
  induction text as [|d text IH]; intros pre post fuel caps c z HI Ht Hfuel Hno Hc.
  - destruct fuel as [|fuel]; [simpl in Hfuel; lia|].
    cbn [RepeatMatcher Nat.eqb negb]. cbn [length] in Hc. rewrite Nat.add_0_r in Hc.
    by rewrite Hc.
  - destruct fuel as [|fuel]; [simpl in Hfuel; lia|].
    apply Forall_cons in Ht as [[Hl Hlt] Ht].
    assert (Hlook : Input !! length pre = Some d)
      by (subst Input; cbn [app]; by apply list_lookup_middle).
    assert (Hc0 : c {| endIndex := length pre; captures := caps |} = None).
    { rewrite <- (Nat.add_0_r (length pre)). apply Hno. simpl. lia. }
    cbn [RepeatMatcher Nat.eqb negb]. rewrite Hc0.
    cbn [clear_captures foldr endIndex captures].
    rewrite (matcher_dot _ _ d) by done. cbn [endIndex captures].
    replace (Nat.eqb (S (length pre)) (length pre)) with false
      by (symmetry; apply Nat.eqb_neq; lia).
    cbn [andb fmap option_fmap option_map pred].
    replace (S (length pre)) with (length (pre ++ [d]))
      by (rewrite length_app; simpl; lia).
    apply (IH (pre ++ [d]) post).
    + by rewrite <- app_assoc.
    + done.
    + simpl in Hfuel. lia.
    + intros k Hk. rewrite length_app. cbn [length].
      replace (length pre + 1 + k)%nat with (length pre + S k)%nat by lia.
      apply Hno. simpl. lia.
    + rewrite length_app. cbn [length].
      replace (length pre + 1 + length text)%nat
        with (length pre + S (length text))%nat by lia.
      exact Hc.
Qed.

(** The lookarounds of the quotation rules at the ends of the input. *)
Lemma lookbehind_at_start caps c :
  matcher (lookbehind (Alt non_alnum AssertStart)) Forward
    {| endIndex := 0; captures := caps |} c
  = c {| endIndex := 0; captures := caps |}.
Proof. reflexivity. Qed.

Lemma lookahead_at_end e caps c :
  e = length Input ->
  matcher (lookahead (Alt non_alnum AssertEnd)) Forward
    {| endIndex := e; captures := caps |} c
  = c {| endIndex := e; captures := caps |}.
Proof.
  intros ->. unfold lookahead, non_alnum. cbn [RegExp.matcher read endIndex captures].
  unfold read_forward. rewrite lookup_ge_None_2 by lia.
  by rewrite Nat.eqb_refl.
Qed.

End LazyRun.

Section Enclosed.
Variable unicode_letter : Z -> bool.
Variable delimiter : Z.
Variable text : JSString.
Hypothesis delimiter_no_lead : RegExp.is_lead delimiter = false.
Hypothesis text_not_empty : text <> [].
Hypothesis text_plain :
  Forall (fun c => c <> delimiter /\ RegExp.is_lead c = false
                   /\ RegExp.is_line_terminator c = false) text.
Import RegExp.

Lemma enclosed_lookup_last :
  (delimiter :: text ++ [delimiter]) !! S (length text) = Some delimiter.
Proof.
  change (delimiter :: text ++ [delimiter]) with ([delimiter] ++ text ++ [delimiter]).
  rewrite lookup_app_r by (simpl; lia). cbn [length].
  replace (S (length text) - 1)%nat with (length text) by lia.
  by apply list_lookup_middle.
Qed.

Lemma enclosed_length : length (delimiter :: text ++ [delimiter]) = S (S (length text)).
Proof. cbn [length]. rewrite length_app. simpl. lia. Qed.

(** The pattern matches the whole input from its start, and the group
    takes the text. *)
Lemma enclosed_match :
  match_at unicode_letter (enclosed delimiter) (delimiter :: text ++ [delimiter]) 0
  = Some {| endIndex := length (delimiter :: text ++ [delimiter]);
            captures := [Some (1%nat, S (length text))] |}.
Proof.
  pose proof enclosed_lookup_last as Hlast. pose proof enclosed_length as Hlen.
  destruct text as [|t rest] eqn:Ht; [done|].
  apply Forall_cons in text_plain as [(Hne & Htl & Htt) Hrest].
  remember (delimiter :: (t :: rest) ++ [delimiter]) as Input eqn:HI.
  assert (Hfirst : Input !! 0%nat = Some delimiter) by (by subst Input).
  assert (Hsecond : Input !! 1%nat = Some t) by (by subst Input).
  assert (Hrests : forall k c, rest !! k = Some c -> Input !! (2 + k)%nat = Some c).
  { intros k c Hk. subst Input. simpl.
    rewrite lookup_app_l by (by eapply lookup_lt_Some). done. }
  unfold match_at.
  pose (r0 := (lookbehind (Alt non_alnum AssertStart) <+> lit delimiter <+>
               Group 1 (lazy_plus dot) <+> lit delimiter <+>
               lookahead (Alt non_alnum AssertEnd))%re).
  change (enclosed delimiter) with (ug r0).
  change (nCaptures (pattern (ug r0))) with 1%nat.
  change (pattern (ug r0))
    with (lookbehind (Alt non_alnum AssertStart) <+> lit delimiter <+>
          Group 1 (lazy_plus dot) <+> lit delimiter <+>
          lookahead (Alt non_alnum AssertEnd))%re.
  cbn [replicate RegExp.matcher].
  rewrite lookbehind_at_start.
  rewrite (matcher_lit_ug unicode_letter r0 Input delimiter) by done.
  cbn [endIndex captures]. unfold lazy_plus. cbn [RegExp.matcher].
  change (groups dot) with (@nil nat).
  cbn [Nat.add RepeatMatcher Nat.eqb negb clear_captures foldr endIndex captures].
  rewrite (matcher_dot unicode_letter r0 Input _ _ t) by done.
  cbn [endIndex captures Nat.eqb andb fmap option_fmap option_map pred].
  apply (lazy_dots unicode_letter r0 Input rest [delimiter; t] [delimiter]).
  - by subst Input.
  - eapply Forall_impl; [exact Hrest|]. by intros c (_ & ? & ?).
  - rewrite Hlen. cbn [length]. lia.
  - intros k Hk. cbn [length endIndex captures].
    destruct (rest !! k) as [c|] eqn:Hc; [|apply lookup_ge_None in Hc; lia].
    pose proof Hrest as Hrest'.
    eapply Forall_forall in Hrest' as (Hnec & Hl & _);
      [|eapply list_elem_of_lookup_2, Hc].
    apply (matcher_lit_other unicode_letter r0 Input delimiter _ _ c); [|done|done].
    cbn [endIndex]. by apply Hrests.
  - cbn [length endIndex captures].
    rewrite (matcher_lit_ug unicode_letter r0 Input delimiter);
      [|cbn [endIndex]; rewrite <- Hlast; cbn [length]; f_equal; lia | done].
    cbn [endIndex captures].
    rewrite lookahead_at_end by (rewrite Hlen; cbn [length]; lia).
    rewrite Hlen. cbn [length set_capture pred]. do 3 f_equal.
Qed.

(** It does not match at the end of the input. *)
Lemma enclosed_end :
  match_at unicode_letter (enclosed delimiter) (delimiter :: text ++ [delimiter])
    (length (delimiter :: text ++ [delimiter])) = None.
Proof.
  set (Input := delimiter :: text ++ [delimiter]).
  assert (Hlit : forall x c, endIndex x = length Input ->
            RegExp.matcher unicode_letter (enclosed delimiter) Input (lit delimiter)
              Forward x c = None).
  { intros x c Hx. unfold lit. cbn [RegExp.matcher read]. unfold read_forward.
    by rewrite lookup_ge_None_2 by lia. }
  unfold match_at.
  change (pattern (enclosed delimiter))
    with (lookbehind (Alt non_alnum AssertStart) <+> lit delimiter <+>
          Group 1 (lazy_plus dot) <+> lit delimiter <+>
          lookahead (Alt non_alnum AssertEnd))%re.
  cbn [RegExp.matcher]. unfold lookbehind at 1. cbn [RegExp.matcher].
  match goal with
  | |- match ?X with Some _ => _ | None => None end = None =>
      destruct X as [y|]; [apply Hlit; reflexivity | reflexivity]
  end.
Qed.

End Enclosed.

(** The template of a quotation rule, with one group. *)
Lemma GetSubstitution_quoted matched str position text left right :
  DOLLAR_SIGN ∉ left -> DOLLAR_SIGN ∉ right ->
  GetSubstitution matched str position [Some text] (quoted left right)
  = left ++ text ++ right.
Proof.
  intros Hl Hr. unfold quoted.
  induction left as [|c left IH].
  - change (u16 "$1") with [DOLLAR_SIGN; 49]. cbn [app GetSubstitution].
    change (negb (DOLLAR_SIGN =? DOLLAR_SIGN)) with false.
    change (49 =? DOLLAR_SIGN) with false. change (49 =? AMPERSAND) with false.
    change (49 =? GRAVE_ACCENT) with false. change (49 =? APOSTROPHE) with false.
    change (RegExp.is_digit 49) with true. change (decimal 49) with 1%nat.
    cbv iota. cbn [length Nat.leb andb group pred lookup list_lookup default
                   from_option id].
    rewrite (GetSubstitution_no_dollar matched str position [Some text] right Hr).
    destruct right as [|d2 t3]; [done|].
    replace (10 * 1 + decimal d2 <=? 1)%nat with false
      by (symmetry; apply Nat.leb_gt; lia).
    by rewrite andb_false_r.
  - apply not_elem_of_cons in Hl as [Hc Hl]. cbn [app GetSubstitution].
    assert (Hc' : (c =? DOLLAR_SIGN) = false) by (apply Z.eqb_neq; congruence).
    rewrite Hc'. cbn [negb]. by rewrite IH.
Qed.

Section QuotedText.
Variable unicode_letter : Z -> bool.

(** A quotation rule on a text between its delimiters. *)
Lemma substitute_enclosed delimiter text left right :
  RegExp.is_lead delimiter = false ->
  text <> [] ->
  Forall (fun c => c <> delimiter /\ RegExp.is_lead c = false
                   /\ RegExp.is_line_terminator c = false) text ->
  DOLLAR_SIGN ∉ left -> DOLLAR_SIGN ∉ right ->
  substitute unicode_letter (delimiter :: text ++ [delimiter])
    (enclosed delimiter, Template (quoted left right))
  = Normal (left ++ text ++ right).
Proof.
  intros Hd Hne Ht Hl Hr. unfold substitute, replace. cbn [fst snd].
  pose proof (enclosed_match unicode_letter delimiter text Hd Hne Ht) as Hm.
  pose proof (enclosed_end unicode_letter delimiter text) as He.
  rewrite (results_whole unicode_letter (enclosed delimiter)
             (delimiter :: text ++ [delimiter]) _ eq_refl ltac:(discriminate)
             Hm eq_refl He).
  apply assemble_whole; [reflexivity|].
  unfold capture_strings. cbn [RegExp.captures map option_map fst snd].
  f_equal.
  replace (substring (delimiter :: text ++ [delimiter]) 1 (S (length text))) with text.
  - by apply GetSubstitution_quoted.
  - unfold substring. cbn [drop]. rewrite drop_0.
    replace (S (length text) - 1)%nat with (length text) by lia.
    by rewrite take_app_length.
Qed.

End QuotedText.

(** The rule list of a language begins with its double quotation rule. *)
Lemma resolved_marks key :
  exists sq ap hy extra,
    resolved key
    = overridden (quoted (fst (quotation_marks key)) (snd (quotation_marks key)))
        sq ap hy ++ extra
    /\ (extra = [] \/ extra = [de_compound] \/ extra = [ja_brackets]
        \/ extra = [he_acronym]).
Proof.
  destruct (key_cases key) as [Hin|[Ho Hr]].
  - repeat (apply elem_of_cons in Hin as [->|Hin]).
    + rewrite resolved_en. eexists _, _, _, []. rewrite app_nil_r. split; [reflexivity|].
      by left.
    + rewrite resolved_fr. eexists _, _, _, []. rewrite app_nil_r. split; [reflexivity|].
      by left.
    + rewrite resolved_de. eexists _, _, _, _. split; [reflexivity|]. right. by left.
    + rewrite resolved_he. eexists _, _, _, _. split; [reflexivity|].
      right. right. by right.
    + rewrite resolved_ja, defaultRules_overridden. eexists _, _, _, _.
      split; [reflexivity|]. right. right. by left.
    + by apply elem_of_nil in Hin.
  - rewrite (resolved_other key Ho Hr), defaultRules_overridden.
    assert (Hq : quotation_marks key = ([LEFT_DOUBLE_QUOTE], [RIGHT_DOUBLE_QUOTE])).
    { unfold quotation_marks.
      destruct (String.eqb_spec key "fr") as [->|_]; [vm_compute in Ho; discriminate|].
      destruct (String.eqb_spec key "de") as [->|_]; [vm_compute in Ho; discriminate|].
      destruct (String.eqb_spec key "he") as [->|_]; [vm_compute in Ho; discriminate|].
      reflexivity. }
    rewrite Hq. eexists _, _, _, []. rewrite app_nil_r. split; [reflexivity|]. by left.
Qed.

Section AfterQuotes.
Variable unicode_letter : Z -> bool.

(** The rules after the double quotation rule, on a text that holds none
    of the four ASCII marks. *)
Lemma rules_after_quotes sq ap hy extra value :
  extra = [] \/ extra = [de_compound] \/ extra = [ja_brackets] \/ extra = [he_acronym] ->
  QUOTATION_MARK ∉ value -> APOSTROPHE ∉ value -> HYPHEN_MINUS ∉ value ->
  FULL_STOP ∉ value ->
  transform_with unicode_letter
    ([n_idiom; (fst single_quoted, Template sq); double_primes; single_primes;
      (fst apostrophes, Template ap); ellipses; dash_separator; date_hyphens;
      figure_dashes; range_dash; (fst hyphens, Template hy)] ++ extra) value
  = Normal value.
Proof.
  intros Hextra Hq Ha Hh Hf.
  assert (Hskip : forall ch rule rules,
            requires ch (RegExp.pattern (fst rule)) = true -> plain ch = true ->
            ch ∉ value ->
            transform_with unicode_letter (rule :: rules) value
            = transform_with unicode_letter rules value).
  { intros ch rule rules Hr Hp Hc. apply transform_with_step.
    by apply (substitute_requires unicode_letter ch). }
  cbn [app].
  rewrite (Hskip APOSTROPHE) by done. rewrite (Hskip APOSTROPHE) by done.
  rewrite (Hskip QUOTATION_MARK) by done. rewrite (Hskip APOSTROPHE) by done.
  rewrite (Hskip APOSTROPHE) by done. rewrite (Hskip FULL_STOP) by done.
  rewrite (Hskip HYPHEN_MINUS) by done. rewrite (Hskip HYPHEN_MINUS) by done.
  rewrite (Hskip HYPHEN_MINUS) by done. rewrite (Hskip HYPHEN_MINUS) by done.
  rewrite (Hskip HYPHEN_MINUS) by done.
  destruct Hextra as [-> | [-> | [-> | ->]]]; [done| | |].
  - by rewrite (Hskip HYPHEN_MINUS) by done.
  - by rewrite (Hskip HYPHEN_MINUS) by done.
  - by rewrite (Hskip QUOTATION_MARK) by done.
Qed.

Lemma ordinary_spec c :
  ordinary c = true ->
  c <> QUOTATION_MARK /\ c <> APOSTROPHE /\ c <> HYPHEN_MINUS /\ c <> FULL_STOP
  /\ RegExp.is_line_terminator c = false /\ RegExp.is_lead c = false.
Proof.
  unfold ordinary. intros H.
  repeat (apply andb_true_iff in H as [H ?]).
  repeat match goal with
         | H : negb _ = true |- _ => apply negb_true_iff in H
         | H : (_ =? _) = false |- _ => apply Z.eqb_neq in H
         end.
  done.
Qed.

End AfterQuotes.

Ltac listed := repeat first [apply list_elem_of_here | apply list_elem_of_further].

(** X10. A text between two ASCII double quotes, made of one or more
    ordinary characters (none of the ASCII marks U+0022, U+0027, U+002D
    and U+002E, no line terminator, no surrogate pair), comes out between
    the quotation marks of the language: guillemets and spaces for French,
    a low and a left double quotation mark for German, two right double
    quotation marks for Hebrew, a left and a right double quotation mark
    for every other language and without one.  The text itself is not
    changed. *)
Theorem quoted_text_by_language (unicode_letter : Z -> bool)
    (language : option string) (text : JSString) :
  property_key language ∉ Object_prototype ->
  text <> [] ->
  Forall (fun c => ordinary c = true) text ->
  guessUnicodePunctuation unicode_letter language
    ([QUOTATION_MARK] ++ text ++ [QUOTATION_MARK])
  = Normal (fst (quotation_marks (property_key language)) ++ text
            ++ snd (quotation_marks (property_key language))).
Proof.
  intros Hp Hne Ht. rewrite guess_by_resolved by done.
  destruct (resolved_marks (property_key language)) as (sq & ap & hy & extra & -> & Hextra).
  assert (Hord : forall c, c ∈ text ->
            c <> QUOTATION_MARK /\ c <> APOSTROPHE /\ c <> HYPHEN_MINUS /\ c <> FULL_STOP
            /\ RegExp.is_line_terminator c = false /\ RegExp.is_lead c = false).
  { intros c Hc. eapply Forall_forall in Ht; [|exact Hc]. by apply ordinary_spec. }
  assert (Hmarks : forall ch,
            ch ∈ [QUOTATION_MARK; APOSTROPHE; HYPHEN_MINUS; FULL_STOP; DOLLAR_SIGN] ->
            (ch ∉ fst (quotation_marks (property_key language)))
            /\ (ch ∉ snd (quotation_marks (property_key language)))).
  { intros ch Hch. unfold quotation_marks.
    repeat (apply elem_of_cons in Hch as [->|Hch]);
      try (by apply elem_of_nil in Hch);
      repeat destruct (String.eqb _ _); cbn [fst snd]; split; not_in_template. }
  unfold overridden. cbn [app].
  rewrite (transform_with_step _ _ _ _
             (fst (quotation_marks (property_key language)) ++ text
              ++ snd (quotation_marks (property_key language)))).
  - apply (rules_after_quotes unicode_letter sq ap hy extra _ Hextra);
      rewrite !not_elem_of_app.
    + split; [apply Hmarks; listed|]. split; [|apply Hmarks; listed].
      intros Hin. by apply Hord in Hin as (? & _).
    + split; [apply Hmarks; listed|]. split; [|apply Hmarks; listed].
      intros Hin. by apply Hord in Hin as (_ & ? & _).
    + split; [apply Hmarks; listed|]. split; [|apply Hmarks; listed].
      intros Hin. by apply Hord in Hin as (_ & _ & ? & _).
    + split; [apply Hmarks; listed|]. split; [|apply Hmarks; listed].
      intros Hin. by apply Hord in Hin as (_ & _ & _ & ? & _).
  - apply (substitute_enclosed unicode_letter QUOTATION_MARK text); try done.
    + apply Forall_forall. intros c Hc. apply Hord in Hc. tauto.
    + apply Hmarks. listed.
    + apply Hmarks. listed.
Qed.

(** Witness for X10: a French title of two words. *)
Lemma quoted_text_by_language_witness :
  guessUnicodePunctuation (fun _ => false) (Some "fr"%string)
    ([QUOTATION_MARK] ++ u16 "La mer" ++ [QUOTATION_MARK])
  = Normal ([LEFT_GUILLEMET; SPACE] ++ u16 "La mer" ++ [SPACE; RIGHT_GUILLEMET]).
Proof.
  apply (quoted_text_by_language (fun _ => false) (Some "fr"%string) (u16 "La mer")).
  - apply (bool_decide_eq_false_1 _). reflexivity.
  - discriminate.
  - repeat (apply Forall_cons_2; [reflexivity|]). apply Forall_nil_2.
Defined.

Section Literals.
Variable unicode_letter : Z -> bool.
Variable r0 : RegExp.Regex.
Variable Input : JSString.
Import RegExp.

Lemma matcher_lit_forward ch x c :
  RegExp.matcher unicode_letter (g r0) Input (lit ch) Forward x c
  = match Input !! endIndex x with
    | Some a =>
        if a =? ch then c {| endIndex := S (endIndex x); captures := captures x |}
        else None
    | None => None
    end.
Proof.
  unfold lit. cbn [RegExp.matcher read]. unfold read_forward.
  destruct (Input !! endIndex x) as [a|]; [|done].
  destruct (Input !! S (endIndex x)); simpl; unfold class_matches; simpl;
    unfold canonicalize; simpl; by rewrite orb_false_r.
Qed.

Lemma matcher_lit_backward ch x c :
  RegExp.matcher unicode_letter (g r0) Input (lit ch) Backward x c
  = match endIndex x with
    | O => None
    | S e =>
        match Input !! e with
        | Some a =>
            if a =? ch then c {| endIndex := e; captures := captures x |} else None
        | None => None
        end
    end.
Proof.
  unfold lit. cbn [RegExp.matcher read]. unfold read_backward.
  destruct (endIndex x) as [|e]; [done|].
  destruct (Input !! e) as [a|]; [|done].
  destruct e as [|e']; [|destruct (Input !! e')]; simpl; unfold class_matches; simpl;
    unfold canonicalize; simpl; by rewrite orb_false_r.
Qed.

End Literals.

Section EllipsisRule.
Variable unicode_letter : Z -> bool.
Variable Input : JSString.
Import RegExp.

(** Where the ellipsis rule matches: at three full stops with no full
    stop before and none after them. *)
Lemma ellipses_match_at i :
  match_at unicode_letter (fst ellipses) Input i
  = if match i with O => false | S i' => stop_at Input i' end then None
    else if stop_at Input i && stop_at Input (S i) && stop_at Input (S (S i))
            && negb (stop_at Input (S (S (S i))))
         then Some {| endIndex := S (S (S i)); captures := [] |}
         else None.
Proof.
  unfold match_at.
  pose (p0 := (neg_lookbehind (lit FULL_STOP) <+> exactly 3 (lit FULL_STOP) <+>
               neg_lookahead (lit FULL_STOP))%re).
  change (fst ellipses) with (g p0).
  change (pattern (g p0))
    with (neg_lookbehind (lit FULL_STOP) <+> exactly 3 (lit FULL_STOP) <+>
          neg_lookahead (lit FULL_STOP))%re.
  change (replicate _ None) with (@nil (option (nat * nat))).
  unfold neg_lookbehind, neg_lookahead, exactly.
  cbn [RegExp.matcher groups].
  replace (3 + length Input + 1)%nat with (S (S (S (S (length Input))))) by lia.
  cbn [RepeatMatcher negb Nat.eqb andb pred fmap option_fmap option_map
       clear_captures foldr endIndex captures].
  change (groups (lit FULL_STOP)) with (@nil nat). cbn [clear_captures foldr].
  unfold stop_at.
  rewrite matcher_lit_backward. cbn [endIndex captures].
  assert (Hrun :
    RegExp.matcher unicode_letter (g p0) Input (lit FULL_STOP) Forward
      {| endIndex := i; captures := [] |}
      (fun y =>
         RegExp.matcher unicode_letter (g p0) Input (lit FULL_STOP) Forward
           {| endIndex := endIndex y; captures := captures y |}
           (fun y0 =>
              RegExp.matcher unicode_letter (g p0) Input (lit FULL_STOP) Forward
                {| endIndex := endIndex y0; captures := captures y0 |}
                (fun y1 =>
                   match RegExp.matcher unicode_letter (g p0) Input (lit FULL_STOP)
                           Forward y1 Some with
                   | Some _ => None
                   | None => Some y1
                   end)))
    = if match Input !! i with Some c => c =? FULL_STOP | None => false end
         && match Input !! S i with Some c => c =? FULL_STOP | None => false end
         && match Input !! S (S i) with Some c => c =? FULL_STOP | None => false end
         && negb match Input !! S (S (S i)) with
                 | Some c => c =? FULL_STOP
                 | None => false
                 end
      then Some {| endIndex := S (S (S i)); captures := [] |}
      else None).
  { rewrite matcher_lit_forward. cbn [endIndex captures].
    destruct (Input !! i) as [a|]; [|done].
    destruct (a =? FULL_STOP); [|done].
    rewrite matcher_lit_forward. cbn [endIndex captures].
    destruct (Input !! S i) as [b|]; [|done].
    destruct (b =? FULL_STOP); [|done].
    rewrite matcher_lit_forward. cbn [endIndex captures].
    destruct (Input !! S (S i)) as [c|]; [|done].
    destruct (c =? FULL_STOP); [|done].
    rewrite matcher_lit_forward. cbn [endIndex captures].
    destruct (Input !! S (S (S i))) as [d|]; [|done].
    by destruct (d =? FULL_STOP). }
  rewrite Hrun.
  destruct i as [|i']; [done|].
  destruct (Input !! i') as [a|]; [|done].
  by destruct (a =? FULL_STOP).
Qed.

End EllipsisRule.

Section StopRun.
Variable unicode_letter : Z -> bool.
Variables pre post : JSString.
Variable n : nat.
Hypothesis pre_without : FULL_STOP ∉ pre.
Hypothesis post_without : FULL_STOP ∉ post.
Import RegExp.

(** The full stops of the text are those of the run. *)
Lemma stop_at_run j :
  stop_at (pre ++ replicate n FULL_STOP ++ post) j
  = (length pre <=? j)%nat && (j <? length pre + n)%nat.
Proof.
  unfold stop_at.
  destruct (Nat.leb_spec (length pre) j) as [Hle|Hlt]; cbn [andb].
  - rewrite lookup_app_r by done.
    destruct (Nat.ltb_spec j (length pre + n)) as [Hin|Hout].
    + rewrite lookup_app_l by (rewrite length_replicate; lia).
      rewrite lookup_replicate_2 by lia. done.
    + rewrite lookup_app_r by (rewrite length_replicate; lia).
      destruct (post !! _) as [c|] eqn:Hc; [|done].
      apply list_elem_of_lookup_2 in Hc.
      destruct (c =? FULL_STOP) eqn:E; [|done].
      apply Z.eqb_eq in E. by subst c.
  - rewrite lookup_app_l by done.
    destruct (pre !! j) as [c|] eqn:Hc; [|done].
    apply list_elem_of_lookup_2 in Hc.
    destruct (c =? FULL_STOP) eqn:E; [|done].
    apply Z.eqb_eq in E. by subst c.
Qed.

(** The ellipsis rule matches at the run, and only a run of three. *)
Lemma ellipses_on_run i :
  match_at unicode_letter (fst ellipses) (pre ++ replicate n FULL_STOP ++ post) i
  = if (i =? length pre)%nat && (n =? 3)%nat
    then Some {| endIndex := length pre + 3; captures := [] |}
    else None.
Proof.
  rewrite ellipses_match_at, !stop_at_run.
  destruct i as [|i']; [|rewrite stop_at_run];
    repeat match goal with
           | |- context [(?a <=? ?b)%nat] => destruct (Nat.leb_spec a b)
           | |- context [(?a <? ?b)%nat] => destruct (Nat.ltb_spec a b)
           | |- context [(?a =? ?b)%nat] => destruct (Nat.eqb_spec a b)
           end;
    cbn [andb negb]; try done; try lia;
    repeat f_equal; lia.
Qed.

Lemma ellipses_run :
  substitute unicode_letter (pre ++ replicate n FULL_STOP ++ post) ellipses
  = Normal (pre ++ (if (n =? 3)%nat then [HORIZONTAL_ELLIPSIS]
                    else replicate n FULL_STOP) ++ post).
Proof.
  destruct (Nat.eqb_spec n 3) as [Hn|Hn].
  - destruct (substitute_never_throws unicode_letter
                (pre ++ replicate n FULL_STOP ++ post) ellipses I) as [out Hout].
    rewrite Hout. f_equal.
    apply substitute_replaces_all in Hout; [|done].
    apply (replaces_all_unique unicode_letter ellipses
             (pre ++ replicate n FULL_STOP ++ post)); [done|].
    split; [done|].
    exists [(length pre, {| endIndex := length pre + 3; captures := [] |})].
    split.
    + cbn [all_matches]. split; [|split; [|split]].
      * split; [rewrite length_app; lia | by right].
      * rewrite ellipses_on_run, Nat.eqb_refl. subst n. done.
      * intros j _ Hj. rewrite ellipses_on_run.
        by replace (j =? length pre)%nat with false
          by (symmetry; apply Nat.eqb_neq; lia).
      * intros j [[Hj _] _]. rewrite ellipses_on_run.
        unfold search_after in Hj. cbn [endIndex] in Hj.
        replace (length pre <? length pre + 3)%nat with true in Hj
          by (symmetry; apply Nat.ltb_lt; lia).
        by replace (j =? length pre)%nat with false
          by (symmetry; apply Nat.eqb_neq; lia).
    + cbn [replaced_from]. exists [HORIZONTAL_ELLIPSIS], post.
      split; [done|]. split.
      * cbn [endIndex]. subst n.
        by rewrite <- drop_drop, drop_app_length.
      * unfold substring. rewrite drop_0, Nat.sub_0_r, take_app_length. done.
  - apply replace_no_match. intros i. rewrite ellipses_on_run.
    replace (n =? 3)%nat with false by (symmetry; by apply Nat.eqb_neq).
    by rewrite andb_false_r.
Qed.

End StopRun.

Section AroundEllipses.
Variable unicode_letter : Z -> bool.

Lemma unmarked_spec c :
  unmarked c = true ->
  c <> QUOTATION_MARK /\ c <> APOSTROPHE /\ c <> HYPHEN_MINUS /\ c <> FULL_STOP.
Proof.
  unfold unmarked. intros H.
  repeat (apply andb_true_iff in H as [H ?]).
  repeat match goal with
         | H : negb _ = true |- _ => apply negb_true_iff in H
         | H : (_ =? _) = false |- _ => apply Z.eqb_neq in H
         end.
  done.
Qed.

(** The rules before the ellipsis rule, on a text without double quote
    and apostrophe. *)
Lemma rules_before_ellipses dq sq ap rules value :
  QUOTATION_MARK ∉ value -> APOSTROPHE ∉ value ->
  transform_with unicode_letter
    ([(fst double_quoted, Template dq); n_idiom; (fst single_quoted, Template sq);
      double_primes; single_primes; (fst apostrophes, Template ap)] ++ rules) value
  = transform_with unicode_letter rules value.
Proof.
  intros Hq Ha.
  assert (Hskip : forall ch rule rest,
            requires ch (RegExp.pattern (fst rule)) = true -> plain ch = true ->
            ch ∉ value ->
            transform_with unicode_letter (rule :: rest) value
            = transform_with unicode_letter rest value).
  { intros ch rule rest Hr Hp Hc. apply transform_with_step.
    by apply (substitute_requires unicode_letter ch). }
  cbn [app].
  rewrite (Hskip QUOTATION_MARK) by done. rewrite (Hskip APOSTROPHE) by done.
  rewrite (Hskip APOSTROPHE) by done. rewrite (Hskip QUOTATION_MARK) by done.
  rewrite (Hskip APOSTROPHE) by done. rewrite (Hskip APOSTROPHE) by done.
  reflexivity.
Qed.

(** The rules after the ellipsis rule, on a text without double quote and
    hyphen-minus. *)
Lemma rules_after_ellipses hy extra value :
  extra = [] \/ extra = [de_compound] \/ extra = [ja_brackets] \/ extra = [he_acronym] ->
  QUOTATION_MARK ∉ value -> HYPHEN_MINUS ∉ value ->
  transform_with unicode_letter
    ([dash_separator; date_hyphens; figure_dashes; range_dash;
      (fst hyphens, Template hy)] ++ extra) value
  = Normal value.
Proof.
  intros Hextra Hq Hh.
  assert (Hskip : forall ch rule rest,
            requires ch (RegExp.pattern (fst rule)) = true -> plain ch = true ->
            ch ∉ value ->
            transform_with unicode_letter (rule :: rest) value
            = transform_with unicode_letter rest value).
  { intros ch rule rest Hr Hp Hc. apply transform_with_step.
    by apply (substitute_requires unicode_letter ch). }
  cbn [app].
  rewrite (Hskip HYPHEN_MINUS) by done. rewrite (Hskip HYPHEN_MINUS) by done.
  rewrite (Hskip HYPHEN_MINUS) by done. rewrite (Hskip HYPHEN_MINUS) by done.
  rewrite (Hskip HYPHEN_MINUS) by done.
  destruct Hextra as [-> | [-> | [-> | ->]]]; [done| | |].
  - by rewrite (Hskip HYPHEN_MINUS) by done.
  - by rewrite (Hskip HYPHEN_MINUS) by done.
  - by rewrite (Hskip QUOTATION_MARK) by done.
Qed.

End AroundEllipses.

(** X11. A run of full stops in a text that holds none of the four ASCII
    marks elsewhere: a run of exactly three becomes the horizontal
    ellipsis, and a run of any other length, longer runs included, stays
    as it is.  The text around the run is not changed.  This holds for
    every language whose rules can be made. *)
Theorem ellipsis_only_three (unicode_letter : Z -> bool) (language : option string)
    (pre post : JSString) (n : nat) :
  property_key language ∉ Object_prototype ->
  Forall (fun c => unmarked c = true) pre ->
  Forall (fun c => unmarked c = true) post ->
  guessUnicodePunctuation unicode_letter language (pre ++ replicate n FULL_STOP ++ post)
  = Normal (pre ++ (if (n =? 3)%nat then [HORIZONTAL_ELLIPSIS]
                    else replicate n FULL_STOP) ++ post).
Proof.
  intros Hp Hpre Hpost. rewrite guess_by_resolved by done.
  destruct (resolved_cases (property_key language))
    as (dq & sq & ap & hy & extra & -> & _ & _ & Hextra).
  assert (Hside : forall (side : JSString) ch,
            Forall (fun c => unmarked c = true) side ->
            ch ∈ [QUOTATION_MARK; APOSTROPHE; HYPHEN_MINUS; FULL_STOP] -> ch ∉ side).
  { intros side ch Hs Hch Hin. eapply Forall_forall in Hs; [|exact Hin].
    apply unmarked_spec in Hs as (? & ? & ? & ?).
    repeat (apply elem_of_cons in Hch as [->|Hch]; [done|]).
    by apply elem_of_nil in Hch. }
  assert (Hrun : forall ch, ch <> FULL_STOP -> ch ∉ replicate n FULL_STOP).
  { intros ch Hne Hin. apply elem_of_replicate in Hin as [? _]. done. }
  change (overridden dq sq ap hy ++ extra)
    with ([(fst double_quoted, Template dq); n_idiom; (fst single_quoted, Template sq);
           double_primes; single_primes; (fst apostrophes, Template ap)]
          ++ ellipses
             :: ([dash_separator; date_hyphens; figure_dashes; range_dash;
                  (fst hyphens, Template hy)] ++ extra)).
  rewrite rules_before_ellipses.
  - rewrite (transform_with_step _ _ _ _ _
               (ellipses_run unicode_letter pre post n
                  (Hside pre FULL_STOP Hpre ltac:(listed))
                  (Hside post FULL_STOP Hpost ltac:(listed)))).
    apply rules_after_ellipses; [done| |]; rewrite !not_elem_of_app.
    + split; [apply Hside; [done | listed]|]. split; [|apply Hside; [done | listed]].
      destruct (n =? 3)%nat; [not_in_template | by apply Hrun].
    + split; [apply Hside; [done | listed]|]. split; [|apply Hside; [done | listed]].
      destruct (n =? 3)%nat; [not_in_template | by apply Hrun].
  - rewrite !not_elem_of_app.
    split; [apply Hside; [done | listed]|]. split; [by apply Hrun|].
    apply Hside; [done | listed].
  - rewrite !not_elem_of_app.
    split; [apply Hside; [done | listed]|]. split; [by apply Hrun|].
    apply Hside; [done | listed].
Qed.

(** Witness for X11: three full stops after a word, in German. *)
Lemma ellipsis_only_three_witness :
  guessUnicodePunctuation (fun _ => false) (Some "de"%string)
    (u16 "und so weiter" ++ replicate 3 FULL_STOP ++ [])
  = Normal (u16 "und so weiter" ++ [HORIZONTAL_ELLIPSIS] ++ []).
Proof.
  apply (ellipsis_only_three (fun _ => false) (Some "de"%string)
           (u16 "und so weiter") [] 3).
  - apply (bool_decide_eq_false_1 _). reflexivity.
  - repeat (apply Forall_cons_2; [reflexivity|]). apply Forall_nil_2.
  - apply Forall_nil_2.
Defined.
